(** * node-appletv: the session engine of [src/lib/appletv.ts]

    A shallow embedding of the [AppleTV] class: the handshake driven by
    [openConnection], the typed sends built on [sendMessage], the inbound
    dispatch of [onReceiveMessage], the [messageOfType] waits and the
    listener-driven polling timer.

    - The engine is an [EventEmitter] whose methods are [async]; a method
      is embedded as a state transformer over a [World] that resolves or
      rejects, and [await] is the bind of this monad: what follows an
      [await] runs in the world the awaited call left, and only if it
      resolved.
    - Every call that leaves the class (the connection, the protobuf
      loader, the verifier, [uuid]) is appended to the world's [trace] and
      answered by an [Env], which may look at everything that happened so
      far.  [Connection], [Verifier], [Credentials], [Message] and
      [./util/number] are not part of this file's source; they appear
      through [Env] and through the fields the class reads and writes.
    - A [Credentials] object belongs to the caller: the world holds a heap
      of them and the engine a reference, so a write through
      [this.credentials] is seen by whoever holds the object.
    - [setTimeout] and [setInterval] register a timer with its delay; the
      runtime firing it is a step of its own ([fire]).  Seconds are
      integers, and no clock is modelled.
    - The [EventEmitter] is Node's: 'newListener' is emitted before a
      listener is added, 'removeListener' after one is removed, and [emit]
      calls the listeners registered when it starts.
    - The constructor's reading of the discovered service is [device];
      the rest of the constructor is [new_AppleTV]. *)

From Stdlib Require Import ZArith Lia Ascii.
From Stdlib.Strings Require Import Byte.
From stdpp Require Import gmap strings list pretty.

(** ** Buffers *)

Abbreviation Buffer := (list byte).

Definition hex_digit (c : ascii) : option N :=
  let n := N_of_ascii c in
  if ((48 <=? n) && (n <=? 57))%N then Some (n - 48)%N
  else if ((97 <=? n) && (n <=? 102))%N then Some (n - 87)%N
  else if ((65 <=? n) && (n <=? 70))%N then Some (n - 55)%N
  else None.

(** [Buffer.from(s, 'hex')]: pairs of hex digits, read until the first pair
    that is not one. *)
Fixpoint from_hex (s : string) : Buffer :=
  match s with
  | String a (String b rest) =>
      match hex_digit a, hex_digit b with
      | Some h, Some l =>
          match Byte.of_N (16 * h + l) with
          | Some x => x :: from_hex rest
          | None => []
          end
      | _, _ => []
      end
  | _ => []
  end.

Definition hex_char (n : N) : ascii :=
  if (n <? 10)%N then ascii_of_N (48 + n) else ascii_of_N (87 + n).

(** [buf.toString('hex')] *)
Fixpoint to_hex (b : Buffer) : string :=
  match b with
  | [] => EmptyString
  | x :: rest =>
      let n := Byte.to_N x in
      String (hex_char (n / 16)) (String (hex_char (n mod 16)) (to_hex rest))
  end.

(** ** Data model *)

(** [new Error(message)] *)
Inductive Error := JsError (message : string).

Inductive Outcome (A : Type) :=
  | Resolved (a : A)
  | Rejected (e : Error).
Arguments Resolved {A} a.
Arguments Rejected {A} e.

(** [Credentials] (declared in [./credentials]): the fields this class
    reads and writes. *)
Record Credentials := {
  cred_pairingId : string;
  readKey : option Buffer;
  writeKey : option Buffer
}.

(** The dictionary [verifier.verify()] resolves to. *)
Record Keys := {
  keys_readKey : Buffer;
  keys_writeKey : Buffer
}.

Record Size := { width : Z; height : Z }.

(** Values stored in the fields of an outbound message body. *)
Inductive Value :=
  | VNum (z : Z)
  | VBool (b : bool)
  | VStr (s : string)
  | VBuf (b : Buffer)
  | VSize (s : Size)
  | VEnum (name : string).

(** A JavaScript object literal used as a message body. *)
Abbreviation Obj := (gmap string Value).

Definition obj (fields : list (string * Value)) : Obj := list_to_map fields.

Arguments obj : simpl never.

(** The [body] literal of [sendIntroduction]. *)
Definition introduction (uniqueIdentifier : string) : Obj :=
  obj [
    ("uniqueIdentifier", VStr uniqueIdentifier);
    ("name", VStr "node-appletv");
    ("localizedModelName", VStr "iPhone");
    ("systemBuildVersion", VStr "14G60");
    ("applicationBundleIdentifier", VStr "com.apple.TVRemote");
    ("applicationBundleVersion", VStr "320.18");
    ("protocolVersion", VNum 1);
    ("allowsPairing", VBool true);
    ("lastSupportedMessageType", VNum 45);
    ("supportsSystemPairing", VBool true) ].

(** *** Inbound messages *)

Record ContentItem := { artworkData : option Buffer }.

Record PlaybackQueue := { contentItems : option (list ContentItem) }.

(** One entry of [payload.supportedCommands.supportedCommands]. *)
Record CommandInfo := {
  sc_command : Z;
  sc_enabled : option bool;
  sc_canScrub : option bool
}.

Record SupportedCommands := { supportedCommandsList : option (list CommandInfo) }.

(** The decoded payload, with the fields this class looks at; an absent
    field is [None]. *)
Record Payload := {
  nowPlayingInfo : option Obj;
  supportedCommands : option SupportedCommands;
  playbackQueue : option PlaybackQueue
}.

(** [Message] (declared in [./message]): [type] is a numeric enum. *)
Record Message := {
  msg_type : Z;
  payload : option Payload
}.

(** [new NowPlayingInfo(message.payload)] *)
Record NowPlayingInfo := { npi_of : Payload }.

(** [new SupportedCommand(command, enabled, canScrub)] *)
Record SupportedCommand := {
  command : Z;
  enabled : bool;
  canScrub : bool
}.

(** What is passed along with an emitted event. *)
Inductive Arg :=
  | ArgMessage (m : Message)
  | ArgNowPlaying (info : option NowPlayingInfo)
  | ArgSupportedCommands (commands : list SupportedCommand)
  | ArgPlaybackQueue (q : PlaybackQueue)
  | ArgDebug (s : string).

(** ** Calls that leave the class *)

Inductive Event :=
  | Uuid                                   (* uuid() *)
  | ConnOpen                               (* connection.open() *)
  | ConnClose                              (* connection.close() *)
  | ProtoLoad (file : string)              (* load(path.resolve(__dirname + file)) *)
  | VerifierVerify                         (* new Verifier(this).verify() *)
  | ConnSend (messageType : string) (body : Obj) (waitForResponse : bool)
      (priority : Z) (credentials : option nat) (seen : option Credentials)
                                           (* connection.send(message, wait, priority, this.credentials) *)
  | Emit (event : string) (arg : Arg).     (* this.emit(event, arg) *)

(** The collaborators of the class.  Each answer may depend on the whole
    trace up to and including the call it answers. *)
Record Env := {
  uuid_answer : list Event → string;
  open_answer : list Event → Outcome unit;
  load_answer : list Event → Outcome unit;
  verify_answer : list Event → Outcome Keys;
  send_answer : list Event → Outcome (option Message);
  isOpen : list Event → bool;              (* connection.isOpen *)
  UInt16toBufferBE : Z → Buffer;           (* ./util/number *)
  SetStateMessage : Z                      (* Message.Type.SetStateMessage *)
}.

(** ** Listeners, timers and promises *)

Inductive Listener :=
  | External (id : nat)                    (* a callback of the caller *)
  | TypeWaiter (promise : nat) (type : Z)  (* [listener] of messageOfType *)
  | NewListenerHook                        (* setupListeners: onNewListener *)
  | RemoveListenerHook.                    (* setupListeners: onRemoveListener *)

#[global] Instance Listener_eq_dec : EqDecision Listener.
Proof. solve_decision. Defined.

Inductive Callback :=
  | PollQueue                              (* the arrow function of onNewListener *)
  | WaitExpired (promise : nat) (type : Z). (* the arrow function of messageOfType *)

#[global] Instance Callback_eq_dec : EqDecision Callback.
Proof. solve_decision. Defined.

Record Timer := {
  callback : Callback;
  delay : Z;                               (* milliseconds *)
  repeats : bool                           (* setInterval / setTimeout *)
}.

Inductive PromiseState :=
  | Pending
  | Fulfilled (m : Message)
  | Failed (e : Error).

(** ** The world: one [AppleTV] instance and the runtime around it *)

Record World := {
  pairingId : string;
  credentials : option nat;                (* a reference into [heap] *)
  queuePollTimer : option nat;             (* a handle into [timers] *)
  events : gmap string (list Listener);    (* the EventEmitter's registry *)
  heap : gmap nat Credentials;             (* Credentials objects of the caller *)
  timers : gmap nat Timer;
  promises : gmap nat PromiseState;
  next_id : nat;
  trace : list Event
}.

Definition set_pairingId (x : string) (w : World) : World :=
  {| pairingId := x; credentials := credentials w; queuePollTimer := queuePollTimer w;
     events := events w; heap := heap w; timers := timers w; promises := promises w;
     next_id := next_id w; trace := trace w |}.

Definition set_credentials (x : option nat) (w : World) : World :=
  {| pairingId := pairingId w; credentials := x; queuePollTimer := queuePollTimer w;
     events := events w; heap := heap w; timers := timers w; promises := promises w;
     next_id := next_id w; trace := trace w |}.

Definition set_queuePollTimer (x : option nat) (w : World) : World :=
  {| pairingId := pairingId w; credentials := credentials w; queuePollTimer := x;
     events := events w; heap := heap w; timers := timers w; promises := promises w;
     next_id := next_id w; trace := trace w |}.

Definition set_events (x : gmap string (list Listener)) (w : World) : World :=
  {| pairingId := pairingId w; credentials := credentials w; queuePollTimer := queuePollTimer w;
     events := x; heap := heap w; timers := timers w; promises := promises w;
     next_id := next_id w; trace := trace w |}.

Definition set_heap (x : gmap nat Credentials) (w : World) : World :=
  {| pairingId := pairingId w; credentials := credentials w; queuePollTimer := queuePollTimer w;
     events := events w; heap := x; timers := timers w; promises := promises w;
     next_id := next_id w; trace := trace w |}.

Definition set_timers (x : gmap nat Timer) (w : World) : World :=
  {| pairingId := pairingId w; credentials := credentials w; queuePollTimer := queuePollTimer w;
     events := events w; heap := heap w; timers := x; promises := promises w;
     next_id := next_id w; trace := trace w |}.

Definition set_promises (x : gmap nat PromiseState) (w : World) : World :=
  {| pairingId := pairingId w; credentials := credentials w; queuePollTimer := queuePollTimer w;
     events := events w; heap := heap w; timers := timers w; promises := x;
     next_id := next_id w; trace := trace w |}.

Definition set_next_id (x : nat) (w : World) : World :=
  {| pairingId := pairingId w; credentials := credentials w; queuePollTimer := queuePollTimer w;
     events := events w; heap := heap w; timers := timers w; promises := promises w;
     next_id := x; trace := trace w |}.

Definition record (e : Event) (w : World) : World :=
  {| pairingId := pairingId w; credentials := credentials w; queuePollTimer := queuePollTimer w;
     events := events w; heap := heap w; timers := timers w; promises := promises w;
     next_id := next_id w; trace := trace w ++ [e] |}.

(** ** The EventEmitter *)

Definition listeners (ev : string) (w : World) : list Listener :=
  default [] (events w !! ev).

(** [this.listenerCount(ev)] *)
Definition listenerCount (ev : string) (w : World) : nat :=
  length (listeners ev w).

Definition watched (ev : string) : bool :=
  bool_decide (ev = "nowPlaying") || bool_decide (ev = "supportedCommands").

(** [setInterval(cb, ms)] and [setTimeout(cb, ms)]: a fresh handle. *)
Definition start_timer (t : Timer) (w : World) : nat * World :=
  let h := next_id w in
  (h, set_next_id (S h) (set_timers (<[h := t]> (timers w)) w)).

(** [clearInterval(h)] *)
Definition clearInterval (h : nat) (w : World) : World :=
  set_timers (delete h (timers w)) w.

(** The interval of [onNewListener]: every 5000 ms. *)
Definition poll_timer : Timer :=
  {| callback := PollQueue; delay := 5000; repeats := true |}.

Definition onNewListener (event : string) (w : World) : World :=
  if bool_decide (queuePollTimer w = None) && watched event then
    let '(h, w1) := start_timer poll_timer w in
    set_queuePollTimer (Some h) w1
  else w.

Definition onRemoveListener (event : string) (w : World) : World :=
  match queuePollTimer w with
  | Some h =>
      if watched event then
        let count := (listenerCount "nowPlaying" w + listenerCount "supportedCommands" w)%nat in
        if bool_decide (count = 0%nat) then
          set_queuePollTimer None (clearInterval h w)
        else w
      else w
  | None => w
  end.

(** [emitter.on(ev, l)]: 'newListener' is emitted before [l] is appended;
    the hook installed by [setupListeners] answers it. *)
Definition on (ev : string) (l : Listener) (w : World) : World :=
  let w1 :=
    if bool_decide (NewListenerHook ∈ listeners "newListener" w)
    then onNewListener ev w else w in
  set_events (<[ev := listeners ev w1 ++ [l]]> (events w1)) w1.

(** Drops the last occurrence of [l], as [removeListener] searches from
    the end of the array. *)
Fixpoint remove_last (l : Listener) (ls : list Listener) : list Listener :=
  match ls with
  | [] => []
  | x :: rest =>
      if bool_decide (l ∈ rest) then x :: remove_last l rest
      else if bool_decide (x = l) then rest
      else x :: rest
  end.

(** [emitter.removeListener(ev, l)]: 'removeListener' is emitted after
    [l] is gone, and only when it was registered. *)
Definition removeListener (ev : string) (l : Listener) (w : World) : World :=
  if bool_decide (l ∈ listeners ev w) then
    let w1 := set_events (<[ev := remove_last l (listeners ev w)]> (events w)) w in
    if bool_decide (RemoveListenerHook ∈ listeners "removeListener" w1)
    then onRemoveListener ev w1 else w1
  else w.

(** Settling a promise that is no longer pending does nothing. *)
Definition settle (p : nat) (s : PromiseState) (w : World) : World :=
  match promises w !! p with
  | Some Pending => set_promises (<[p := s]> (promises w)) w
  | _ => w
  end.

(** Calling one registered listener with the emitted argument.  A callback
    of the caller is opaque: what it calls on the instance are further
    steps of [Op]. *)
Definition invoke (l : Listener) (a : Arg) (w : World) : World :=
  match l, a with
  | TypeWaiter p type, ArgMessage message =>
      if bool_decide (msg_type message = type) then
        removeListener "message" (TypeWaiter p type) (settle p (Fulfilled message) w)
      else w
  | _, _ => w
  end.

(** [this.emit(ev, a)]: the listeners registered when the call starts are
    called in registration order. *)
Definition emit (ev : string) (a : Arg) (w : World) : World :=
  foldl (λ w' l, invoke l a w') (record (Emit ev a) w) (listeners ev w).

(** [setupListeners], the part on the engine itself. *)
Definition setupListeners (w : World) : World :=
  on "removeListener" RemoveListenerHook (on "newListener" NewListenerHook w).

(** ** Asynchronous methods *)

Definition Async (A : Type) : Type := World → Outcome A * World.

Definition resolve {A} (a : A) : Async A := λ w, (Resolved a, w).
Definition reject {A} (e : Error) : Async A := λ w, (Rejected e, w).

(** [await m] followed by the rest of the method: a rejection ends the
    method, the state reached so far stays. *)
#[global] Instance Async_bind : MBind Async := λ A B k m w,
  match m w with
  | (Resolved a, w1) => k a w1
  | (Rejected e, w1) => (Rejected e, w1)
  end.

#[global] Instance Async_ret : MRet Async := λ A a w, (Resolved a, w).

(** A synchronous statement inside an async method. *)
Definition exec (f : World → World) : Async unit := λ w, (Resolved tt, f w).

Section Engine.
Context (env : Env).

Definition uuid : Async string :=
  λ w, let w1 := record Uuid w in (Resolved (uuid_answer env (trace w1)), w1).

Definition connection_open : Async unit :=
  λ w, let w1 := record ConnOpen w in (open_answer env (trace w1), w1).

Definition load (file : string) : Async unit :=
  λ w, let w1 := record (ProtoLoad file) w in (load_answer env (trace w1), w1).

Definition verifier_verify : Async Keys :=
  λ w, let w1 := record VerifierVerify w in (verify_answer env (trace w1), w1).

(** [this.connection.send(message, waitForResponse, priority, this.credentials)] *)
Definition connection_send (messageType : string) (body : Obj)
    (waitForResponse : bool) (priority : Z) : Async (option Message) :=
  λ w,
    let c := credentials w in
    let w1 := record (ConnSend messageType body waitForResponse priority c
                        (c ≫= (heap w !!.))) w in
    (send_answer env (trace w1), w1).

(** [closeConnection] *)
Definition closeConnection (w : World) : World := record ConnClose w.

(** [sendMessage]: the definition is loaded, the message created (the
    loader answers for both), then handed to the connection. *)
Definition sendMessage (definitionFilename messageType : string) (body : Obj)
    (waitForResponse : bool) (priority : Z) : Async (option Message) :=
  load ("/protos/" +:+ definitionFilename +:+ ".proto");;
  connection_send messageType body waitForResponse priority.

Definition sendIntroduction : Async (option Message) :=
  λ w,
    let body := introduction (pairingId w) in
    sendMessage "DeviceInfoMessage" "DeviceInfoMessage" body true 0 w.

Definition sendConnectionState : Async (option Message) :=
  load "/protos/SetConnectionStateMessage.proto";;
  connection_send "SetConnectionStateMessage" (obj [("state", VEnum "Connected")]) false 0.

Definition sendClientUpdatesConfig (config : Obj) : Async (option Message) :=
  sendMessage "ClientUpdatesConfigMessage" "ClientUpdatesConfigMessage" config false 0.

Definition sendWakeDevice : Async (option Message) :=
  sendMessage "WakeDeviceMessage" "WakeDeviceMessage" ∅ false 0.

(** [this.credentials.readKey = ...; this.credentials.writeKey = ...]:
    a write through the reference, seen by every holder of the object. *)
Definition install_keys (keys : Keys) : Async unit :=
  λ w, match credentials w with
       | Some c =>
           let put cr := {| cred_pairingId := cred_pairingId cr;
                            readKey := Some (keys_readKey keys);
                            writeKey := Some (keys_writeKey keys) |} in
           (Resolved tt, set_heap (alter put c (heap w)) w)
       | None =>
           (Rejected (JsError "Cannot set properties of undefined"), w)
       end.

Definition debug_keys (keys : Keys) : string :=
  "DEBUG: Keys Read=" +:+ to_hex (keys_readKey keys)
    +:+ ", Write=" +:+ to_hex (keys_writeKey keys).

Definition openConnection (creds : option nat) : Async unit :=
  exec (λ w, match creds ≫= (heap w !!.) with
             | Some cr => set_pairingId (cred_pairingId cr) w
             | None => w
             end);;
  connection_open;;
  sendIntroduction;;
  exec (set_credentials creds);;
  match creds with
  | Some _ =>
      keys ← verifier_verify;
      install_keys keys;;
      exec (emit "debug" (ArgDebug (debug_keys keys)));;
      sendConnectionState;;
      resolve tt
  | None => resolve tt
  end;;
  match creds with
  | Some _ =>
      sendClientUpdatesConfig (obj [
        ("nowPlayingUpdates", VBool true);
        ("artworkUpdates", VBool true);
        ("keyboardUpdates", VBool false);
        ("volumeUpdates", VBool false) ]);;
      resolve tt
  | None => resolve tt
  end;;
  resolve tt.

(** *** Playback queue requests *)

(** [params] is the caller's [options] object itself: the request id is
    added, and an [artworkSize] (a [Size], by its TypeScript type) is
    replaced by its two dimensions. *)
Definition requestPlaybackQueueWithWait (options : Obj) (waitForResponse : bool)
    : Async (option Message) :=
  requestID ← uuid;
  let params := <["requestID" := VStr requestID]> options in
  let params :=
    match options !! "artworkSize" with
    | Some (VSize artworkSize) =>
        delete "artworkSize"
          (<["artworkHeight" := VNum (height artworkSize)]>
             (<["artworkWidth" := VNum (width artworkSize)]> params))
    | _ => params
    end in
  sendMessage "PlaybackQueueRequestMessage" "PlaybackQueueRequestMessage"
    params waitForResponse 0.

Definition requestPlaybackQueue (options : Obj) : Async (option Message) :=
  requestPlaybackQueueWithWait options true.

(** [response?.payload?.playbackQueue?.contentItems?.[0]?.artworkData] *)
Definition artwork_of (response : option Message) : option Buffer :=
  message ← response;
  payload ← payload message;
  playbackQueue ← playbackQueue payload;
  contentItems ← contentItems playbackQueue;
  first ← head contentItems;
  artworkData first.

Definition requestArtwork (width height : option Z) : Async Buffer :=
  let width := default 400%Z width in
  let height := default 400%Z height in
  response ← requestPlaybackQueueWithWait (obj [
    ("artworkSize", VSize {| width := width; height := height |});
    ("length", VNum 1);
    ("location", VNum 0) ]) true;
  match artwork_of response with
  | Some data => resolve data
  | None => reject (JsError "No artwork available")
  end.

(** *** Key presses *)

Definition hidEventData (usePage usage : Z) (down : bool) : Buffer :=
  let time := from_hex "438922cf08020000" in
  let data :=
    UInt16toBufferBE env usePage ++ UInt16toBufferBE env usage
      ++ (if down then UInt16toBufferBE env 1 else UInt16toBufferBE env 0) in
  time
    ++ from_hex ("00000000000000000100000000000000020"
                   +:+ "00000200000000300000001000000000000")
    ++ data
    ++ from_hex "0000000000000001000000".

Definition sendKeyPress (usePage usage : Z) (down : bool) : Async unit :=
  let body := obj [("hidEventData", VBuf (hidEventData usePage usage down))] in
  sendMessage "SendHIDEventMessage" "SendHIDEventMessage" body false 0;;
  resolve tt.

Definition sendKeyPressAndRelease (usePage usage : Z) : Async unit :=
  sendKeyPress usePage usage true;;
  sendKeyPress usePage usage false.

End Engine.

(** [AppleTV.Key] *)
Inductive Key :=
  | Up | Down | Left | Right | Menu | Play | Pause | Next | Previous
  | Suspend | Select.

(** [AppleTV.key]: an unknown name gives [undefined]. *)
Definition key (name : string) : option Key :=
  if bool_decide (name = "up") then Some Up
  else if bool_decide (name = "down") then Some Down
  else if bool_decide (name = "left") then Some Left
  else if bool_decide (name = "right") then Some Right
  else if bool_decide (name = "menu") then Some Menu
  else if bool_decide (name = "play") then Some Play
  else if bool_decide (name = "pause") then Some Pause
  else if bool_decide (name = "next") then Some Next
  else if bool_decide (name = "previous") then Some Previous
  else if bool_decide (name = "suspend") then Some Suspend
  else if bool_decide (name = "select") then Some Select
  else None.

Section Commands.
Context (env : Env).

Definition sendKeyCommand (key : Key) : Async unit :=
  match key with
  | Up => sendKeyPressAndRelease env 1 0x8C
  | Down => sendKeyPressAndRelease env 1 0x8D
  | Left => sendKeyPressAndRelease env 1 0x8B
  | Right => sendKeyPressAndRelease env 1 0x8A
  | Menu => sendKeyPressAndRelease env 1 0x86
  | Play => sendKeyPressAndRelease env 12 0xB0
  | Pause => sendKeyPressAndRelease env 12 0xB1
  | Next => sendKeyPressAndRelease env 12 0xB5
  | Previous => sendKeyPressAndRelease env 12 0xB6
  | Suspend => sendKeyPressAndRelease env 1 0x82
  | Select => sendKeyPressAndRelease env 1 0x89
  end.

(** *** Inbound dispatch *)

Definition to_SupportedCommand (sc : CommandInfo) : SupportedCommand :=
  {| command := sc_command sc;
     enabled := default false (sc_enabled sc);
     canScrub := default false (sc_canScrub sc) |}.

Definition onReceiveMessage (message : Message) (w : World) : World :=
  let w := emit "message" (ArgMessage message) w in
  if bool_decide (msg_type message = SetStateMessage env) then
    match payload message with
    | None => emit "nowPlaying" (ArgNowPlaying None) w
    | Some p =>
        let w :=
          match nowPlayingInfo p with
          | Some _ => emit "nowPlaying" (ArgNowPlaying (Some {| npi_of := p |})) w
          | None => w
          end in
        let w :=
          match supportedCommands p with
          | Some sc =>
              let commands :=
                to_SupportedCommand <$> default [] (supportedCommandsList sc) in
              emit "supportedCommands" (ArgSupportedCommands commands) w
          | None => w
          end in
        match playbackQueue p with
        | Some q => emit "playbackQueue" (ArgPlaybackQueue q) w
        | None => w
        end
    end
  else w.

(** *** Waiting for a message of a type *)

Definition timeout_error (type : Z) : Error :=
  JsError ("Timed out waiting for message type " +:+ pretty type).

(** The promise, the timer and the listener are created in this order;
    the result is the promise. *)
Definition messageOfType (type : Z) (timeout : option Z) (w : World) : nat * World :=
  let timeout := default 5%Z timeout in
  let p := next_id w in
  let w := set_next_id (S p) (set_promises (<[p := Pending]> (promises w)) w) in
  let '(_, w) := start_timer {| callback := WaitExpired p type;
                                delay := timeout * 1000;
                                repeats := false |} w in
  (p, on "message" (TypeWaiter p type) w).

(** *** Timers firing *)

(** The body of the interval started by [onNewListener]; what the request
    resolves or rejects with is dropped. *)
Definition pollQueue (w : World) : World :=
  if isOpen env (trace w) then
    (requestPlaybackQueueWithWait env (obj [
       ("length", VNum 100);
       ("location", VNum 0);
       ("artworkSize", VSize {| width := -1; height := 368 |}) ]) false w).2
  else w.

Definition run_callback (c : Callback) (w : World) : World :=
  match c with
  | PollQueue => pollQueue w
  | WaitExpired p type =>
      removeListener "message" (TypeWaiter p type)
        (settle p (Failed (timeout_error type)) w)
  end.

(** The runtime fires timer [h]: a timeout is spent, an interval stays. *)
Definition fire (h : nat) (w : World) : World :=
  match timers w !! h with
  | Some t =>
      run_callback (callback t)
        (if repeats t then w else set_timers (delete h (timers w)) w)
  | None => w
  end.

(** *** The life of an instance *)

(** [new AppleTV(service, socket)] *)
Definition new_AppleTV (objects : gmap nat Credentials) : World :=
  setupListeners
    {| pairingId := uuid_answer env [Uuid];
       credentials := None;
       queuePollTimer := None;
       events := ∅;
       heap := objects;
       timers := ∅;
       promises := ∅;
       next_id := 0;
       trace := [Uuid] |}.

(** What can happen to an instance: calls of its caller, inbound
    messages and timers. *)
Inductive Op :=
  | On (ev : string) (id : nat)
  | RemoveListener (ev : string) (id : nat)
  | MessageOfType (type : Z) (timeout : option Z)
  | Receive (m : Message)
  | Fire (h : nat)
  | OpenConnection (creds : option nat)
  | CloseConnection
  | RequestPlaybackQueue (options : Obj)
  | RequestArtwork (width height : option Z)
  | SendKeyCommand (k : Key).

Definition step (w : World) (op : Op) : World :=
  match op with
  | On ev id => on ev (External id) w
  | RemoveListener ev id => removeListener ev (External id) w
  | MessageOfType type timeout => (messageOfType type timeout w).2
  | Receive m => onReceiveMessage m w
  | Fire h => fire h w
  | OpenConnection creds => (openConnection env creds w).2
  | CloseConnection => closeConnection w
  | RequestPlaybackQueue options => (requestPlaybackQueue env options w).2
  | RequestArtwork width height => (requestArtwork env width height w).2
  | SendKeyCommand k => (sendKeyCommand k w).2
  end.

Definition run (ops : list Op) (w : World) : World := foldl step w ops.

End Commands.

(** ** The discovered service *)

(** [service.txtRecord] *)
Record TxtRecord := {
  Name : string;
  UniqueIdentifier : string
}.

(** [Service] (of [mdns]): the fields the constructor reads. *)
Record Service := {
  addresses : list string;
  port : Z;
  txtRecord : TxtRecord
}.

Fixpoint starts_with (search s : string) : bool :=
  match search, s with
  | EmptyString, _ => true
  | String a search', String b s' => bool_decide (a = b) && starts_with search' s'
  | String _ _, EmptyString => false
  end.

(** [s.includes(search)] *)
Fixpoint includes (search s : string) : bool :=
  starts_with search s
  || match s with
     | EmptyString => false
     | String _ s' => includes search s'
     end.

(** The fields the constructor fills from the service; [address] is
    [undefined] when the filtered array is empty. *)
Record Device := {
  name : string;
  address : option string;
  device_port : Z;
  uid : string
}.

(** [constructor(service, socket)], the assignments from [service]. *)
Definition device (service : Service) : Device :=
  {| name := Name (txtRecord service);
     address := head (filter (λ x, includes "." x) (addresses service));
     device_port := port service;
     uid := UniqueIdentifier (txtRecord service) |}.

(** ** Reading traces *)

(** What a call added to the trace. *)
Definition since (w w' : World) : list Event :=
  drop (length (trace w)) (trace w').

Definition message_type_of (e : Event) : option string :=
  match e with
  | ConnSend messageType _ _ _ _ _ => Some messageType
  | _ => None
  end.

(** The types of the messages handed to the connection, in order. *)
Definition sent_types (t : list Event) : list string := omap message_type_of t.

Definition rejected_with {A} (o : Outcome A) : option Error :=
  match o with
  | Rejected e => Some e
  | Resolved _ => None
  end.

(** The error the collaborator gave to the last call of a trace. *)
Definition rejection (env : Env) (t : list Event) : option Error :=
  match last t with
  | Some ConnOpen => rejected_with (open_answer env t)
  | Some (ProtoLoad _) => rejected_with (load_answer env t)
  | Some VerifierVerify => rejected_with (verify_answer env t)
  | Some (ConnSend _ _ _ _ _ _) => rejected_with (send_answer env t)
  | _ => None
  end.

(** A Credentials object after the two key fields were written. *)
Definition with_keys (cr : Credentials) (keys : Keys) : Credentials :=
  {| cred_pairingId := cred_pairingId cr;
     readKey := Some (keys_readKey keys);
     writeKey := Some (keys_writeKey keys) |}.

(** The messages handed to the connection, in order. *)
Definition sends (t : list Event) : list Event :=
  filter (λ e, is_Some (message_type_of e)) t.

(** A field of the payload of a sent message. *)
Definition field (name : string) (e : Event) : option Value :=
  match e with
  | ConnSend _ body _ _ _ _ => body !! name
  | _ => None
  end.

(** [load] of the HID message definition. *)
Definition hid_load : Event := ProtoLoad "/protos/SendHIDEventMessage.proto".

(** [load] of the playback queue request definition. *)
Definition queue_load : Event :=
  ProtoLoad "/protos/PlaybackQueueRequestMessage.proto".

(** What a call added to the trace satisfies [P], event by event. *)
Definition adds (P : Event → Prop) (w w' : World) : Prop :=
  ∃ l, trace w' = trace w ++ l ∧ Forall P l.

(** A message handed to the connection along with credentials [c], which
    then held [s]. *)
Definition sent_with (c : option nat) (s : option Credentials) (e : Event) : Prop :=
  match e with
  | ConnSend _ _ _ _ c' s' => c' = c ∧ s' = s
  | _ => True
  end.

(** The messages the engine builds itself: type, whether the answer is
    waited for, and priority 0. *)
Definition engine_send (e : Event) : Prop :=
  match e with
  | ConnSend messageType _ waitForResponse priority _ _ =>
      priority = 0%Z
      ∧ (messageType, waitForResponse) ∈
          [("DeviceInfoMessage", true);
           ("SetConnectionStateMessage", false);
           ("ClientUpdatesConfigMessage", false);
           ("PlaybackQueueRequestMessage", true);
           ("PlaybackQueueRequestMessage", false);
           ("SendHIDEventMessage", false)]
  | _ => True
  end.

Definition is_ConnOpen (e : Event) : bool :=
  match e with ConnOpen => true | _ => false end.

Definition is_ConnClose (e : Event) : bool :=
  match e with ConnClose => true | _ => false end.

Definition is_VerifierVerify (e : Event) : bool :=
  match e with VerifierVerify => true | _ => false end.

(** An event other than opening, closing and verifying. *)
Definition plain (e : Event) : Prop :=
  engine_send e ∧ is_ConnOpen e = false ∧ is_ConnClose e = false
  ∧ is_VerifierVerify e = false.

Definition is_open (op : Op) : bool :=
  match op with OpenConnection _ => true | _ => false end.

Definition is_close (op : Op) : bool :=
  match op with CloseConnection => true | _ => false end.

Definition is_keyed_open (op : Op) : bool :=
  match op with OpenConnection (Some _) => true | _ => false end.

(** ** Invariants *)

(** Listeners of the two watched events. *)
Definition watching (w : World) : nat :=
  listenerCount "nowPlaying" w + listenerCount "supportedCommands" w.

(** [h] is a running polling task. *)
Definition polling (w : World) (h : nat) : Prop :=
  ∃ t, timers w !! h = Some t ∧ callback t = PollQueue.

Definition is_hook (l : Listener) : bool :=
  match l with NewListenerHook | RemoveListenerHook => true | _ => false end.

(** What holds of every instance, whatever happened to it: the hooks of
    [setupListeners] are registered, the polling timer is held exactly
    while a watched listener is, and handles and promises are fresh. *)
Record wf (w : World) : Prop := {
  wf_new_hook : NewListenerHook ∈ listeners "newListener" w;
  wf_remove_hook : RemoveListenerHook ∈ listeners "removeListener" w;
  wf_poll :
    match queuePollTimer w with
    | Some h => timers w !! h = Some poll_timer ∧ 0 < watching w
    | None => watching w = 0
    end;
  wf_unique : ∀ h t,
    timers w !! h = Some t → callback t = PollQueue → queuePollTimer w = Some h;
  wf_timers_fresh : ∀ h, is_Some (timers w !! h) → h < next_id w;
  wf_promises_fresh : ∀ p, is_Some (promises w !! p) → p < next_id w;
  wf_waiters_fresh : ∀ ev p ty, TypeWaiter p ty ∈ listeners ev w → p < next_id w;
  wf_timeouts_fresh : ∀ h t p ty,
    timers w !! h = Some t → callback t = WaitExpired p ty → p < next_id w
}.

(** The part of the world the EventEmitter and the timers live in. *)
Definition emitter_state (w : World) :=
  (queuePollTimer w, events w, timers w, promises w, next_id w).

(** A method that leaves this part alone. *)
Definition quiet {A} (m : Async A) : Prop :=
  ∀ w, emitter_state (m w).2 = emitter_state w.

(** The part of the world only [openConnection] writes. *)
Definition session_state (w : World) := (pairingId w, credentials w, heap w).

(** From [w] to [w'] the session state stayed and every message went out
    with the credentials of [w]. *)
Definition steady (w w' : World) : Prop :=
  session_state w' = session_state w
  ∧ adds (sent_with (credentials w) (credentials w ≫= (heap w !!.))) w w'.

(** A method that keeps the session state and sends with it. *)
Definition calm {A} (m : Async A) : Prop := ∀ w, steady w (m w).2.

(** A method whose calls out are all [plain]. *)
Definition typed {A} (m : Async A) : Prop := ∀ w, adds plain w (m w).2.

(** ** Waits *)

(** What happens to an instance without disturbing the wait for a message
    of type [ty] whose timer is [h]: no message of this type arrives and
    the timer does not fire. *)
Definition undisturbed (ty : Z) (h : nat) (op : Op) : Prop :=
  match op with
  | Receive m => msg_type m ≠ ty
  | Fire h' => h' ≠ h
  | _ => True
  end.

(** Promise [p] belongs to a call of [messageOfType] for type [ty]: its
    listener, if still registered, waits for this type. *)
Record tracked (p : nat) (ty : Z) (w : World) : Prop := {
  tracked_wf : wf w;
  tracked_lt : p < next_id w;
  tracked_type : ∀ ev ty', TypeWaiter p ty' ∈ listeners ev w → ty' = ty
}.

(** The call is still waiting: the promise is pending, its timer [t] is
    armed under handle [h] and its listener is registered, once. *)
Record waiting (p : nat) (ty : Z) (h : nat) (t : Timer) (w : World) : Prop := {
  waiting_callback : callback t = WaitExpired p ty;
  waiting_tracked : tracked p ty w;
  waiting_pending : promises w !! p = Some Pending;
  waiting_timer : timers w !! h = Some t;
  waiting_once :
    count_occ Listener_eq_dec (listeners "message" w) (TypeWaiter p ty) = 1;
  waiting_only : ∀ h' t' ty',
    timers w !! h' = Some t' → callback t' = WaitExpired p ty' → h' = h
}.

(** Every wait of [messageOfType], on one instance: a listener of a wait
    is registered on 'message' only, for a promise that is pending; a
    pending promise is a wait that is still whole; timeouts fire once. *)
Record waits_ok (w : World) : Prop := {
  waits_wf : wf w;
  waits_one_shot : ∀ h t p ty,
    timers w !! h = Some t → callback t = WaitExpired p ty → repeats t = false;
  waits_registered : ∀ ev p ty,
    TypeWaiter p ty ∈ listeners ev w →
    ev = "message" ∧ promises w !! p = Some Pending;
  waits_pending : ∀ p,
    promises w !! p = Some Pending → ∃ ty h t, waiting p ty h t w
}.

(** ** Sample collaborators *)

Definition uint16_be (z : Z) : Buffer :=
  match Byte.of_N (Z.to_N (z / 256 mod 256)), Byte.of_N (Z.to_N (z mod 256)) with
  | Some hi, Some lo => [hi; lo]
  | _, _ => []
  end.

Definition connected (t : list Event) : bool :=
  foldl (λ b e, match e with ConnOpen => true | ConnClose => false | _ => b end)
    false t.

Definition sample_keys : Keys :=
  {| keys_readKey := from_hex "0a0b"; keys_writeKey := from_hex "ff01" |}.

(** Everything answers; the verifier and the connection answer as given. *)
Definition sample_env (verify : Outcome Keys) (response : Outcome (option Message)) : Env :=
  {| uuid_answer := λ t, "uuid-" +:+ pretty (length t);
     open_answer := λ _, Resolved tt;
     load_answer := λ _, Resolved tt;
     verify_answer := λ _, verify;
     send_answer := λ _, response;
     isOpen := connected;
     UInt16toBufferBE := uint16_be;
     SetStateMessage := 4 |}.

Definition env_ok : Env := sample_env (Resolved sample_keys) (Resolved None).

Definition env_unverified : Env :=
  sample_env (Rejected (JsError "verification failed")) (Resolved None).

(** The protobuf definitions cannot be loaded; everything else answers. *)
Definition env_without_definitions : Env :=
  {| uuid_answer := uuid_answer env_ok;
     open_answer := open_answer env_ok;
     load_answer := λ _, Rejected (JsError "no such file");
     verify_answer := verify_answer env_ok;
     send_answer := send_answer env_ok;
     isOpen := isOpen env_ok;
     UInt16toBufferBE := UInt16toBufferBE env_ok;
     SetStateMessage := SetStateMessage env_ok |}.

(** The connection rejects what it is asked to send. *)
Definition env_send_fails : Env :=
  sample_env (Resolved sample_keys) (Rejected (JsError "send failed")).

Definition sample_credentials : Credentials :=
  {| cred_pairingId := "pair-1"; readKey := None; writeKey := None |}.

Definition sample_tv (env : Env) : World :=
  new_AppleTV env {[ 7%nat := sample_credentials ]}.

(** A state message without payload. *)
Definition state_message : Message := {| msg_type := 4; payload := None |}.

(** * Properties *)

(** ** Traces and emitted events *)

Lemma since_app w w' l : trace w' = trace w ++ l → since w w' = l.
Proof. intros E. unfold since. rewrite E. apply drop_app_length. Qed.

Lemma foldl_invoke_other ls a w :
  (∀ m, a ≠ ArgMessage m) → foldl (λ w' l, invoke l a w') w ls = w.
Proof.
  intros Ha. revert w. induction ls as [|l ls IH]; intros w; simpl; [done|].
  rewrite <- (IH w) at 2. f_equal.
  destruct l, a; simpl; try done. by destruct (Ha m).
Qed.

(** Only a message reaches the waits of [messageOfType]: any other
    argument leaves the world as it is, apart from the trace. *)
Lemma emit_other ev a w :
  (∀ m, a ≠ ArgMessage m) → emit ev a w = record (Emit ev a) w.
Proof. intros Ha. unfold emit. by apply foldl_invoke_other. Qed.

Lemma emit_debug s w :
  emit "debug" (ArgDebug s) w = record (Emit "debug" (ArgDebug s)) w.
Proof. by apply emit_other. Qed.

Ltac async_unfold :=
  unfold sendClientUpdatesConfig, sendConnectionState, sendIntroduction,
    sendMessage, install_keys, connection_send, verifier_verify, load,
    connection_open, uuid, exec, resolve, reject, mbind, Async_bind, mret,
    Async_ret in *.

(** Case analysis on the next answer of the collaborators. *)
Ltac answer :=
  match goal with
  | |- context [match open_answer ?e ?t with Resolved _ => _ | Rejected _ => _ end] =>
      destruct (open_answer e t) eqn:?
  | |- context [match load_answer ?e ?t with Resolved _ => _ | Rejected _ => _ end] =>
      destruct (load_answer e t) eqn:?
  | |- context [match send_answer ?e ?t with Resolved _ => _ | Rejected _ => _ end] =>
      destruct (send_answer e t) eqn:?
  | |- context [match verify_answer ?e ?t with Resolved _ => _ | Rejected _ => _ end] =>
      destruct (verify_answer e t) eqn:?
  end;
  simpl; rewrite ?emit_debug; simpl.

Ltac not_among :=
  repeat (apply not_elem_of_cons; split; [discriminate|]); apply not_elem_of_nil.

Ltac since_is :=
  erewrite since_app; [|simpl; rewrite <- ?app_assoc; simpl; reflexivity].

Ltac rejected_here :=
  unfold rejection; rewrite last_snoc; simpl;
  match goal with H : _ = Rejected _ |- _ => by rewrite H end.

(** ** The handshake *)

Lemma open_without_credentials_trace env w w' :
  openConnection env None w = (Resolved tt, w') →
  trace w' = trace w ++
    [ConnOpen; ProtoLoad "/protos/DeviceInfoMessage.proto";
     ConnSend "DeviceInfoMessage" (introduction (pairingId w)) true 0
       (credentials w) (credentials w ≫= (heap w !!.))].
Proof.
  unfold openConnection. async_unfold. simpl.
  repeat answer; intros [= <-]; simpl. by rewrite <- !app_assoc.
Qed.

(** C4: a successful [openConnection()] without credentials hands exactly
    one message to the connection, the introduction (DeviceInfoMessage,
    waiting for its answer); no connection-state and no
    client-updates-config message is sent. *)
Theorem open_without_credentials_sends_introduction env w w' :
  openConnection env None w = (Resolved tt, w') →
  since w w' =
    [ConnOpen; ProtoLoad "/protos/DeviceInfoMessage.proto";
     ConnSend "DeviceInfoMessage" (introduction (pairingId w)) true 0
       (credentials w) (credentials w ≫= (heap w !!.))]
  ∧ sent_types (since w w') = ["DeviceInfoMessage"].
Proof.
  intros H. apply open_without_credentials_trace, since_app in H.
  by rewrite H.
Qed.

Lemma open_without_credentials_sends_introduction_witness :
  let w := sample_tv env_ok in
  let w' := (openConnection env_ok None w).2 in
  openConnection env_ok None w = (Resolved tt, w')
  ∧ since w w' =
      [ConnOpen; ProtoLoad "/protos/DeviceInfoMessage.proto";
       ConnSend "DeviceInfoMessage" (introduction (pairingId w)) true 0
         (credentials w) (credentials w ≫= (heap w !!.))]
  ∧ sent_types (since w w') = ["DeviceInfoMessage"].
Proof.
  assert (H : openConnection env_ok None (sample_tv env_ok)
              = (Resolved tt, (openConnection env_ok None (sample_tv env_ok)).2))
    by reflexivity.
  split; [exact H|].
  exact (open_without_credentials_sends_introduction env_ok _ _ H).
Defined.

Lemma open_with_credentials_trace env c cr w w' :
  heap w !! c = Some cr →
  openConnection env (Some c) w = (Resolved tt, w') →
  ∃ keys config,
    trace w' = trace w ++
      [ConnOpen; ProtoLoad "/protos/DeviceInfoMessage.proto";
       ConnSend "DeviceInfoMessage" (introduction (cred_pairingId cr)) true 0
         (credentials w) (credentials w ≫= (heap w !!.));
       VerifierVerify;
       Emit "debug" (ArgDebug (debug_keys keys));
       ProtoLoad "/protos/SetConnectionStateMessage.proto";
       ConnSend "SetConnectionStateMessage" (obj [("state", VEnum "Connected")])
         false 0 (Some c) (Some (with_keys cr keys));
       ProtoLoad "/protos/ClientUpdatesConfigMessage.proto";
       ConnSend "ClientUpdatesConfigMessage" config false 0 (Some c)
         (Some (with_keys cr keys))]
    ∧ verify_answer env (take (length (trace w) + 4) (trace w')) = Resolved keys
    ∧ heap w' !! c = Some (with_keys cr keys)
    ∧ credentials w' = Some c.
Proof.
  intros Hc. unfold openConnection. async_unfold. simpl. rewrite Hc. simpl.
  do 3 (answer; [|done]).
  destruct (verify_answer _ _) as [keys|] eqn:Hv; [|done].
  rewrite emit_debug. simpl. rewrite lookup_alter_eq, Hc. simpl.
  do 4 (answer; [|done]).
  intros [= <-]. simpl. rewrite <- !app_assoc. simpl.
  rewrite ?lookup_alter_eq, ?Hc. simpl.
  eexists keys, _. split_and!; [reflexivity| |done|done].
  rewrite take_app_add. simpl. rewrite <- Hv. f_equal. by rewrite <- !app_assoc.
Qed.

(** C3: a successful [openConnection(credentials)] hands to the connection
    the introduction, then runs the verification (a call to the verifier,
    not a typed message), then sends the connection-state message and the
    client-updates-config message, in this order and nothing else.  The
    keys the verifier resolved to are written into the caller's Credentials
    object after the verification and before the connection-state send:
    that send and the next one already see them. *)
Theorem open_with_credentials_sequence env c cr w w' :
  heap w !! c = Some cr →
  openConnection env (Some c) w = (Resolved tt, w') →
  ∃ keys config,
    since w w' =
      [ConnOpen; ProtoLoad "/protos/DeviceInfoMessage.proto";
       ConnSend "DeviceInfoMessage" (introduction (cred_pairingId cr)) true 0
         (credentials w) (credentials w ≫= (heap w !!.));
       VerifierVerify;
       Emit "debug" (ArgDebug (debug_keys keys));
       ProtoLoad "/protos/SetConnectionStateMessage.proto";
       ConnSend "SetConnectionStateMessage" (obj [("state", VEnum "Connected")])
         false 0 (Some c) (Some (with_keys cr keys));
       ProtoLoad "/protos/ClientUpdatesConfigMessage.proto";
       ConnSend "ClientUpdatesConfigMessage" config false 0 (Some c)
         (Some (with_keys cr keys))]
    ∧ sent_types (since w w') =
        ["DeviceInfoMessage"; "SetConnectionStateMessage";
         "ClientUpdatesConfigMessage"]
    ∧ verify_answer env (take (length (trace w) + 4) (trace w')) = Resolved keys
    ∧ heap w' !! c = Some (with_keys cr keys)
    ∧ credentials w' = Some c.
Proof.
  intros Hc H.
  destruct (open_with_credentials_trace _ _ _ _ _ Hc H) as (keys & config & Ht & ?).
  exists keys, config. apply since_app in Ht. by rewrite Ht.
Qed.

Lemma open_with_credentials_sequence_witness :
  let w := sample_tv env_ok in
  let w' := (openConnection env_ok (Some 7%nat) w).2 in
  heap w !! 7%nat = Some sample_credentials
  ∧ openConnection env_ok (Some 7%nat) w = (Resolved tt, w')
  ∧ ∃ keys config,
      since w w' =
        [ConnOpen; ProtoLoad "/protos/DeviceInfoMessage.proto";
         ConnSend "DeviceInfoMessage" (introduction "pair-1") true 0
           (credentials w) (credentials w ≫= (heap w !!.));
         VerifierVerify;
         Emit "debug" (ArgDebug (debug_keys keys));
         ProtoLoad "/protos/SetConnectionStateMessage.proto";
         ConnSend "SetConnectionStateMessage" (obj [("state", VEnum "Connected")])
           false 0 (Some 7%nat) (Some (with_keys sample_credentials keys));
         ProtoLoad "/protos/ClientUpdatesConfigMessage.proto";
         ConnSend "ClientUpdatesConfigMessage" config false 0 (Some 7%nat)
           (Some (with_keys sample_credentials keys))]
      ∧ sent_types (since w w') =
          ["DeviceInfoMessage"; "SetConnectionStateMessage";
           "ClientUpdatesConfigMessage"]
      ∧ verify_answer env_ok (take (length (trace w) + 4) (trace w')) = Resolved keys
      ∧ heap w' !! 7%nat = Some (with_keys sample_credentials keys)
      ∧ credentials w' = Some 7%nat.
Proof.
  assert (Hc : heap (sample_tv env_ok) !! 7%nat = Some sample_credentials)
    by reflexivity.
  assert (H : openConnection env_ok (Some 7%nat) (sample_tv env_ok)
              = (Resolved tt, (openConnection env_ok (Some 7%nat) (sample_tv env_ok)).2))
    by reflexivity.
  split; [exact Hc|]. split; [exact H|].
  exact (open_with_credentials_sequence env_ok _ _ _ _ Hc H).
Defined.

Lemma prefix_snoc_inv {A} (t l : list A) x :
  t `prefix_of` l ++ [x] → t `prefix_of` l ∨ t = l ++ [x].
Proof.
  intros [k Hk]. destruct (decide (k = [])) as [->|Hne].
  - right. by rewrite app_nil_r in Hk.
  - left. destruct (exists_last Hne) as (k' & y & ->).
    rewrite app_assoc in Hk. apply app_inj_tail in Hk as [-> _]. by exists k'.
Qed.

(** The calls a run of [openConnection] made, one by one, latest first. *)
Ltac each_call Hp :=
  repeat (apply prefix_snoc_inv in Hp as [Hp | ->]).

(** The answer the collaborator gave to the call that ends [t]. *)
Ltac its_answer Hr :=
  unfold rejection in Hr; rewrite ?last_snoc in Hr; cbn [rejected_with] in Hr;
  lazymatch type of Hr with
  | None = Some _ => discriminate Hr
  | rejected_with (?f ?e ?t) = _ =>
      match goal with
      | H : f e ?t' = _ |- _ =>
          change (f e t) with (f e t') in Hr; rewrite H in Hr
      end;
      cbn [rejected_with] in Hr
  end.

(** C2, as the code has it: of the calls [openConnection] makes, one
    whose answer is a rejection is the last one, and the call rejects with
    its error: no later step runs.  Conversely a call that rejects does so
    with the error of the step it made last.  The connection is not
    closed: the call makes no [connection.close()]. *)
Theorem open_rejects_with_originating_error env creds w :
  let r := (openConnection env creds w).1 in
  let w' := (openConnection env creds w).2 in
  (∀ t e, t `prefix_of` trace w' → length (trace w) < length t →
          rejection env t = Some e → r = Rejected e ∧ t = trace w')
  ∧ (∀ e, r = Rejected e →
          rejection env (trace w') = Some e
          ∧ since w w' ≠ [] ∧ ConnClose ∉ since w w').
Proof.
  cbv zeta. unfold openConnection. async_unfold. destruct creds as [c|]; simpl.
  - destruct (heap w !! c) eqn:Hc; simpl; repeat answer; (split;
      [intros t' err Hp Hlen Hr; each_call Hp;
       [apply prefix_length in Hp; lia|..];
       its_answer Hr; first [discriminate Hr | by injection Hr as <-]
      |intros err Herr; try discriminate Herr; injection Herr as <-;
       (split; [rejected_here | since_is; split; [done|not_among]])]).
  - repeat answer; (split;
      [intros t' err Hp Hlen Hr; each_call Hp;
       [apply prefix_length in Hp; lia|..];
       its_answer Hr; first [discriminate Hr | by injection Hr as <-]
      |intros err Herr; try discriminate Herr; injection Herr as <-;
       (split; [rejected_here | since_is; split; [done|not_among]])]).
Qed.

(** A verifier that rejects: the open rejects with its error. *)
Lemma open_rejects_with_originating_error_witness :
  let w := sample_tv env_unverified in
  let r := (openConnection env_unverified (Some 7%nat) w).1 in
  let w' := (openConnection env_unverified (Some 7%nat) w).2 in
  let t := trace w ++
    [ConnOpen; ProtoLoad "/protos/DeviceInfoMessage.proto";
     ConnSend "DeviceInfoMessage" (introduction "pair-1") true 0 None None;
     VerifierVerify] in
  t `prefix_of` trace w'
  ∧ length (trace w) < length t
  ∧ rejection env_unverified t = Some (JsError "verification failed")
  ∧ r = Rejected (JsError "verification failed")
  ∧ t = trace w'.
Proof.
  cbv zeta.
  assert (H1 : trace (sample_tv env_unverified) ++
                 [ConnOpen; ProtoLoad "/protos/DeviceInfoMessage.proto";
                  ConnSend "DeviceInfoMessage" (introduction "pair-1") true 0 None None;
                  VerifierVerify]
               `prefix_of`
               trace (openConnection env_unverified (Some 7%nat)
                        (sample_tv env_unverified)).2)
    by (exists []; vm_compute; reflexivity).
  assert (H2 : length (trace (sample_tv env_unverified))
               < length (trace (sample_tv env_unverified) ++
                   [ConnOpen; ProtoLoad "/protos/DeviceInfoMessage.proto";
                    ConnSend "DeviceInfoMessage" (introduction "pair-1") true 0
                      None None;
                    VerifierVerify]))
    by (vm_compute; lia).
  assert (H3 : rejection env_unverified
                 (trace (sample_tv env_unverified) ++
                    [ConnOpen; ProtoLoad "/protos/DeviceInfoMessage.proto";
                     ConnSend "DeviceInfoMessage" (introduction "pair-1") true 0
                       None None;
                     VerifierVerify])
               = Some (JsError "verification failed"))
    by (vm_compute; reflexivity).
  split; [exact H1|]. split; [exact H2|]. split; [exact H3|].
  exact (proj1 (open_rejects_with_originating_error env_unverified (Some 7%nat)
                  (sample_tv env_unverified)) _ _ H1 H2 H3).
Defined.

(** C2 as stated fails: with a verifier that rejects, [openConnection]
    rejects and the trace of the call holds no [connection.close()]. *)
Lemma open_failure_does_not_close :
  ¬ (∀ env creds w e w',
       openConnection env creds w = (Rejected e, w') → ConnClose ∈ since w w').
Proof.
  intros H.
  specialize (H env_unverified (Some 7%nat) (sample_tv env_unverified)
                (JsError "verification failed") _ eq_refl).
  vm_compute in H.
  repeat (apply elem_of_cons in H as [H|H]; [discriminate|]).
  by apply elem_of_nil in H.
Qed.

Ltac the_intro H :=
  repeat (apply elem_of_cons in H as [H|H];
          [first [discriminate | by injection H as -> -> -> -> ->]|]);
  by apply elem_of_nil in H.

Ltac intro_conj1 :=
  intros * Hin; revert Hin; since_is; intros Hin; the_intro Hin.

(** Branches in which the introduction has resolved. *)
Ltac introduced :=
  intros [= <- <-]; simpl;
  split; [intro_conj1|];
  split; [done|];
  split; [|done];
  intros Hn; destruct Hn; split;
  [ eexists; rewrite <- !app_assoc; simpl; reflexivity
  | rewrite <- !app_assoc in *; simpl in *;
    match goal with
    | H : send_answer _ ?t1 = Resolved _
      |- rejected_with (send_answer _ ?t2) = None =>
        change t2 with t1; by rewrite H
    end ].

(** Branches in which it has not. *)
Ltac not_introduced :=
  intros [= <- <-]; simpl;
  split; [intro_conj1|];
  split; [|done];
  intros [[k Hp] Hr]; simpl in Hp; rewrite <- !app_assoc in *; simpl in *;
  first [ apply app_inv_head in Hp; discriminate
        | match goal with
          | H : send_answer _ ?t1 = Rejected _ |- _ =>
              match type of Hr with
              | rejected_with (send_answer _ ?t2) = None =>
                  change t2 with t1 in Hr; by rewrite H in Hr
              end
          end ].

(** C10: the introduction of a call to [openConnection] is handed to the
    connection with the value the [credentials] field had before the call
    (none on a first open), not with the argument; the field takes the
    argument once the introduction send has resolved, and keeps its old
    value otherwise; so a successful call without credentials leaves the
    field undefined, whatever it held. *)
Theorem credentials_stored_after_introduction env creds w r w' :
  openConnection env creds w = (r, w') →
  let uniqueIdentifier :=
    match creds ≫= (heap w !!.) with
    | Some cr => cred_pairingId cr
    | None => pairingId w
    end in
  let t := trace w ++
    [ConnOpen; ProtoLoad "/protos/DeviceInfoMessage.proto";
     ConnSend "DeviceInfoMessage" (introduction uniqueIdentifier) true 0
       (credentials w) (credentials w ≫= (heap w !!.))] in
  (∀ b wt p c s,
     ConnSend "DeviceInfoMessage" b wt p c s ∈ since w w' →
     c = credentials w ∧ s = credentials w ≫= (heap w !!.))
  ∧ (t `prefix_of` trace w' ∧ rejected_with (send_answer env t) = None →
     credentials w' = creds)
  ∧ (¬ (t `prefix_of` trace w' ∧ rejected_with (send_answer env t) = None) →
     credentials w' = credentials w)
  ∧ (creds = None → r = Resolved tt → credentials w' = None).
Proof.
  cbv zeta. unfold openConnection. async_unfold.
  destruct creds as [c|]; simpl.
  - destruct (heap w !! c) eqn:Hc; simpl.
    + do 3 (answer; [|not_introduced]). repeat answer; introduced.
    + do 3 (answer; [|not_introduced]). repeat answer; introduced.
  - do 3 (answer; [|not_introduced]). introduced.
Qed.

(** A second open, without credentials, on an instance that was opened
    with credentials before. *)
Lemma credentials_stored_after_introduction_witness :
  let w := (openConnection env_ok (Some 7%nat) (sample_tv env_ok)).2 in
  let w' := (openConnection env_ok None w).2 in
  let uniqueIdentifier :=
    match @None nat ≫= (heap w !!.) with
    | Some cr => cred_pairingId cr
    | None => pairingId w
    end in
  let t := trace w ++
    [ConnOpen; ProtoLoad "/protos/DeviceInfoMessage.proto";
     ConnSend "DeviceInfoMessage" (introduction uniqueIdentifier) true 0
       (credentials w) (credentials w ≫= (heap w !!.))] in
  openConnection env_ok None w = (Resolved tt, w')
  ∧ (∀ b wt p c s,
       ConnSend "DeviceInfoMessage" b wt p c s ∈ since w w' →
       c = credentials w ∧ s = credentials w ≫= (heap w !!.))
  ∧ (t `prefix_of` trace w' ∧ rejected_with (send_answer env_ok t) = None →
     credentials w' = None)
  ∧ (¬ (t `prefix_of` trace w' ∧ rejected_with (send_answer env_ok t) = None) →
     credentials w' = credentials w)
  ∧ (@None nat = None → Resolved tt = Resolved tt → credentials w' = None).
Proof.
  assert (H : openConnection env_ok None
                (openConnection env_ok (Some 7%nat) (sample_tv env_ok)).2
              = (Resolved tt,
                 (openConnection env_ok None
                    (openConnection env_ok (Some 7%nat) (sample_tv env_ok)).2).2))
    by reflexivity.
  split; [exact H|].
  exact (credentials_stored_after_introduction env_ok _ _ _ _ H).
Defined.

(** ** Requests *)

Ltac next_answer :=
  match goal with
  | |- context [match open_answer ?e ?t with Resolved _ => _ | Rejected _ => _ end] =>
      destruct (open_answer e t) eqn:?
  | |- context [match load_answer ?e ?t with Resolved _ => _ | Rejected _ => _ end] =>
      destruct (load_answer e t) eqn:?
  | |- context [match send_answer ?e ?t with Resolved _ => _ | Rejected _ => _ end] =>
      destruct (send_answer e t) eqn:?
  | |- context [match verify_answer ?e ?t with Resolved _ => _ | Rejected _ => _ end] =>
      destruct (verify_answer e t) eqn:?
  end;
  cbn [fst snd].

(** A request built from options that carry an [artworkSize]. *)
Lemma requestPlaybackQueueWithWait_sized env options size wait w :
  options !! "artworkSize" = Some (VSize size) →
  let request :=
    ConnSend "PlaybackQueueRequestMessage"
      (delete "artworkSize"
         (<["artworkHeight" := VNum (height size)]>
            (<["artworkWidth" := VNum (width size)]>
               (<["requestID" := VStr (uuid_answer env (trace w ++ [Uuid]))]>
                  options))))
      wait 0 (credentials w) (credentials w ≫= (heap w !!.)) in
  requestPlaybackQueueWithWait env options wait w =
    match load_answer env (trace w ++ [Uuid; queue_load]) with
    | Rejected e => (Rejected e, record queue_load (record Uuid w))
    | Resolved _ =>
        (send_answer env (trace w ++ [Uuid; queue_load; request]),
         record request (record queue_load (record Uuid w)))
    end.
Proof.
  intros Hsize. unfold requestPlaybackQueueWithWait. async_unfold. simpl.
  rewrite Hsize, <- !app_assoc. simpl. destruct (load_answer _ _); done.
Qed.

(** [response?.payload?.playbackQueue?.contentItems?.[0]?.artworkData],
    link by link. *)
Lemma artwork_of_spec response data :
  artwork_of response = Some data ↔
  ∃ m p q item rest,
    response = Some m ∧ payload m = Some p ∧ playbackQueue p = Some q
    ∧ contentItems q = Some (item :: rest) ∧ artworkData item = Some data.
Proof.
  unfold artwork_of. split.
  - destruct response as [m|]; [|done]. simpl.
    destruct (payload m) as [p|] eqn:Hp; [|done]. simpl.
    destruct (playbackQueue p) as [q|] eqn:Hq; [|done]. simpl.
    destruct (contentItems q) as [[|item rest]|] eqn:Hi; [done| |done]. simpl.
    intros Hd. by exists m, p, q, item, rest.
  - intros (m & p & q & item & rest & -> & Hp & Hq & Hi & Hd). simpl.
    rewrite Hp. simpl. rewrite Hq. simpl. by rewrite Hi.
Qed.

(** C5, as the code has it: [requestArtwork(w, h)] loads the definition
    of the request first; if that fails the call rejects with the loader's
    error and no request is issued.  Otherwise it issues exactly one
    playback-queue request, waiting for the answer, whose payload is
    [artworkWidth = w], [artworkHeight = h] (400 each when omitted),
    [length = 1], [location = 0] and a fresh request id, and nothing else.
    The call resolves to some bytes exactly when the answer is a message
    with a payload, a playback queue and content items, the first of which
    carries these bytes as its artwork; in every other case of an answer it
    rejects with "No artwork available", an error of the call itself: the
    connection's own answer was a success. *)
Theorem request_artwork env width height w :
  ∃ body,
    body !! "artworkWidth" = Some (VNum (default 400%Z width))
    ∧ body !! "artworkHeight" = Some (VNum (default 400%Z height))
    ∧ body !! "length" = Some (VNum 1)
    ∧ body !! "location" = Some (VNum 0)
    ∧ body !! "requestID" = Some (VStr (uuid_answer env (trace w ++ [Uuid])))
    ∧ (∀ k, k ∉ ["artworkWidth"; "artworkHeight"; "length"; "location"; "requestID"] →
         body !! k = None)
    ∧ let request :=
        ConnSend "PlaybackQueueRequestMessage" body true 0 (credentials w)
          (credentials w ≫= (heap w !!.)) in
      let r := (requestArtwork env width height w).1 in
      let w' := (requestArtwork env width height w).2 in
      match load_answer env (trace w ++ [Uuid; queue_load]) with
      | Rejected e =>
          r = Rejected e ∧ since w w' = [Uuid; queue_load]
          ∧ sends (since w w') = []
      | Resolved _ =>
          since w w' = [Uuid; queue_load; request]
          ∧ sends (since w w') = [request]
          ∧ match send_answer env (trace w ++ [Uuid; queue_load; request]) with
            | Rejected e => r = Rejected e
            | Resolved response =>
                (∀ data,
                   r = Resolved data ↔
                   ∃ m p q item rest,
                     response = Some m ∧ payload m = Some p
                     ∧ playbackQueue p = Some q
                     ∧ contentItems q = Some (item :: rest)
                     ∧ artworkData item = Some data)
                ∧ ((∀ data, r ≠ Resolved data) →
                   r = Rejected (JsError "No artwork available")
                   ∧ rejection env (trace w') = None)
            end
      end.
Proof.
  set (body := delete "artworkSize"
            (<["artworkHeight" := VNum (default 400%Z height)]>
               (<["artworkWidth" := VNum (default 400%Z width)]>
                  (<["requestID" := VStr (uuid_answer env (trace w ++ [Uuid]))]>
                     (obj [("artworkSize",
                            VSize {| width := default 400%Z width;
                                     height := default 400%Z height |});
                           ("length", VNum 1); ("location", VNum 0)]))))).
  exists body. split_and!; [reflexivity..| |].
  { intros k Hk. rewrite !not_elem_of_cons in Hk.
    destruct Hk as (? & ? & ? & ? & ? & _). unfold body.
    destruct (decide (k = "artworkSize")) as [->|]; [by rewrite lookup_delete_eq|].
    rewrite lookup_delete_ne, !lookup_insert_ne by done.
    unfold obj. simpl. by rewrite !lookup_insert_ne, lookup_empty by done. }
  set (request := ConnSend "PlaybackQueueRequestMessage" body true 0
                    (credentials w) (credentials w ≫= (heap w !!.))).
  set (done_ := record request (record queue_load (record Uuid w))).
  assert (Hrun : requestArtwork env width height w =
    match load_answer env (trace w ++ [Uuid; queue_load]) with
    | Rejected e => (Rejected e, record queue_load (record Uuid w))
    | Resolved _ =>
        match send_answer env (trace w ++ [Uuid; queue_load; request]) with
        | Rejected e => (Rejected e, done_)
        | Resolved response =>
            (match artwork_of response with
             | Some data => Resolved data
             | None => Rejected (JsError "No artwork available")
             end, done_)
        end
    end).
  { unfold requestArtwork. async_unfold.
    rewrite (requestPlaybackQueueWithWait_sized _ _
               {| width := default 400%Z width; height := default 400%Z height |})
      by reflexivity.
    cbv zeta. destruct (load_answer _ _); [|done].
    change (send_answer env _) with
      (send_answer env (trace w ++ [Uuid; queue_load; request])).
    destruct (send_answer _ _) as [response|]; [|done].
    by destruct (artwork_of response). }
  cbv zeta. rewrite Hrun. clear Hrun.
  destruct (load_answer _ _); cbn [fst snd];
    [|split; [done|split; by since_is]].
  destruct (send_answer _ _) as [response|] eqn:Hs; cbn [fst snd].
  - split; [by since_is|]. split; [since_is; reflexivity|].
    destruct (artwork_of response) as [data|] eqn:Ha; cbn [fst snd].
    + split.
      * intros data'. rewrite <- artwork_of_spec, Ha.
        split; [by intros [= ->]|by intros [= ->]].
      * intros Hno. by destruct (Hno data).
    + split.
      * intros data'. rewrite <- artwork_of_spec, Ha. done.
      * intros _. split; [done|]. unfold rejection, done_. cbn [record trace].
        rewrite last_snoc. rewrite <- !app_assoc. cbn [app]. by rewrite Hs.
  - split; [by since_is|]. split; [since_is; reflexivity|done].
Qed.

(** C5 as stated fails: when the definition of the request cannot be
    loaded, [requestArtwork] issues no request at all. *)
Lemma request_artwork_needs_its_definition :
  ¬ (∀ env width height w,
       ∃ request, sends (since w (requestArtwork env width height w).2) = [request]).
Proof.
  intros H.
  destruct (H env_without_definitions (Some 640%Z) (Some 480%Z)
              (sample_tv env_without_definitions)) as [request Hr].
  vm_compute in Hr. discriminate Hr.
Qed.

Lemma sendKeyPress_run env usePage usage down w :
  let send :=
    ConnSend "SendHIDEventMessage"
      (obj [("hidEventData", VBuf (hidEventData env usePage usage down))])
      false 0 (credentials w) (credentials w ≫= (heap w !!.)) in
  sendKeyPress env usePage usage down w =
    match load_answer env (trace w ++ [hid_load]) with
    | Rejected e => (Rejected e, record hid_load w)
    | Resolved _ =>
        match send_answer env (trace w ++ [hid_load; send]) with
        | Rejected e => (Rejected e, record send (record hid_load w))
        | Resolved _ => (Resolved tt, record send (record hid_load w))
        end
    end.
Proof.
  unfold sendKeyPress. async_unfold. cbn [record trace credentials heap].
  rewrite <- !app_assoc. cbn [app].
  destruct (load_answer _ _); [|done]. by destruct (send_answer _ _).
Qed.

Lemma sendKeyCommand_table env k :
  ∃ usePage usage,
    sendKeyCommand env k = sendKeyPressAndRelease env usePage usage
    ∧ (k = Up → (usePage, usage) = (1, 0x8C)%Z)
    ∧ (k = Down → (usePage, usage) = (1, 0x8D)%Z)
    ∧ (k = Left → (usePage, usage) = (1, 0x8B)%Z)
    ∧ (k = Right → (usePage, usage) = (1, 0x8A)%Z)
    ∧ (k = Menu → (usePage, usage) = (1, 0x86)%Z)
    ∧ (k = Play → (usePage, usage) = (12, 0xB0)%Z)
    ∧ (k = Pause → (usePage, usage) = (12, 0xB1)%Z)
    ∧ (k = Next → (usePage, usage) = (12, 0xB5)%Z)
    ∧ (k = Previous → (usePage, usage) = (12, 0xB6)%Z)
    ∧ (k = Suspend → (usePage, usage) = (1, 0x82)%Z)
    ∧ (k = Select → (usePage, usage) = (1, 0x89)%Z).
Proof.
  destruct k; eexists _, _; (split; [reflexivity|]); split_and!; done.
Qed.

(** Rewrites with the answer of a call where the goal asks for it in
    another form. *)
Ltac same_answer :=
  match goal with
  | H : ?f ?e ?t = _
    |- context [match ?f ?e ?t' with Resolved _ => _ | Rejected _ => _ end] =>
      first [constr_eq t t' | change (f e t') with (f e t)]; rewrite H
  end.

(** C6, as the code has it: [sendKeyCommand] maps each key to its fixed
    usage page and usage code and sends a press, then a release, both
    non-waiting and both carrying this pair between the same fixed bytes.
    Each send follows the load of its definition, and each step runs only
    once the one before has resolved: the release is sent after the send
    of the press has resolved, and not at all when it was rejected.  When
    the two loads and the send of the press resolve, exactly the two
    messages are sent, and the call ends as the send of the release does;
    a step that fails ends the call with its error. *)
Theorem key_press_then_release env k w :
  ∃ usePage usage,
    sendKeyCommand env k = sendKeyPressAndRelease env usePage usage
    ∧ (k = Up → (usePage, usage) = (1, 0x8C)%Z)
    ∧ (k = Down → (usePage, usage) = (1, 0x8D)%Z)
    ∧ (k = Left → (usePage, usage) = (1, 0x8B)%Z)
    ∧ (k = Right → (usePage, usage) = (1, 0x8A)%Z)
    ∧ (k = Menu → (usePage, usage) = (1, 0x86)%Z)
    ∧ (k = Play → (usePage, usage) = (12, 0xB0)%Z)
    ∧ (k = Pause → (usePage, usage) = (12, 0xB1)%Z)
    ∧ (k = Next → (usePage, usage) = (12, 0xB5)%Z)
    ∧ (k = Previous → (usePage, usage) = (12, 0xB6)%Z)
    ∧ (k = Suspend → (usePage, usage) = (1, 0x82)%Z)
    ∧ (k = Select → (usePage, usage) = (1, 0x89)%Z)
    ∧ let data (down : bool) :=
        [x43; x89; x22; xcf; x08; x02; x00; x00;
         x00; x00; x00; x00; x00; x00; x00; x00; x01; x00; x00; x00;
         x00; x00; x00; x00; x02; x00; x00; x00; x20; x00; x00; x00;
         x03; x00; x00; x00; x01; x00; x00; x00; x00; x00; x00]
        ++ UInt16toBufferBE env usePage ++ UInt16toBufferBE env usage
        ++ UInt16toBufferBE env (if down then 1 else 0)
        ++ [x00; x00; x00; x00; x00; x00; x00; x01; x00; x00; x00] in
      let send (down : bool) :=
        ConnSend "SendHIDEventMessage" (obj [("hidEventData", VBuf (data down))])
          false 0 (credentials w) (credentials w ≫= (heap w !!.)) in
      let r := (sendKeyCommand env k w).1 in
      let w' := (sendKeyCommand env k w).2 in
      match load_answer env (trace w ++ [hid_load]) with
      | Rejected e => r = Rejected e ∧ since w w' = [hid_load]
      | Resolved _ =>
          match send_answer env (trace w ++ [hid_load; send true]) with
          | Rejected e => r = Rejected e ∧ since w w' = [hid_load; send true]
          | Resolved _ =>
              match load_answer env (trace w ++ [hid_load; send true; hid_load]) with
              | Rejected e =>
                  r = Rejected e ∧ since w w' = [hid_load; send true; hid_load]
              | Resolved _ =>
                  since w w' = [hid_load; send true; hid_load; send false]
                  ∧ sends (since w w') = [send true; send false]
                  ∧ match send_answer env
                            (trace w ++ [hid_load; send true; hid_load; send false])
                    with
                    | Rejected e => r = Rejected e
                    | Resolved _ => r = Resolved tt
                    end
              end
          end
      end.
Proof.
  destruct (sendKeyCommand_table env k) as (usePage & usage & Hk & Htable).
  exists usePage, usage. split; [done|].
  repeat (split; [tauto|]).
  cbv beta zeta. rewrite Hk. clear Hk Htable.
  assert (Hdata : ∀ down : bool,
            [x43; x89; x22; xcf; x08; x02; x00; x00;
             x00; x00; x00; x00; x00; x00; x00; x00; x01; x00; x00; x00;
             x00; x00; x00; x00; x02; x00; x00; x00; x20; x00; x00; x00;
             x03; x00; x00; x00; x01; x00; x00; x00; x00; x00; x00]
            ++ UInt16toBufferBE env usePage ++ UInt16toBufferBE env usage
            ++ UInt16toBufferBE env (if down then 1 else 0)
            ++ [x00; x00; x00; x00; x00; x00; x00; x01; x00; x00; x00]
            = hidEventData env usePage usage down).
  { intros down. unfold hidEventData. cbv zeta.
    rewrite <- !app_assoc. by destruct down. }
  rewrite !(Hdata true), !(Hdata false). clear Hdata.
  unfold sendKeyPressAndRelease. unfold mbind, Async_bind.
  rewrite sendKeyPress_run. cbv zeta.
  destruct (load_answer env (trace w ++ [hid_load])) eqn:H1; cbn [fst snd];
    [|split; [done|by since_is]].
  match goal with |- context [send_answer env (trace w ++ [hid_load; ?s])] =>
    destruct (send_answer env (trace w ++ [hid_load; s])) eqn:H2 end;
    repeat same_answer; cbn [fst snd]; [|split; [done|by since_is]].
  rewrite sendKeyPress_run. cbv zeta. cbn [record trace credentials heap].
  rewrite <- !app_assoc. cbn [app].
  match goal with |- context [load_answer env (trace w ++ [hid_load; ?s; hid_load])] =>
    destruct (load_answer env (trace w ++ [hid_load; s; hid_load])) eqn:H3 end;
    repeat same_answer; cbn [fst snd]; [|split; [done|by since_is]].
  match goal with
  | |- context [send_answer env (trace w ++ [hid_load; ?s; hid_load; ?s'])] =>
      destruct (send_answer env (trace w ++ [hid_load; s; hid_load; s'])) eqn:H4
  end; repeat same_answer; cbn [fst snd];
    (split; [by since_is|]; split; [since_is; reflexivity|done]).
Qed.

(** C6 as stated fails: when the connection rejects the press, the release
    is never sent, and the command has issued one send, not two. *)
Lemma key_release_needs_the_press :
  ¬ (∀ env k w,
       ∃ press release, sends (since w (sendKeyCommand env k w).2) = [press; release]).
Proof.
  intros H.
  destruct (H env_send_fails Up (sample_tv env_send_fails))
    as (press & release & Hs).
  vm_compute in Hs. discriminate Hs.
Qed.

(** With collaborators that answer, a key command sends both. *)
Example key_command_sends_both :
  let w := sample_tv env_ok in
  (sendKeyCommand env_ok Select w).1 = Resolved tt
  ∧ field "hidEventData" <$> sends (since w (sendKeyCommand env_ok Select w).2)
    = [Some (VBuf
         ([x43; x89; x22; xcf; x08; x02; x00; x00;
           x00; x00; x00; x00; x00; x00; x00; x00; x01; x00; x00; x00;
           x00; x00; x00; x00; x02; x00; x00; x00; x20; x00; x00; x00;
           x03; x00; x00; x00; x01; x00; x00; x00; x00; x00; x00]
          ++ [x00; x01; x00; x89; x00; x01]
          ++ [x00; x00; x00; x00; x00; x00; x00; x01; x00; x00; x00]));
       Some (VBuf
         ([x43; x89; x22; xcf; x08; x02; x00; x00;
           x00; x00; x00; x00; x00; x00; x00; x00; x01; x00; x00; x00;
           x00; x00; x00; x00; x02; x00; x00; x00; x20; x00; x00; x00;
           x03; x00; x00; x00; x01; x00; x00; x00; x00; x00; x00]
          ++ [x00; x01; x00; x89; x00; x00]
          ++ [x00; x00; x00; x00; x00; x00; x00; x01; x00; x00; x00]))].
Proof. split; vm_compute; reflexivity. Qed.

(** ** The repository's tests, replayed

    [src/test/appletv.spec.ts] opens a connection without credentials on a
    stubbed socket and looks at the messages written. *)

(** 'should send introduction' *)
Example test_should_send_introduction :
  let w := (openConnection env_ok None (sample_tv env_ok)).2 in
  length (sends (trace w)) = 1
  ∧ sent_types (trace w) = ["DeviceInfoMessage"].
Proof. split; vm_compute; reflexivity. Qed.

(** 'should request artwork' *)
Example test_should_request_artwork :
  let w := (openConnection env_ok None (sample_tv env_ok)).2 in
  let w' := (requestArtwork env_ok (Some 640%Z) (Some 480%Z) w).2 in
  length (sends (trace w')) = 2
  ∧ sent_types (trace w') = ["DeviceInfoMessage"; "PlaybackQueueRequestMessage"]
  ∧ field "artworkWidth" <$> sends (trace w') !! 1 = Some (Some (VNum 640))
  ∧ field "artworkHeight" <$> sends (trace w') !! 1 = Some (Some (VNum 480))
  ∧ field "length" <$> sends (trace w') !! 1 = Some (Some (VNum 1))
  ∧ field "location" <$> sends (trace w') !! 1 = Some (Some (VNum 0)).
Proof. split_and!; vm_compute; reflexivity. Qed.

(** [AppleTV.key] names every key of [AppleTV.Key]. *)
Example key_names :
  key <$> ["up"; "down"; "left"; "right"; "menu"; "play"; "pause"; "next";
           "previous"; "suspend"; "select"; "home"]
  = [Some Up; Some Down; Some Left; Some Right; Some Menu; Some Play;
     Some Pause; Some Next; Some Previous; Some Suspend; Some Select; None].
Proof. reflexivity. Qed.

(** ** Listeners and the polling timer *)

(** *** [remove_last] *)

Lemma remove_last_notin l ls : l ∉ ls → remove_last l ls = ls.
Proof.
  induction ls as [|x ls IH]; [done|]. intros Hn.
  apply not_elem_of_cons in Hn as [Hx Hls]. simpl.
  rewrite bool_decide_eq_false_2 by done. by rewrite bool_decide_eq_false_2.
Qed.

Lemma remove_last_length l ls :
  l ∈ ls → S (length (remove_last l ls)) = length ls.
Proof.
  induction ls as [|x ls IH]; [by intros ?%elem_of_nil|]. intros Hin. simpl.
  case_bool_decide as Hrest; simpl.
  - by rewrite IH.
  - case_bool_decide; [done|]. apply elem_of_cons in Hin as [->|]; done.
Qed.

Lemma remove_last_elem_of_ne l y ls : y ≠ l → y ∈ remove_last l ls ↔ y ∈ ls.
Proof.
  intros Hne. induction ls as [|x ls IH]; [done|]. simpl.
  case_bool_decide; [by rewrite !elem_of_cons, IH|].
  case_bool_decide; [|done]. subst. rewrite elem_of_cons.
  split; [by right|by intros [?|?]].
Qed.

Lemma remove_last_count_ne l y ls :
  y ≠ l → count_occ Listener_eq_dec (remove_last l ls) y = count_occ Listener_eq_dec ls y.
Proof.
  intros Hne. induction ls as [|x ls IH]; [done|]. simpl.
  case_bool_decide; simpl; [by rewrite IH|].
  case_bool_decide; [|done]. subst. by destruct (Listener_eq_dec l y); [congruence|].
Qed.

Lemma remove_last_count_eq l ls :
  count_occ Listener_eq_dec (remove_last l ls) l = pred (count_occ Listener_eq_dec ls l).
Proof.
  induction ls as [|x ls IH]; [done|]. simpl.
  case_bool_decide as Hin; simpl.
  - rewrite IH. destruct (Listener_eq_dec x l); [|done].
    apply list_elem_of_In, (count_occ_In Listener_eq_dec) in Hin. lia.
  - case_bool_decide; subst.
    + by destruct (Listener_eq_dec l l).
    + simpl. destruct (Listener_eq_dec x l); [done|].
      assert (count_occ Listener_eq_dec ls l = 0) as ->; [|done].
      apply count_occ_not_In. by rewrite <- list_elem_of_In.
Qed.

(** *** Listeners after an update of the registry *)

Lemma listeners_insert ev ev' ls w :
  listeners ev (set_events (<[ev' := ls]> (events w)) w)
  = if decide (ev' = ev) then ls else listeners ev w.
Proof.
  unfold listeners. simpl. rewrite lookup_insert. by case_decide.
Qed.

Lemma watched_spec ev :
  watched ev = true ↔ ev = "nowPlaying" ∨ ev = "supportedCommands".
Proof.
  unfold watched. rewrite orb_true_iff, !bool_decide_eq_true. done.
Qed.

Lemma watching_insert ev ls w :
  watching (set_events (<[ev := ls]> (events w)) w) + (if watched ev then length (listeners ev w) else 0)
  = watching w + (if watched ev then length ls else 0).
Proof.
  unfold watching, listenerCount. rewrite !listeners_insert.
  destruct (watched ev) eqn:Hw.
  - apply watched_spec in Hw as [-> | ->]; repeat case_decide; try done; lia.
  - repeat case_decide; subst; try done; lia.
Qed.

Lemma onNewListener_cases ev w :
  (queuePollTimer w = None ∧ watched ev = true ∧
   onNewListener ev w =
     set_queuePollTimer (Some (next_id w))
       (set_next_id (S (next_id w))
          (set_timers (<[next_id w := poll_timer]> (timers w)) w)))
  ∨ ((is_Some (queuePollTimer w) ∨ watched ev = false) ∧ onNewListener ev w = w).
Proof.
  unfold onNewListener. destruct (queuePollTimer w) eqn:Hq; simpl.
  - right. eauto.
  - destruct (watched ev); simpl; [left|right]; eauto.
Qed.

Lemma onRemoveListener_cases ev w :
  (∃ h, queuePollTimer w = Some h ∧ watched ev = true ∧ watching w = 0 ∧
        onRemoveListener ev w = set_queuePollTimer None (clearInterval h w))
  ∨ ((queuePollTimer w = None ∨ watched ev = false ∨ 0 < watching w)
     ∧ onRemoveListener ev w = w).
Proof.
  unfold onRemoveListener. destruct (queuePollTimer w) eqn:Hq; [|right; eauto].
  destruct (watched ev); [|right; eauto].
  fold (watching w). case_bool_decide as Hc.
  - left. eauto 10.
  - right. split; [|done]. right. right. lia.
Qed.

Lemma onNewListener_events ev w : events (onNewListener ev w) = events w.
Proof. by destruct (onNewListener_cases ev w) as [(_ & _ & ->) | (_ & ->)]. Qed.

Lemma listeners_events ev w w' : events w' = events w → listeners ev w' = listeners ev w.
Proof. unfold listeners. by intros ->. Qed.

Lemma listeners_lookup ev w : listeners ev w = default [] (events w !! ev).
Proof. done. Qed.

Lemma on_events ev l w :
  events (on ev l w) = <[ev := listeners ev w ++ [l]]> (events w).
Proof.
  unfold on. case_bool_decide; simpl; [|done].
  by rewrite onNewListener_events, (listeners_events _ w) by apply onNewListener_events.
Qed.

Lemma on_listeners ev ev' l w :
  listeners ev' (on ev l w)
  = if decide (ev = ev') then listeners ev w ++ [l] else listeners ev' w.
Proof.
  rewrite listeners_lookup, on_events, lookup_insert. by case_decide.
Qed.

Lemma on_watching ev l w :
  watching (on ev l w) = watching w + (if watched ev then 1 else 0).
Proof.
  unfold watching, listenerCount. rewrite !on_listeners.
  destruct (watched ev) eqn:Hw.
  - apply watched_spec in Hw as [-> | ->]; repeat case_decide; try done;
      rewrite length_app; simpl; lia.
  - repeat case_decide; subst; try done; lia.
Qed.

(** What [on] does besides registering the listener. *)
Lemma on_cases ev l w :
  NewListenerHook ∈ listeners "newListener" w →
  (queuePollTimer w = None ∧ watched ev = true ∧
   queuePollTimer (on ev l w) = Some (next_id w) ∧
   timers (on ev l w) = <[next_id w := poll_timer]> (timers w) ∧
   next_id (on ev l w) = S (next_id w) ∧
   promises (on ev l w) = promises w ∧ trace (on ev l w) = trace w)
  ∨ ((is_Some (queuePollTimer w) ∨ watched ev = false) ∧
     queuePollTimer (on ev l w) = queuePollTimer w ∧
     timers (on ev l w) = timers w ∧
     next_id (on ev l w) = next_id w ∧
     promises (on ev l w) = promises w ∧ trace (on ev l w) = trace w).
Proof.
  intros Hh. unfold on. rewrite bool_decide_eq_true_2 by done.
  destruct (onNewListener_cases ev w) as [(Hq & Hw & ->) | (Hq & ->)];
    [left|right]; simpl; eauto 10.
Qed.

Lemma wf_on ev l w :
  is_hook l = false →
  (∀ p ty, l = TypeWaiter p ty → p < next_id w) →
  wf w → wf (on ev l w).
Proof.
  intros Hl Hp Hwf.
  pose proof (wf_poll _ Hwf) as Hpoll.
  pose proof (on_watching ev l w) as Hcount.
  assert (Hin : ∀ ev' x, x ∈ listeners ev' w → x ∈ listeners ev' (on ev l w)).
  { intros ev' x Hx. rewrite on_listeners. case_decide; [subst|done].
    apply elem_of_app. by left. }
  assert (Hfrom : ∀ ev' x, x ∈ listeners ev' (on ev l w) → x ∈ listeners ev' w ∨ x = l).
  { intros ev' x. rewrite on_listeners. case_decide; [subst|by left].
    rewrite elem_of_app, list_elem_of_singleton. done. }
  destruct (on_cases ev l w (wf_new_hook _ Hwf))
    as [(Hq & Hw & Hq' & Ht' & Hn' & Hp' & _) | (Hq & Hq' & Ht' & Hn' & Hp' & _)];
    split; rewrite ?Hq', ?Ht', ?Hn', ?Hp'.
  - apply Hin, (wf_new_hook _ Hwf).
  - apply Hin, (wf_remove_hook _ Hwf).
  - rewrite lookup_insert_eq. split; [done|]. rewrite Hcount, Hw. lia.
  - intros h t. rewrite lookup_insert. case_decide; [by intros; subst|].
    intros Ht Hc. pose proof (wf_unique _ Hwf _ _ Ht Hc). congruence.
  - intros h [t Ht]. revert Ht. rewrite lookup_insert. case_decide; [lia|].
    intros Ht. assert (h < next_id w) by (apply (wf_timers_fresh _ Hwf); eauto). lia.
  - intros p Hi. pose proof (wf_promises_fresh _ Hwf _ Hi). lia.
  - intros ev' p ty [Hi | Heq]%Hfrom;
      [apply (wf_waiters_fresh _ Hwf) in Hi|apply eq_sym, Hp in Heq]; lia.
  - intros h t p ty. rewrite lookup_insert. case_decide; [by intros [= <-]|].
    intros Ht Hc. pose proof (wf_timeouts_fresh _ Hwf _ _ _ _ Ht Hc). lia.
  - apply Hin, (wf_new_hook _ Hwf).
  - apply Hin, (wf_remove_hook _ Hwf).
  - destruct (queuePollTimer w) as [h|] eqn:Hqq.
    + split; [apply Hpoll|]. rewrite Hcount. lia.
    + destruct Hq as [[? [=]] | Hw]. rewrite Hcount, Hw. lia.
  - apply (wf_unique _ Hwf).
  - apply (wf_timers_fresh _ Hwf).
  - apply (wf_promises_fresh _ Hwf).
  - intros ev' p ty [Hi | Heq]%Hfrom;
      [by apply (wf_waiters_fresh _ Hwf) in Hi|by apply eq_sym, Hp in Heq].
  - apply (wf_timeouts_fresh _ Hwf).
Qed.

Lemma wf_ext w w' : emitter_state w = emitter_state w' → wf w → wf w'.
Proof.
  destruct w, w'. unfold emitter_state. simpl. intros [= -> -> -> -> ->].
  intros [H1 H2 H3 H4 H5 H6 H7 H8]. by split.
Qed.

Lemma wf_record e w : wf w → wf (record e w).
Proof. by apply wf_ext. Qed.

Lemma onRemoveListener_events ev w : events (onRemoveListener ev w) = events w.
Proof.
  by destruct (onRemoveListener_cases ev w) as [(h & _ & _ & _ & ->) | (_ & ->)].
Qed.

Lemma removeListener_notin ev l w :
  l ∉ listeners ev w → removeListener ev l w = w.
Proof. intros Hn. unfold removeListener. by rewrite bool_decide_eq_false_2. Qed.

Lemma removeListener_listeners ev ev' l w :
  listeners ev' (removeListener ev l w)
  = if decide (ev = ev') then remove_last l (listeners ev w) else listeners ev' w.
Proof.
  unfold removeListener. case_bool_decide as Hin.
  - rewrite (listeners_events ev' (set_events (<[ev := remove_last l (listeners ev w)]> (events w)) w)).
    + rewrite listeners_lookup. simpl. rewrite lookup_insert. by case_decide.
    + case_bool_decide; [apply onRemoveListener_events|done].
  - case_decide; [subst|done]. by rewrite remove_last_notin.
Qed.

Lemma removeListener_watching ev l w :
  l ∈ listeners ev w →
  watching (removeListener ev l w) + (if watched ev then 1 else 0) = watching w.
Proof.
  intros Hin. apply remove_last_length in Hin.
  unfold watching, listenerCount. rewrite !removeListener_listeners.
  destruct (watched ev) eqn:Hw.
  - apply watched_spec in Hw as [-> | ->]; repeat case_decide; try done; lia.
  - repeat case_decide; subst; try done; lia.
Qed.

(** What [removeListener] does besides dropping a registered listener. *)
Lemma removeListener_cases ev l w :
  l ≠ RemoveListenerHook →
  RemoveListenerHook ∈ listeners "removeListener" w →
  l ∈ listeners ev w →
  let w' := removeListener ev l w in
  promises w' = promises w ∧ next_id w' = next_id w ∧ trace w' = trace w ∧
  ((∃ h, queuePollTimer w = Some h ∧ watched ev = true ∧ watching w' = 0 ∧
         queuePollTimer w' = None ∧ timers w' = delete h (timers w))
   ∨ ((queuePollTimer w = None ∨ watched ev = false ∨ 0 < watching w') ∧
      queuePollTimer w' = queuePollTimer w ∧ timers w' = timers w)).
Proof.
  intros Hl Hh Hin w'.
  assert (Hw' : watching w' =
                watching (set_events (<[ev := remove_last l (listeners ev w)]> (events w)) w)).
  { unfold watching, listenerCount, w'. rewrite !removeListener_listeners.
    rewrite !listeners_lookup. simpl. rewrite !lookup_insert.
    repeat case_decide; done. }
  revert Hw'. unfold w', removeListener. rewrite bool_decide_eq_true_2 by done.
  rewrite bool_decide_eq_true_2.
  2:{ rewrite listeners_lookup. simpl. rewrite lookup_insert. case_decide; [|done].
      subst. simpl. by apply remove_last_elem_of_ne. }
  intros Hw'.
  destruct (onRemoveListener_cases ev
              (set_events (<[ev := remove_last l (listeners ev w)]> (events w)) w))
    as [(h & Hq & Hw & Hc & Heq) | (Hq & Heq)]; rewrite Heq in *.
  - split_and!; try done. left. exists h. by rewrite Hw'.
  - split_and!; try done. right. split; [exact Hq|done].
Qed.

Lemma wf_removeListener ev l w :
  is_hook l = false → wf w → wf (removeListener ev l w).
Proof.
  intros Hl Hwf.
  destruct (decide (l ∈ listeners ev w)) as [Hin|Hin];
    [|by rewrite removeListener_notin].
  assert (Hkeep : ∀ ev' x, x ≠ l → x ∈ listeners ev' w →
                           x ∈ listeners ev' (removeListener ev l w)).
  { intros ev' x Hx Hi. rewrite removeListener_listeners. case_decide; [subst|done].
    by apply remove_last_elem_of_ne. }
  assert (Hfrom : ∀ ev' x, x ∈ listeners ev' (removeListener ev l w) →
                           x ∈ listeners ev' w).
  { intros ev' x. rewrite removeListener_listeners. case_decide; [subst|done].
    destruct (decide (x = l)) as [->|]; [done|]. by rewrite remove_last_elem_of_ne. }
  pose proof (wf_poll _ Hwf) as Hpoll.
  pose proof (removeListener_watching ev l w Hin) as Hcount.
  destruct (removeListener_cases ev l w) as (Hp' & Hn' & _ & Hcases);
    [by destruct l|apply (wf_remove_hook _ Hwf)|done|].
  destruct Hcases as [(h & Hq & Hw & Hc & Hq' & Ht') | (Hq & Hq' & Ht')];
    split; rewrite ?Hq', ?Ht', ?Hn', ?Hp'.
  - apply Hkeep; [by destruct l|apply (wf_new_hook _ Hwf)].
  - apply Hkeep; [by destruct l|apply (wf_remove_hook _ Hwf)].
  - done.
  - intros h' t. rewrite lookup_delete. case_decide; [done|].
    intros Ht Hcb. pose proof (wf_unique _ Hwf _ _ Ht Hcb). congruence.
  - intros h' [t Ht]. revert Ht. rewrite lookup_delete. case_decide; [done|].
    intros Ht. apply (wf_timers_fresh _ Hwf); eauto.
  - apply (wf_promises_fresh _ Hwf).
  - intros ev' p ty Hi%Hfrom. by apply (wf_waiters_fresh _ Hwf) in Hi.
  - intros h' t p ty. rewrite lookup_delete. case_decide; [done|].
    apply (wf_timeouts_fresh _ Hwf).
  - apply Hkeep; [by destruct l|apply (wf_new_hook _ Hwf)].
  - apply Hkeep; [by destruct l|apply (wf_remove_hook _ Hwf)].
  - destruct (queuePollTimer w) as [h|] eqn:Hqq.
    + split; [apply Hpoll|]. destruct Hq as [[=] | [Hw | ?]]; [|done].
      rewrite Hw in Hcount. lia.
    + lia.
  - apply (wf_unique _ Hwf).
  - apply (wf_timers_fresh _ Hwf).
  - apply (wf_promises_fresh _ Hwf).
  - intros ev' p ty Hi%Hfrom. by apply (wf_waiters_fresh _ Hwf) in Hi.
  - apply (wf_timeouts_fresh _ Hwf).
Qed.

(** *** Promises *)

Lemma settle_cases p s w :
  (promises w !! p = Some Pending ∧
   settle p s w = set_promises (<[p := s]> (promises w)) w)
  ∨ (promises w !! p ≠ Some Pending ∧ settle p s w = w).
Proof.
  unfold settle. destruct (promises w !! p) as [[]|]; eauto.
Qed.

Lemma settle_events p s w : events (settle p s w) = events w.
Proof. by destruct (settle_cases p s w) as [[_ ->] | [_ ->]]. Qed.

Lemma wf_settle p s w : wf w → wf (settle p s w).
Proof.
  intros Hwf. destruct (settle_cases p s w) as [[Hp ->] | [_ ->]]; [|done].
  destruct Hwf as [H1 H2 H3 H4 H5 H6 H7 H8]. split; try done. simpl.
  intros p' [x Hx]. revert Hx. rewrite lookup_insert. case_decide; [subst|]; eauto.
Qed.

(** *** Emitting *)

Lemma foldl_invoke_ind (P : World → Prop) a ls w :
  P w → (∀ l w', l ∈ ls → P w' → P (invoke l a w')) →
  P (foldl (λ w' l, invoke l a w') w ls).
Proof.
  revert w. induction ls as [|l ls IH]; intros w Hw Hstep; simpl; [done|].
  apply IH.
  - apply Hstep; [left|done].
  - intros l' w' Hl. apply Hstep. by right.
Qed.

Lemma wf_invoke l a w : wf w → wf (invoke l a w).
Proof.
  intros Hwf. destruct l, a; simpl; try done.
  case_bool_decide; [|done]. by apply wf_removeListener, wf_settle.
Qed.

Lemma wf_emit ev a w : wf w → wf (emit ev a w).
Proof.
  intros Hwf. unfold emit. apply foldl_invoke_ind; [by apply wf_record|].
  intros. by apply wf_invoke.
Qed.

(** *** Waiting *)

Lemma wf_start_timer t w :
  callback t ≠ PollQueue →
  (∀ p ty, callback t = WaitExpired p ty → p < next_id w) →
  wf w → wf (start_timer t w).2.
Proof.
  intros Ht Hp [H1 H2 H3 H4 H5 H6 H7 H8]. split; simpl; try done.
  - destruct (queuePollTimer w) as [h|]; [|done]. destruct H3 as [H3 ?].
    split; [|done]. rewrite lookup_insert_ne; [done|].
    assert (h < next_id w) by (apply H5; eauto). lia.
  - intros h t'. rewrite lookup_insert. case_decide; [by intros [= <-]|]. apply H4.
  - intros h [t' Ht']. revert Ht'. rewrite lookup_insert. case_decide; [lia|].
    intros Ht'. assert (h < next_id w) by (apply H5; eauto). lia.
  - intros p Hin. apply H6 in Hin. lia.
  - intros ev p ty Hin. apply H7 in Hin. lia.
  - intros h t' p ty. rewrite lookup_insert. case_decide.
    + intros [= <-] Hc. apply Hp in Hc. lia.
    + intros Ht' Hc. pose proof (H8 _ _ _ _ Ht' Hc). lia.
Qed.

Lemma wf_new_promise w :
  wf w →
  wf (set_next_id (S (next_id w))
        (set_promises (<[next_id w := Pending]> (promises w)) w)).
Proof.
  intros [H1 H2 H3 H4 H5 H6 H7 H8]. split; simpl; try done.
  - intros h Hin. apply H5 in Hin. lia.
  - intros p [x Hx]. revert Hx. rewrite lookup_insert. case_decide; [lia|].
    intros Hx. assert (p < next_id w) by (apply H6; eauto). lia.
  - intros ev p ty Hin. apply H7 in Hin. lia.
  - intros h t p ty Ht Hc. pose proof (H8 _ _ _ _ Ht Hc). lia.
Qed.

Lemma messageOfType_eq type timeout w :
  messageOfType type timeout w =
    (next_id w,
     on "message" (TypeWaiter (next_id w) type)
       (start_timer {| callback := WaitExpired (next_id w) type;
                       delay := default 5%Z timeout * 1000;
                       repeats := false |}
          (set_next_id (S (next_id w))
             (set_promises (<[next_id w := Pending]> (promises w)) w))).2).
Proof. done. Qed.

Lemma wf_messageOfType type timeout w :
  wf w → wf (messageOfType type timeout w).2.
Proof.
  intros Hwf. rewrite messageOfType_eq. cbn [snd].
  apply wf_on; [done|simpl; intros ?? [= -> ->]; lia|].
  apply wf_start_timer; [done|simpl; intros ?? [= -> ->]; lia|].
  by apply wf_new_promise.
Qed.

(** *** Methods that only talk to the collaborators *)

Lemma quiet_bind {A B} (m : Async A) (k : A → Async B) :
  quiet m → (∀ a, quiet (k a)) → quiet (m ≫= k).
Proof.
  intros Hm Hk w. unfold mbind, Async_bind. specialize (Hm w).
  destruct (m w) as [[a|e] w1]; simpl in *; [|done]. by rewrite Hk.
Qed.

Lemma quiet_resolve {A} (a : A) : quiet (resolve a).
Proof. done. Qed.

Lemma quiet_reject {A} e : quiet (@reject A e).
Proof. done. Qed.

Lemma quiet_exec f :
  (∀ w, emitter_state (f w) = emitter_state w) → quiet (exec f).
Proof. intros Hf w. apply Hf. Qed.

Lemma quiet_uuid env : quiet (uuid env).
Proof. done. Qed.

Lemma quiet_connection_open env : quiet (connection_open env).
Proof. done. Qed.

Lemma quiet_load env file : quiet (load env file).
Proof. done. Qed.

Lemma quiet_verifier_verify env : quiet (verifier_verify env).
Proof. done. Qed.

Lemma quiet_connection_send env t b wt p : quiet (connection_send env t b wt p).
Proof. done. Qed.

Lemma quiet_install_keys keys : quiet (install_keys keys).
Proof. intros w. unfold install_keys. by destruct (credentials w). Qed.

Lemma quiet_sendMessage env f t b wt p : quiet (sendMessage env f t b wt p).
Proof.
  apply quiet_bind; [apply quiet_load|]. intros _. apply quiet_connection_send.
Qed.

Lemma quiet_sendIntroduction env : quiet (sendIntroduction env).
Proof. intros w. apply quiet_sendMessage. Qed.

Lemma quiet_sendConnectionState env : quiet (sendConnectionState env).
Proof.
  apply quiet_bind; [apply quiet_load|]. intros _. apply quiet_connection_send.
Qed.

Lemma quiet_openConnection env creds : quiet (openConnection env creds).
Proof.
  unfold openConnection.
  apply quiet_bind; [apply quiet_exec; intros w; by destruct (creds ≫= _)|intros _].
  apply quiet_bind; [apply quiet_connection_open|intros _].
  apply quiet_bind; [apply quiet_sendIntroduction|intros _].
  apply quiet_bind; [by apply quiet_exec|intros _].
  apply quiet_bind; [|intros _; apply quiet_bind; [|intros _; apply quiet_resolve]].
  - destruct creds; [|apply quiet_resolve].
    apply quiet_bind; [apply quiet_verifier_verify|intros keys].
    apply quiet_bind; [apply quiet_install_keys|intros _].
    apply quiet_bind; [apply quiet_exec; intros w; by rewrite emit_debug|intros _].
    apply quiet_bind; [apply quiet_sendConnectionState|intros _; apply quiet_resolve].
  - destruct creds; [|apply quiet_resolve].
    apply quiet_bind; [apply quiet_sendMessage|intros _; apply quiet_resolve].
Qed.

Lemma quiet_requestPlaybackQueueWithWait env options wt :
  quiet (requestPlaybackQueueWithWait env options wt).
Proof.
  apply quiet_bind; [apply quiet_uuid|intros u]. apply quiet_sendMessage.
Qed.

Lemma quiet_requestArtwork env width height : quiet (requestArtwork env width height).
Proof.
  apply quiet_bind; [apply quiet_requestPlaybackQueueWithWait|intros r].
  destruct (artwork_of r); [apply quiet_resolve|apply quiet_reject].
Qed.

Lemma quiet_sendKeyPress env p u d : quiet (sendKeyPress env p u d).
Proof.
  apply quiet_bind; [apply quiet_sendMessage|intros _; apply quiet_resolve].
Qed.

Lemma quiet_sendKeyCommand env k : quiet (sendKeyCommand env k).
Proof.
  destruct k; (apply quiet_bind; [apply quiet_sendKeyPress|intros _; apply quiet_sendKeyPress]).
Qed.

Lemma pollQueue_emitter_state env w : emitter_state (pollQueue env w) = emitter_state w.
Proof.
  unfold pollQueue. destruct (isOpen env (trace w)); [|done].
  apply quiet_requestPlaybackQueueWithWait.
Qed.

(** *** Timers *)

Lemma wf_fire env h w : wf w → wf (fire env h w).
Proof.
  intros Hwf. unfold fire. destruct (timers w !! h) as [t|] eqn:Ht; [|done].
  destruct (callback t) as [|p ty] eqn:Hc; simpl.
  - pose proof (wf_unique _ Hwf _ _ Ht Hc) as Hq.
    pose proof (wf_poll _ Hwf) as Hpoll. rewrite Hq in Hpoll.
    destruct Hpoll as [Hpoll _]. rewrite Ht in Hpoll. injection Hpoll as ->.
    simpl. eapply wf_ext; [symmetry; apply pollQueue_emitter_state|done].
  - apply wf_removeListener; [done|]. apply wf_settle.
    destruct (repeats t); [done|].
    destruct Hwf as [H1 H2 H3 H4 H5 H6 H7 H8]. split; simpl; try done.
    + destruct (queuePollTimer w) as [hq|]; [|done]. destruct H3 as [H3 ?].
      split; [|done]. rewrite lookup_delete_ne; [done|]. intros <-.
      rewrite Ht in H3. injection H3 as ->. done.
    + intros h' t'. rewrite lookup_delete. case_decide; [done|]. apply H4.
    + intros h' [t' Ht']. revert Ht'. rewrite lookup_delete. case_decide; [done|]. eauto.
    + intros h' t' p' ty'. rewrite lookup_delete. case_decide; [done|]. apply H8.
Qed.

Lemma wf_onReceiveMessage env m w : wf w → wf (onReceiveMessage env m w).
Proof.
  intros Hwf. unfold onReceiveMessage.
  pose proof (wf_emit "message" (ArgMessage m) w Hwf) as Hwf1.
  case_bool_decide; [|done].
  destruct (payload m) as [p|]; [|by apply wf_emit].
  destruct (playbackQueue p), (supportedCommands p), (nowPlayingInfo p);
    repeat apply wf_emit; done.
Qed.

Lemma new_AppleTV_listeners env objects ev :
  listeners ev (new_AppleTV env objects)
  = if decide (ev = "newListener") then [NewListenerHook]
    else if decide (ev = "removeListener") then [RemoveListenerHook]
    else [].
Proof.
  unfold new_AppleTV, setupListeners. rewrite !on_listeners.
  repeat case_decide; subst; done.
Qed.

Lemma new_AppleTV_rest env objects :
  let w := new_AppleTV env objects in
  queuePollTimer w = None ∧ timers w = ∅ ∧ promises w = ∅ ∧ next_id w = 0.
Proof. done. Qed.

Lemma wf_new_AppleTV env objects : wf (new_AppleTV env objects).
Proof.
  destruct (new_AppleTV_rest env objects) as (Hq & Ht & Hp & Hn).
  split; rewrite ?Hq, ?Ht, ?Hp, ?Hn.
  - rewrite new_AppleTV_listeners. simpl. by left.
  - rewrite new_AppleTV_listeners. simpl. by left.
  - unfold watching, listenerCount. by rewrite !new_AppleTV_listeners.
  - intros h t. by rewrite lookup_empty.
  - intros h [t Hh]. by rewrite lookup_empty in Hh.
  - intros h [t Hh]. by rewrite lookup_empty in Hh.
  - intros ev p ty. rewrite new_AppleTV_listeners.
    repeat case_decide; rewrite ?list_elem_of_singleton, ?elem_of_nil; done.
  - intros h t p ty. by rewrite lookup_empty.
Qed.

Lemma wf_step env w op : wf w → wf (step env w op).
Proof.
  intros Hwf. destruct op; simpl.
  - by apply wf_on.
  - by apply wf_removeListener.
  - by apply wf_messageOfType.
  - by apply wf_onReceiveMessage.
  - by apply wf_fire.
  - eapply wf_ext; [symmetry; apply quiet_openConnection|done].
  - by apply wf_record.
  - eapply wf_ext; [symmetry; apply quiet_requestPlaybackQueueWithWait|done].
  - eapply wf_ext; [symmetry; apply quiet_requestArtwork|done].
  - eapply wf_ext; [symmetry; apply quiet_sendKeyCommand|done].
Qed.

Lemma wf_run env ops w : wf w → wf (run env ops w).
Proof.
  revert w. induction ops as [|op ops IH]; intros w Hwf; simpl; [done|].
  by apply IH, wf_step.
Qed.

(** C1: on every instance, after any sequence of calls, inbound messages
    and timers, the polling task exists exactly while a 'nowPlaying' or
    'supportedCommands' listener is registered, and it is the one the
    engine holds.  Registering the first watched listener starts one task
    and no other; registering another starts none; removing one while
    another remains leaves the task; removing the last one clears it. *)
Theorem polling_follows_listeners env objects ops :
  let w := run env ops (new_AppleTV env objects) in
  (is_Some (queuePollTimer w) ↔ 0 < watching w)
  ∧ (∀ h, polling w h ↔ queuePollTimer w = Some h)
  ∧ (∀ ev id, watched ev = true →
       let w' := on ev (External id) w in
       watching w' = S (watching w)
       ∧ if decide (watching w = 0)
         then ∃ h, timers w !! h = None
                   ∧ timers w' = <[h := poll_timer]> (timers w)
                   ∧ queuePollTimer w' = Some h
         else timers w' = timers w ∧ queuePollTimer w' = queuePollTimer w)
  ∧ (∀ ev id, watched ev = true → External id ∈ listeners ev w →
       let w' := removeListener ev (External id) w in
       S (watching w') = watching w
       ∧ if decide (watching w' = 0)
         then ∃ h, queuePollTimer w = Some h
                   ∧ timers w' = delete h (timers w)
                   ∧ queuePollTimer w' = None
         else timers w' = timers w ∧ queuePollTimer w' = queuePollTimer w).
Proof.
  intros w. assert (Hwf : wf w) by apply wf_run, wf_new_AppleTV.
  pose proof (wf_poll _ Hwf) as Hpoll.
  split_and!.
  - destruct (queuePollTimer w) as [h|].
    + split; [intros _; apply Hpoll|by eauto].
    + split; [by intros [? [=]]|lia].
  - intros h. split.
    + intros (t & Ht & Hc). by apply (wf_unique _ Hwf _ t).
    + intros Hq. rewrite Hq in Hpoll. exists poll_timer. split; [apply Hpoll|done].
  - intros ev id Hw w'. unfold w'. split; [rewrite on_watching, Hw; lia|].
    destruct (on_cases ev (External id) w (wf_new_hook _ Hwf))
      as [(Hq & _ & Hq' & Ht' & _) | (Hq & Hq' & Ht' & _)].
    + rewrite Hq in Hpoll. rewrite decide_True by done.
      exists (next_id w). split_and!; [|done..].
      destruct (timers w !! next_id w) eqn:Hn; [|done].
      assert (next_id w < next_id w) by (apply (wf_timers_fresh _ Hwf); eauto). lia.
    + destruct Hq as [[h Hq] | Hq]; [|congruence].
      rewrite Hq in Hpoll. rewrite decide_False by lia. done.
  - intros ev id Hw Hin w'. unfold w'.
    pose proof (removeListener_watching ev (External id) w Hin) as Hcount.
    rewrite Hw in Hcount. split; [lia|].
    destruct (removeListener_cases ev (External id) w) as (_ & _ & _ & Hcases);
      [done|apply (wf_remove_hook _ Hwf)|done|].
    destruct Hcases as [(h & Hq & _ & Hc & Hq' & Ht') | (Hq & Hq' & Ht')].
    + rewrite decide_True by done. eauto.
    + destruct Hq as [Hq | [Hq | Hq]]; [|congruence|].
      * rewrite Hq in Hpoll. lia.
      * rewrite decide_False by lia. done.
Qed.

(** ** Inbound dispatch and the polling tick *)

Lemma onRemoveListener_trace ev w : trace (onRemoveListener ev w) = trace w.
Proof.
  by destruct (onRemoveListener_cases ev w) as [(h & _ & _ & _ & ->) | (_ & ->)].
Qed.

Lemma removeListener_trace ev l w : trace (removeListener ev l w) = trace w.
Proof.
  unfold removeListener. case_bool_decide; [|done].
  case_bool_decide; [|done]. by rewrite onRemoveListener_trace.
Qed.

Lemma settle_trace p s w : trace (settle p s w) = trace w.
Proof. by destruct (settle_cases p s w) as [[_ ->] | [_ ->]]. Qed.

Lemma invoke_trace l a w : trace (invoke l a w) = trace w.
Proof.
  destruct l as [id|p ty| |], a; simpl; try done.
  case_bool_decide; [|done]. by rewrite removeListener_trace, settle_trace.
Qed.

Lemma emit_trace ev a w : trace (emit ev a w) = trace w ++ [Emit ev a].
Proof.
  unfold emit. apply foldl_invoke_ind; [done|].
  intros l w' _ <-. apply invoke_trace.
Qed.

(** C7: every inbound message is emitted again as 'message'.  A message
    of the state type is then taken apart: without a payload, one
    'nowPlaying' with a null value and nothing else; with a payload,
    'nowPlaying', 'supportedCommands' and 'playbackQueue', in this order,
    each exactly when its part is present in this message.  Other types
    emit nothing more. *)
Theorem inbound_dispatch env m w :
  since w (onReceiveMessage env m w) =
    Emit "message" (ArgMessage m) ::
    (if bool_decide (msg_type m = SetStateMessage env) then
       match payload m with
       | None => [Emit "nowPlaying" (ArgNowPlaying None)]
       | Some p =>
           (match nowPlayingInfo p with
            | Some _ => [Emit "nowPlaying" (ArgNowPlaying (Some {| npi_of := p |}))]
            | None => []
            end)
           ++ (match supportedCommands p with
               | Some sc =>
                   [Emit "supportedCommands"
                      (ArgSupportedCommands
                         (to_SupportedCommand <$> default [] (supportedCommandsList sc)))]
               | None => []
               end)
           ++ (match playbackQueue p with
               | Some q => [Emit "playbackQueue" (ArgPlaybackQueue q)]
               | None => []
               end)
       end
     else []).
Proof.
  apply since_app. unfold onReceiveMessage.
  case_bool_decide; [|apply emit_trace].
  destruct (payload m) as [p|]; [|by rewrite !emit_trace, <- app_assoc].
  destruct (nowPlayingInfo p), (supportedCommands p), (playbackQueue p);
    rewrite ?emit_trace, <- ?app_assoc; done.
Qed.



(** ** Waiting for a message of a type *)

(** *** More projections *)

Lemma onRemoveListener_promises ev w : promises (onRemoveListener ev w) = promises w.
Proof.
  by destruct (onRemoveListener_cases ev w) as [(h & _ & _ & _ & ->) | (_ & ->)].
Qed.

Lemma onRemoveListener_next_id ev w : next_id (onRemoveListener ev w) = next_id w.
Proof.
  by destruct (onRemoveListener_cases ev w) as [(h & _ & _ & _ & ->) | (_ & ->)].
Qed.

Lemma removeListener_promises ev l w : promises (removeListener ev l w) = promises w.
Proof.
  unfold removeListener. case_bool_decide; [|done].
  case_bool_decide; [|done]. by rewrite onRemoveListener_promises.
Qed.

Lemma removeListener_next_id ev l w : next_id (removeListener ev l w) = next_id w.
Proof.
  unfold removeListener. case_bool_decide; [|done].
  case_bool_decide; [|done]. by rewrite onRemoveListener_next_id.
Qed.

Lemma removeListener_unwatched ev l w :
  watched ev = false →
  timers (removeListener ev l w) = timers w
  ∧ queuePollTimer (removeListener ev l w) = queuePollTimer w.
Proof.
  intros Hw. unfold removeListener. case_bool_decide; [|done].
  case_bool_decide; [|done].
  match goal with |- context [onRemoveListener ev ?w1] =>
    destruct (onRemoveListener_cases ev w1) as [(h & _ & Hw' & _) | (_ & ->)] end;
    [congruence|done].
Qed.

Lemma settle_lookup_ne p p' s w :
  p' ≠ p → promises (settle p' s w) !! p = promises w !! p.
Proof.
  intros Hne. destruct (settle_cases p' s w) as [[_ ->] | [_ ->]]; [|done].
  simpl. by rewrite lookup_insert_ne.
Qed.

Lemma settle_rest p s w :
  events (settle p s w) = events w ∧ timers (settle p s w) = timers w
  ∧ next_id (settle p s w) = next_id w
  ∧ queuePollTimer (settle p s w) = queuePollTimer w.
Proof. by destruct (settle_cases p s w) as [[_ ->] | [_ ->]]. Qed.

(** *** A wait and its promise *)

Lemma emitter_state_eq w w' :
  emitter_state w = emitter_state w' →
  queuePollTimer w = queuePollTimer w' ∧ events w = events w'
  ∧ timers w = timers w' ∧ promises w = promises w' ∧ next_id w = next_id w'.
Proof. unfold emitter_state. by intros [= -> -> -> -> ->]. Qed.

Lemma tracked_ext p ty w w' :
  emitter_state w = emitter_state w' → tracked p ty w → tracked p ty w'.
Proof.
  intros He [H1 H2 H3].
  destruct (emitter_state_eq _ _ He) as (_ & Hev & _ & _ & Hn).
  split; [by eapply wf_ext|by rewrite <- Hn|].
  intros ev ty'. rewrite (listeners_events ev w) by done. apply H3.
Qed.

Lemma tracked_on p ty ev l w :
  is_hook l = false →
  (∀ p' ty', l = TypeWaiter p' ty' → p' < next_id w ∧ (p' = p → ty' = ty)) →
  tracked p ty w → tracked p ty (on ev l w).
Proof.
  intros Hl Hp [H1 H2 H3]. split.
  - apply wf_on; [done| |done]. intros p' ty' Heq. by apply Hp in Heq as [? _].
  - destruct (on_cases ev l w (wf_new_hook _ H1))
      as [(_ & _ & _ & _ & -> & _) | (_ & _ & _ & -> & _)]; lia.
  - intros ev' ty'. rewrite on_listeners. case_decide; [subst|apply H3].
    rewrite elem_of_app, list_elem_of_singleton. intros [Hin | Heq]; [by eapply H3|].
    symmetry in Heq. by apply Hp in Heq as [_ ->].
Qed.

Lemma tracked_removeListener p ty ev l w :
  is_hook l = false → tracked p ty w → tracked p ty (removeListener ev l w).
Proof.
  intros Hl [H1 H2 H3]. split.
  - by apply wf_removeListener.
  - by rewrite removeListener_next_id.
  - intros ev' ty'. rewrite removeListener_listeners. case_decide; [subst|apply H3].
    destruct (decide (TypeWaiter p ty' = l)) as [<-|Hne].
    + destruct (decide (TypeWaiter p ty' ∈ listeners ev' w)) as [Hin|Hin];
        [intros _; by eapply H3|].
      by rewrite remove_last_notin.
    + rewrite remove_last_elem_of_ne by done. apply H3.
Qed.

Lemma tracked_settle p ty p' s w : tracked p ty w → tracked p ty (settle p' s w).
Proof.
  intros [H1 H2 H3]. destruct (settle_rest p' s w) as (He & _ & Hn & _). split.
  - by apply wf_settle.
  - by rewrite Hn.
  - intros ev ty'. rewrite (listeners_events ev w) by done. apply H3.
Qed.

Lemma tracked_invoke p ty l a w : tracked p ty w → tracked p ty (invoke l a w).
Proof.
  intros Ht. destruct l, a; simpl; try done.
  case_bool_decide; [|done]. by apply tracked_removeListener, tracked_settle.
Qed.

Lemma tracked_emit p ty ev a w : tracked p ty w → tracked p ty (emit ev a w).
Proof.
  intros Ht. unfold emit. apply foldl_invoke_ind.
  - by apply (tracked_ext p ty w).
  - intros. by apply tracked_invoke.
Qed.

Lemma wf_delete_timer h t w :
  timers w !! h = Some t → callback t ≠ PollQueue →
  wf w → wf (set_timers (delete h (timers w)) w).
Proof.
  intros Ht Hc [H1 H2 H3 H4 H5 H6 H7 H8]. split; simpl; try done.
  - destruct (queuePollTimer w) as [hq|]; [|done]. destruct H3 as [H3 ?].
    split; [|done]. rewrite lookup_delete_ne; [done|]. intros <-.
    rewrite Ht in H3. by injection H3 as ->.
  - intros h' t'. rewrite lookup_delete. case_decide; [done|]. apply H4.
  - intros h' [t' Ht']. revert Ht'. rewrite lookup_delete. case_decide; [done|]. eauto.
  - intros h' t' p' ty'. rewrite lookup_delete. case_decide; [done|]. apply H8.
Qed.

Lemma tracked_delete_timer p ty h t w :
  timers w !! h = Some t → callback t ≠ PollQueue →
  tracked p ty w → tracked p ty (set_timers (delete h (timers w)) w).
Proof.
  intros Ht Hc [H1 H2 H3]. split; [by eapply wf_delete_timer|done|done].
Qed.

Lemma tracked_fire env p ty h w : tracked p ty w → tracked p ty (fire env h w).
Proof.
  intros Ht. unfold fire. destruct (timers w !! h) as [t|] eqn:Hh; [|done].
  destruct (callback t) as [|p' ty'] eqn:Hc; simpl.
  - pose proof (wf_unique _ (tracked_wf _ _ _ Ht) _ _ Hh Hc) as Hq.
    pose proof (wf_poll _ (tracked_wf _ _ _ Ht)) as Hpoll. rewrite Hq in Hpoll.
    destruct Hpoll as [Hpoll _]. rewrite Hh in Hpoll. injection Hpoll as ->.
    simpl. eapply tracked_ext; [symmetry; apply pollQueue_emitter_state|done].
  - apply tracked_removeListener; [done|]. apply tracked_settle.
    destruct (repeats t); [done|]. eapply tracked_delete_timer; [done| |done].
    by rewrite Hc.
Qed.

Lemma tracked_messageOfType p ty type timeout w :
  tracked p ty w → tracked p ty (messageOfType type timeout w).2.
Proof.
  intros [H1 H2 H3]. rewrite messageOfType_eq. cbn [snd].
  apply tracked_on; [done|simpl; intros ?? [= <- <-]; split; lia|].
  split.
  - apply wf_start_timer; [done|simpl; intros ?? [= -> ->]; lia|].
    by apply wf_new_promise.
  - simpl. lia.
  - done.
Qed.

Lemma tracked_onReceiveMessage env p ty m w :
  tracked p ty w → tracked p ty (onReceiveMessage env m w).
Proof.
  intros Ht. unfold onReceiveMessage.
  pose proof (tracked_emit p ty "message" (ArgMessage m) w Ht) as Ht1.
  case_bool_decide; [|done].
  destruct (payload m) as [pl|]; [|by apply tracked_emit].
  destruct (playbackQueue pl), (supportedCommands pl), (nowPlayingInfo pl);
    repeat apply tracked_emit; done.
Qed.

Lemma tracked_step env p ty w op : tracked p ty w → tracked p ty (step env w op).
Proof.
  intros Ht. destruct op; simpl.
  - by apply tracked_on.
  - by apply tracked_removeListener.
  - by apply tracked_messageOfType.
  - by apply tracked_onReceiveMessage.
  - by apply tracked_fire.
  - eapply tracked_ext; [symmetry; apply quiet_openConnection|done].
  - by apply (tracked_ext p ty w).
  - eapply tracked_ext; [symmetry; apply quiet_requestPlaybackQueueWithWait|done].
  - eapply tracked_ext; [symmetry; apply quiet_requestArtwork|done].
  - eapply tracked_ext; [symmetry; apply quiet_sendKeyCommand|done].
Qed.

(** *** How a promise evolves *)

Lemma promise_invoke p ty m l w :
  (∀ ty', l = TypeWaiter p ty' → ty' = ty) →
  promises (invoke l (ArgMessage m) w) !! p = promises w !! p
  ∨ (msg_type m = ty ∧ promises (invoke l (ArgMessage m) w) !! p = Some (Fulfilled m)).
Proof.
  intros Hty. destruct l as [id|p' ty'| |]; simpl; try by left.
  case_bool_decide as Hm; [|by left]. rewrite removeListener_promises.
  destruct (decide (p' = p)) as [->|Hne]; [|left; by apply settle_lookup_ne].
  rewrite (Hty ty' eq_refl) in Hm.
  destruct (settle_cases p (Fulfilled m) w) as [[_ ->] | [_ ->]]; [right|by left].
  simpl. by rewrite lookup_insert_eq.
Qed.

Lemma promise_emit_message p ty m w :
  tracked p ty w →
  promises (emit "message" (ArgMessage m) w) !! p = promises w !! p
  ∨ (msg_type m = ty
     ∧ promises (emit "message" (ArgMessage m) w) !! p = Some (Fulfilled m)).
Proof.
  intros Ht. unfold emit.
  apply (foldl_invoke_ind
           (λ w', promises w' !! p = promises w !! p
                  ∨ (msg_type m = ty ∧ promises w' !! p = Some (Fulfilled m))));
    [by left|].
  intros l w' Hl IH.
  destruct (promise_invoke p ty m l w') as [Heq | [? Heq]]; rewrite ?Heq; eauto.
  intros ty' ->. by eapply (tracked_type _ _ _ Ht).
Qed.

Lemma onReceiveMessage_after env m w :
  let w1 := emit "message" (ArgMessage m) w in
  emitter_state (onReceiveMessage env m w) = emitter_state w1.
Proof.
  unfold onReceiveMessage. cbv zeta.
  case_bool_decide; [|done].
  destruct (payload m) as [pl|]; [|by rewrite emit_other].
  destruct (playbackQueue pl), (supportedCommands pl), (nowPlayingInfo pl);
    rewrite ?emit_other by done; done.
Qed.

Lemma promise_onReceiveMessage env p ty m w :
  tracked p ty w →
  promises (onReceiveMessage env m w) !! p = promises w !! p
  ∨ (msg_type m = ty
     ∧ promises (onReceiveMessage env m w) !! p = Some (Fulfilled m)).
Proof.
  intros Ht.
  destruct (emitter_state_eq _ _ (onReceiveMessage_after env m w)) as (_ & _ & _ & -> & _).
  by apply promise_emit_message.
Qed.

Lemma promise_fire env p h w :
  promises (fire env h w) !! p = promises w !! p
  ∨ ∃ e, promises (fire env h w) !! p = Some (Failed e).
Proof.
  unfold fire. destruct (timers w !! h) as [t|]; [|by left].
  destruct (callback t) as [|p' ty']; simpl.
  - left. by destruct (emitter_state_eq _ _ (pollQueue_emitter_state env
                        (if repeats t then w else set_timers (delete h (timers w)) w)))
            as (_ & _ & _ & -> & _); destruct (repeats t).
  - rewrite removeListener_promises.
    match goal with |- context [settle p' ?s ?w1] =>
      destruct (settle_cases p' s w1) as [[_ ->] | [_ ->]] end.
    + simpl. rewrite lookup_insert. case_decide; [right; eauto|left].
      by destruct (repeats t).
    + left. by destruct (repeats t).
Qed.

Lemma promise_messageOfType p type timeout w :
  wf w → p < next_id w →
  promises (messageOfType type timeout w).2 !! p = promises w !! p.
Proof.
  intros Hwf Hp. rewrite messageOfType_eq. cbn [snd].
  match goal with |- context [on ?ev ?l ?w1] =>
    destruct (on_cases ev l w1) as [(_ & _ & _ & _ & _ & -> & _) | (_ & _ & _ & _ & -> & _)] end.
  - rewrite listeners_lookup. simpl. apply (wf_new_hook _ Hwf).
  - simpl. rewrite lookup_insert_ne; [done|lia].
  - simpl. rewrite lookup_insert_ne; [done|lia].
Qed.

Lemma promise_step env p ty w op :
  tracked p ty w →
  promises (step env w op) !! p = promises w !! p
  ∨ (∃ m, op = Receive m ∧ msg_type m = ty
          ∧ promises (step env w op) !! p = Some (Fulfilled m))
  ∨ (∃ e, promises (step env w op) !! p = Some (Failed e)).
Proof.
  intros Ht. pose proof (tracked_wf _ _ _ Ht) as Hwf.
  destruct op as [ev id|ev id|type timeout|m|h|creds| |options|width height|k];
    cbn [step].
  - left. by destruct (on_cases ev (External id) w (wf_new_hook _ Hwf))
            as [(_ & _ & _ & _ & _ & -> & _) | (_ & _ & _ & _ & -> & _)].
  - left. by rewrite removeListener_promises.
  - left. apply promise_messageOfType; [done|apply (tracked_lt _ _ _ Ht)].
  - destruct (promise_onReceiveMessage env p ty m w Ht) as [-> | [? ->]]; eauto 10.
  - destruct (promise_fire env p h w) as [-> | [e ->]]; eauto.
  - left. by destruct (emitter_state_eq _ _ (quiet_openConnection env creds w))
            as (_ & _ & _ & -> & _).
  - by left.
  - left. unfold requestPlaybackQueue.
    by destruct (emitter_state_eq _ _
                   (quiet_requestPlaybackQueueWithWait env options true w))
            as (_ & _ & _ & -> & _).
  - left. by destruct (emitter_state_eq _ _ (quiet_requestArtwork env width height w))
            as (_ & _ & _ & -> & _).
  - left. by destruct (emitter_state_eq _ _ (quiet_sendKeyCommand env k w))
            as (_ & _ & _ & -> & _).
Qed.

Lemma tracked_run env p ty ops w : tracked p ty w → tracked p ty (run env ops w).
Proof.
  revert w. induction ops as [|op ops IH]; intros w Ht; simpl; [done|].
  by apply IH, tracked_step.
Qed.

Lemma fulfilled_by_later_message env p ty ops w seen :
  tracked p ty w →
  (∀ m, promises w !! p = Some (Fulfilled m) → Receive m ∈ seen ∧ msg_type m = ty) →
  ∀ m, promises (run env ops w) !! p = Some (Fulfilled m) →
       Receive m ∈ seen ++ ops ∧ msg_type m = ty.
Proof.
  revert w seen. induction ops as [|op ops IH]; intros w seen Ht Hseen m; simpl.
  - rewrite app_nil_r. apply Hseen.
  - intros Hm. change (seen ++ op :: ops) with (seen ++ [op] ++ ops).
    rewrite app_assoc. apply (IH (step env w op)); [by apply tracked_step| |done].
    clear Hm m. intros m Hm. rewrite elem_of_app, list_elem_of_singleton.
    destruct (promise_step env p ty w op Ht) as [Heq | [(m' & -> & ? & Heq) | [e Heq]]];
      rewrite Heq in Hm.
    + apply Hseen in Hm as [? ?]. eauto.
    + injection Hm as ->. eauto.
    + done.
Qed.

(** *** An undisturbed wait *)

Lemma waiting_ext p ty h t w w' :
  emitter_state w = emitter_state w' → waiting p ty h t w → waiting p ty h t w'.
Proof.
  intros He [H0 H1 H2 H3 H4 H5].
  destruct (emitter_state_eq _ _ He) as (_ & Hev & Ht & Hp & _).
  split; [done|by eapply tracked_ext|by rewrite <- Hp|by rewrite <- Ht| |].
  - by rewrite (listeners_events _ w).
  - intros h' t' ty'. rewrite <- Ht. apply H5.
Qed.

Lemma waiting_handle p ty h t w : waiting p ty h t w → h < next_id w.
Proof.
  intros Hw. apply (wf_timers_fresh _ (tracked_wf _ _ _ (waiting_tracked _ _ _ _ _ Hw))).
  rewrite (waiting_timer _ _ _ _ _ Hw). eauto.
Qed.

Lemma waiting_on p ty h t ev l w :
  is_hook l = false →
  (∀ p' ty', l = TypeWaiter p' ty' → p' < next_id w ∧ p' ≠ p) →
  waiting p ty h t w → waiting p ty h t (on ev l w).
Proof.
  intros Hl Hp Hw. pose proof (waiting_handle _ _ _ _ _ Hw) as Hh.
  destruct Hw as [H0 H1 H2 H3 H4 H5].
  pose proof (tracked_wf _ _ _ H1) as Hwf.
  assert (Hrest : promises (on ev l w) = promises w
                  ∧ (timers (on ev l w) = timers w
                     ∨ timers (on ev l w) = <[next_id w := poll_timer]> (timers w))).
  { destruct (on_cases ev l w (wf_new_hook _ Hwf))
      as [(_ & _ & _ & -> & _ & -> & _) | (_ & _ & -> & _ & -> & _)]; eauto. }
  destruct Hrest as [Hp' Ht'].
  split; [done| |by rewrite Hp'| | |].
  - apply tracked_on; [done| |done]. intros p' ty' Heq.
    apply Hp in Heq as [? ?]. done.
  - destruct Ht' as [-> | ->]; [done|]. rewrite lookup_insert_ne; [done|lia].
  - rewrite on_listeners. case_decide; [|done]. subst.
    rewrite count_occ_app, H4. simpl.
    destruct (Listener_eq_dec l (TypeWaiter p ty)) as [->|]; [|done].
    destruct (Hp p ty eq_refl) as [_ []]. done.
  - intros h' t' ty'. destruct Ht' as [-> | ->]; [apply H5|].
    rewrite lookup_insert. case_decide; [by intros [= <-]|]. apply H5.
Qed.

Lemma waiting_removeListener p ty h t ev l w :
  is_hook l = false → l ≠ TypeWaiter p ty →
  waiting p ty h t w → waiting p ty h t (removeListener ev l w).
Proof.
  intros Hl Hne Hw.
  destruct (decide (l ∈ listeners ev w)) as [Hin|Hin];
    [|by rewrite removeListener_notin].
  destruct Hw as [H0 H1 H2 H3 H4 H5].
  pose proof (tracked_wf _ _ _ H1) as Hwf.
  assert (Ht' : timers (removeListener ev l w) = timers w
                ∨ ∃ hq, hq ≠ h ∧ timers (removeListener ev l w) = delete hq (timers w)).
  { destruct (removeListener_cases ev l w) as (_ & _ & _ & Hcases);
      [by destruct l|apply (wf_remove_hook _ Hwf)|done|].
    destruct Hcases as [(hq & Hq & _ & _ & _ & ->) | (_ & _ & ->)]; [right|by left].
    exists hq. split; [|done]. intros ->.
    pose proof (wf_poll _ Hwf) as Hpoll. rewrite Hq in Hpoll.
    destruct Hpoll as [Hpoll _]. rewrite H3 in Hpoll. injection Hpoll as ->. done. }
  split; [done|by apply tracked_removeListener
          |by rewrite removeListener_promises| | |].
  - destruct Ht' as [-> | (hq & ? & ->)]; [done|]. by rewrite lookup_delete_ne.
  - rewrite removeListener_listeners. case_decide; [|done]. subst.
    by rewrite remove_last_count_ne.
  - intros h' t' ty'. destruct Ht' as [-> | (hq & ? & ->)]; [apply H5|].
    rewrite lookup_delete. case_decide; [done|]. apply H5.
Qed.

Lemma waiting_settle p ty h t p' s w :
  p' ≠ p → waiting p ty h t w → waiting p ty h t (settle p' s w).
Proof.
  intros Hne [H0 H1 H2 H3 H4 H5].
  destruct (settle_rest p' s w) as (He & Ht & _ & _).
  split; [done|by apply tracked_settle|by rewrite settle_lookup_ne
          |by rewrite Ht|by rewrite (listeners_events _ w)|by rewrite Ht].
Qed.

Lemma waiting_delete_timer p ty h t h' t' w :
  h' ≠ h → timers w !! h' = Some t' → callback t' ≠ PollQueue →
  waiting p ty h t w → waiting p ty h t (set_timers (delete h' (timers w)) w).
Proof.
  intros Hne Ht' Hc [H0 H1 H2 H3 H4 H5].
  split; [done|by eapply tracked_delete_timer|done| |done|]; simpl.
  - by rewrite lookup_delete_ne.
  - intros h'' t'' ty'. rewrite lookup_delete. case_decide; [done|]. apply H5.
Qed.

Lemma waiting_invoke p ty h t l m w :
  (∀ ty', l = TypeWaiter p ty' → msg_type m ≠ ty') →
  waiting p ty h t w → waiting p ty h t (invoke l (ArgMessage m) w).
Proof.
  intros Hty Hw. destruct l as [id|p' ty'| |]; simpl; try done.
  case_bool_decide as Heq; [|done].
  assert (p' ≠ p) by (intros ->; by apply (Hty ty')).
  apply waiting_removeListener; [done|congruence|]. by apply waiting_settle.
Qed.

Lemma waiting_onReceiveMessage env p ty h t m w :
  msg_type m ≠ ty →
  waiting p ty h t w → waiting p ty h t (onReceiveMessage env m w).
Proof.
  intros Hm Hw.
  eapply waiting_ext; [symmetry; apply onReceiveMessage_after|].
  unfold emit. apply foldl_invoke_ind; [by apply (waiting_ext p ty h t w)|].
  intros l w' Hl. apply waiting_invoke.
  intros ty' ->.
  by rewrite (tracked_type _ _ _ (waiting_tracked _ _ _ _ _ Hw) _ _ Hl).
Qed.

Lemma waiting_fire env p ty h t h' w :
  h' ≠ h → waiting p ty h t w → waiting p ty h t (fire env h' w).
Proof.
  intros Hne Hw. unfold fire. destruct (timers w !! h') as [t'|] eqn:Ht'; [|done].
  pose proof (tracked_wf _ _ _ (waiting_tracked _ _ _ _ _ Hw)) as Hwf.
  destruct (callback t') as [|p' ty'] eqn:Hc; simpl.
  - pose proof (wf_unique _ Hwf _ _ Ht' Hc) as Hq.
    pose proof (wf_poll _ Hwf) as Hpoll. rewrite Hq in Hpoll.
    destruct Hpoll as [Hpoll _]. rewrite Ht' in Hpoll. injection Hpoll as ->.
    simpl. eapply waiting_ext; [symmetry; apply pollQueue_emitter_state|done].
  - assert (p' ≠ p).
    { intros ->. by apply Hne, (waiting_only _ _ _ _ _ Hw h' t' ty'). }
    apply waiting_removeListener; [done|congruence|]. apply waiting_settle; [done|].
    destruct (repeats t'); [done|].
    eapply waiting_delete_timer; [done|done| |done]. by rewrite Hc.
Qed.

Lemma waiting_messageOfType p ty h t type timeout w :
  waiting p ty h t w → waiting p ty h t (messageOfType type timeout w).2.
Proof.
  intros Hw. pose proof (waiting_handle _ _ _ _ _ Hw) as Hh.
  pose proof (tracked_lt _ _ _ (waiting_tracked _ _ _ _ _ Hw)) as Hp.
  rewrite messageOfType_eq. cbn [snd].
  apply waiting_on; [done|simpl; intros ?? [= <- <-]; split; lia|].
  destruct Hw as [H0 H1 H2 H3 H4 H5]. destruct H1 as [Hwf H1 H1'].
  split; [done| | | |done|].
  - split; [|simpl; lia|done].
    apply wf_start_timer; [done|simpl; intros ?? [= -> ->]; lia|].
    by apply wf_new_promise.
  - simpl. rewrite lookup_insert_ne; [done|lia].
  - simpl. rewrite lookup_insert_ne; [done|lia].
  - simpl. intros h' t' ty'. rewrite lookup_insert. case_decide; [|apply H5].
    intros [= <-]. simpl. intros [= Heq]. lia.
Qed.

Lemma waiting_step env p ty h t w op :
  undisturbed ty h op → waiting p ty h t w → waiting p ty h t (step env w op).
Proof.
  intros Hop Hw.
  destruct op as [ev id|ev id|type timeout|m|h'|creds| |options|width height|k];
    cbn [step].
  - by apply waiting_on.
  - by apply waiting_removeListener.
  - by apply waiting_messageOfType.
  - by apply waiting_onReceiveMessage.
  - by apply waiting_fire.
  - eapply waiting_ext; [symmetry; apply quiet_openConnection|done].
  - by apply (waiting_ext p ty h t w).
  - eapply waiting_ext; [symmetry; apply quiet_requestPlaybackQueueWithWait|done].
  - eapply waiting_ext; [symmetry; apply quiet_requestArtwork|done].
  - eapply waiting_ext; [symmetry; apply quiet_sendKeyCommand|done].
Qed.

Lemma waiting_run env p ty h t ops w :
  Forall (undisturbed ty h) ops →
  waiting p ty h t w → waiting p ty h t (run env ops w).
Proof.
  intros Hops. revert w. induction Hops as [|op ops Hop _ IH]; intros w Hw; simpl;
    [done|].
  by apply IH, waiting_step.
Qed.

(** *** The three moments of a wait *)

Lemma messageOfType_registers type timeout w :
  wf w →
  let p := next_id w in
  let w1 := (messageOfType type timeout w).2 in
  let timer := {| callback := WaitExpired p type;
                  delay := default 5%Z timeout * 1000;
                  repeats := false |} in
  (messageOfType type timeout w).1 = p
  ∧ promises w !! p = None
  ∧ listeners "message" w1 = listeners "message" w ++ [TypeWaiter p type]
  ∧ waiting p type (S p) timer w1.
Proof.
  intros Hwf p w1 timer.
  assert (Hnew : promises w !! p = None).
  { destruct (promises w !! p) eqn:Hp; [|done].
    assert (p < next_id w) by (apply (wf_promises_fresh _ Hwf); eauto).
    unfold p in *. lia. }
  assert (Hfresh : ∀ ev ty', TypeWaiter p ty' ∉ listeners ev w).
  { intros ev ty' Hin. apply (wf_waiters_fresh _ Hwf) in Hin. unfold p in *. lia. }
  assert (Hl : ∀ ev, listeners ev w1
               = if decide ("message" = ev) then listeners ev w ++ [TypeWaiter p type]
                 else listeners ev w).
  { intros ev. unfold w1. rewrite messageOfType_eq. cbn [snd].
    rewrite on_listeners. by case_decide; subst. }
  assert (Hrest : promises w1 = <[p := Pending]> (promises w)
                  ∧ timers w1 = <[S p := timer]> (timers w)
                  ∧ next_id w1 = S (S p)).
  { unfold w1. rewrite messageOfType_eq. cbn [snd].
    match goal with |- context [on ?ev ?l ?w2] =>
      destruct (on_cases ev l w2)
        as [(_ & [=] & _) | (_ & _ & -> & -> & -> & _)] end; [|done].
    rewrite listeners_lookup. simpl. apply (wf_new_hook _ Hwf). }
  destruct Hrest as (Hp' & Ht' & Hn').
  split_and!; [done|done|by rewrite Hl|].
  split; [done| |by rewrite Hp', lookup_insert_eq|by rewrite Ht', lookup_insert_eq| |].
  - split; [by apply wf_messageOfType|lia|].
    intros ev ty'. rewrite Hl. case_decide; [|by intros ?%Hfresh].
    rewrite elem_of_app, list_elem_of_singleton. by intros [?%Hfresh | [= ->]].
  - rewrite Hl, decide_True, count_occ_app by done.
    rewrite (count_occ_cons_eq Listener_eq_dec [] (eq_refl (TypeWaiter p type))).
    assert (count_occ Listener_eq_dec (listeners "message" w) (TypeWaiter p type) = 0)
      as ->; [|done].
    apply count_occ_not_In. rewrite <- list_elem_of_In. apply Hfresh.
  - intros h' t' ty'. rewrite Ht', lookup_insert. case_decide; [done|].
    intros Hh Hc. pose proof (wf_timeouts_fresh _ Hwf _ _ _ _ Hh Hc). unfold p in *. lia.
Qed.

Lemma fire_rejects env p ty h t w :
  repeats t = false → waiting p ty h t w →
  let w' := fire env h w in
  promises w' !! p = Some (Failed (timeout_error ty))
  ∧ (TypeWaiter p ty ∉ listeners "message" w')
  ∧ (∀ l, l ≠ TypeWaiter p ty →
       count_occ Listener_eq_dec (listeners "message" w') l
       = count_occ Listener_eq_dec (listeners "message" w) l)
  ∧ (∀ p', p' ≠ p → promises w' !! p' = promises w !! p')
  ∧ (∀ h', h' ≠ h → timers w' !! h' = timers w !! h')
  ∧ queuePollTimer w' = queuePollTimer w.
Proof.
  intros Hr [H0 H1 H2 H3 H4 H5] w'. unfold w', fire. rewrite H3, H0, Hr.
  cbn [run_callback]. set (w1 := set_timers (delete h (timers w)) w).
  set (w2 := settle p (Failed (timeout_error ty)) w1).
  assert (Hw2 : w2 = set_promises (<[p := Failed (timeout_error ty)]> (promises w)) w1).
  { unfold w2. by destruct (settle_cases p (Failed (timeout_error ty)) w1)
                    as [[_ ->] | [[] _]]. }
  destruct (removeListener_unwatched "message" (TypeWaiter p ty) w2 eq_refl)
    as [Ht' Hq'].
  assert (Hl : listeners "message" w2 = listeners "message" w) by by rewrite Hw2.
  split_and!.
  - rewrite removeListener_promises, Hw2. simpl. by rewrite lookup_insert_eq.
  - rewrite removeListener_listeners, decide_True, Hl by done.
    rewrite list_elem_of_In, (count_occ_not_In Listener_eq_dec).
    by rewrite remove_last_count_eq, H4.
  - intros l Hl'. rewrite removeListener_listeners, decide_True, Hl by done.
    by apply remove_last_count_ne.
  - intros p' Hp'. rewrite removeListener_promises, Hw2. simpl.
    by rewrite lookup_insert_ne.
  - intros h' Hh'. rewrite Ht', Hw2. simpl. by rewrite lookup_delete_ne.
  - by rewrite Hq', Hw2.
Qed.

Lemma foldl_invoke_fulfilled p ty m ls w :
  msg_type m = ty →
  (∀ l ty', l ∈ ls → l = TypeWaiter p ty' → ty' = ty) →
  promises w !! p = Some (Fulfilled m) →
  promises (foldl (λ w' l, invoke l (ArgMessage m) w') w ls) !! p
  = Some (Fulfilled m).
Proof.
  intros Hm Hty Hp.
  apply (foldl_invoke_ind (λ w', promises w' !! p = Some (Fulfilled m))); [done|].
  intros l w' Hl Hw'.
  destruct (promise_invoke p ty m l w') as [-> | [_ ->]]; [|done..].
  intros ty'. by apply Hty.
Qed.

Lemma foldl_invoke_waiting p ty h t m ls w :
  msg_type m = ty →
  (∀ l ty', l ∈ ls → l = TypeWaiter p ty' → ty' = ty) →
  TypeWaiter p ty ∈ ls →
  waiting p ty h t w →
  promises (foldl (λ w' l, invoke l (ArgMessage m) w') w ls) !! p
  = Some (Fulfilled m).
Proof.
  intros Hm. revert w. induction ls as [|l ls IH]; intros w Hty Hin Hw;
    [by apply elem_of_nil in Hin|].
  simpl. destruct (decide (l = TypeWaiter p ty)) as [->|Hne].
  - apply (foldl_invoke_fulfilled p ty); [done| |].
    + intros l ty' Hl. apply Hty. by right.
    + simpl. rewrite bool_decide_eq_true_2 by done.
      rewrite removeListener_promises.
      destruct (settle_cases p (Fulfilled m) w) as [[_ ->] | [[] _]];
        [|apply (waiting_pending _ _ _ _ _ Hw)].
      simpl. by rewrite lookup_insert_eq.
  - apply IH.
    + intros l' ty' Hl. apply Hty. by right.
    + apply elem_of_cons in Hin as [|]; [congruence|done].
    + apply waiting_invoke; [|done]. intros ty' ->.
      rewrite (Hty _ ty' (list_elem_of_here _ _)) in Hne by done. done.
Qed.

Lemma receive_fulfils env p ty h t m w :
  msg_type m = ty → waiting p ty h t w →
  promises (onReceiveMessage env m w) !! p = Some (Fulfilled m).
Proof.
  intros Hm Hw.
  destruct (emitter_state_eq _ _ (onReceiveMessage_after env m w)) as (_ & _ & _ & -> & _).
  unfold emit. apply (foldl_invoke_waiting p ty h t); [done| | |].
  - intros l ty' Hl ->.
    by apply (tracked_type _ _ _ (waiting_tracked _ _ _ _ _ Hw) "message").
  - rewrite list_elem_of_In, (count_occ_In Listener_eq_dec).
    rewrite (waiting_once _ _ _ _ _ Hw). lia.
  - by apply (waiting_ext p ty h t w).
Qed.

(** C8: a call [messageOfType(type, timeout)] creates a pending promise,
    a timer of [timeout * 1000] ms (5000 when omitted) and a 'message'
    listener, whatever was processed before.  Only a message of this type
    received after the call fulfils the promise, and the next such message
    does.  If none arrives before the timer fires, the promise is rejected
    with the timeout error and the listener of this call is removed; every
    other listener, promise and timer stays as it was. *)
Theorem message_wait_times_out env objects before type timeout :
  let w0 := run env before (new_AppleTV env objects) in
  let p := (messageOfType type timeout w0).1 in
  let w1 := (messageOfType type timeout w0).2 in
  let h := S p in
  let timer := {| callback := WaitExpired p type;
                  delay := default 5%Z timeout * 1000;
                  repeats := false |} in
  promises w0 !! p = None
  ∧ promises w1 !! p = Some Pending
  ∧ timers w1 !! h = Some timer
  ∧ listeners "message" w1 = listeners "message" w0 ++ [TypeWaiter p type]
  ∧ (∀ after m,
       promises (run env after w1) !! p = Some (Fulfilled m) →
       Receive m ∈ after ∧ msg_type m = type)
  ∧ (∀ after m,
       Forall (undisturbed type h) after → msg_type m = type →
       promises (run env (after ++ [Receive m]) w1) !! p = Some (Fulfilled m))
  ∧ (∀ after,
       Forall (undisturbed type h) after →
       let w2 := run env after w1 in
       let w3 := fire env h w2 in
       promises w2 !! p = Some Pending
       ∧ timers w2 !! h = Some timer
       ∧ promises w3 !! p = Some (Failed (timeout_error type))
       ∧ (TypeWaiter p type ∉ listeners "message" w3)
       ∧ (∀ l, l ≠ TypeWaiter p type →
            (count_occ Listener_eq_dec (listeners "message" w3) l
             = count_occ Listener_eq_dec (listeners "message" w2) l))
       ∧ (∀ p', p' ≠ p → promises w3 !! p' = promises w2 !! p')
       ∧ (∀ h', h' ≠ h → timers w3 !! h' = timers w2 !! h')
       ∧ queuePollTimer w3 = queuePollTimer w2).
Proof.
  intros w0. cbv zeta.
  assert (Hwf : wf w0) by apply wf_run, wf_new_AppleTV.
  destruct (messageOfType_registers type timeout w0 Hwf) as (-> & Hnew & Hl & Hw1).
  set (p := next_id w0) in *. set (w1 := (messageOfType type timeout w0).2) in *.
  set (timer := {| callback := WaitExpired p type;
                   delay := default 5%Z timeout * 1000;
                   repeats := false |}) in *.
  split_and!; [done| | |done| | |].
  - apply (waiting_pending _ _ _ _ _ Hw1).
  - apply (waiting_timer _ _ _ _ _ Hw1).
  - intros after m Hm.
    apply (fulfilled_by_later_message env p type after w1 []);
      [apply (waiting_tracked _ _ _ _ _ Hw1)| |done].
    intros m'. by rewrite (waiting_pending _ _ _ _ _ Hw1).
  - intros after m Hafter Hm. unfold run. rewrite foldl_app. simpl.
    eapply receive_fulfils; [done|]. by apply waiting_run.
  - intros after Hafter.
    assert (Hw2 : waiting p type (S p) timer (run env after w1)) by by apply waiting_run.
    split; [apply (waiting_pending _ _ _ _ _ Hw2)|].
    split; [apply (waiting_timer _ _ _ _ _ Hw2)|].
    by apply (fire_rejects env p type (S p) timer).
Qed.

(** ** Messages, requests and key names *)

Lemma sendMessage_run env file type body wait priority w :
  let definition := ProtoLoad ("/protos/" +:+ file +:+ ".proto") in
  let message :=
    ConnSend type body wait priority (credentials w) (credentials w ≫= (heap w !!.)) in
  sendMessage env file type body wait priority w =
    match load_answer env (trace w ++ [definition]) with
    | Rejected e => (Rejected e, record definition w)
    | Resolved _ =>
        (send_answer env (trace w ++ [definition; message]),
         record message (record definition w))
    end.
Proof.
  unfold sendMessage. async_unfold. cbn [record trace credentials heap].
  rewrite <- !app_assoc. cbn [app].
  by destruct (load_answer _ _).
Qed.

(** X1: [sendMessage] loads the definition first.  If that fails, the call
    rejects with the loader's error and nothing is handed to the
    connection.  Otherwise exactly one message is handed over, with the
    given type, body, wait flag and priority and with the credentials
    stored at that moment, and the call ends as the connection answers.
    Either way no listener, timer, promise or credential changes. *)
Theorem send_message_outcome env file type body wait priority w :
  let r := (sendMessage env file type body wait priority w).1 in
  let w' := (sendMessage env file type body wait priority w).2 in
  let definition := ProtoLoad ("/protos/" +:+ file +:+ ".proto") in
  let message :=
    ConnSend type body wait priority (credentials w) (credentials w ≫= (heap w !!.)) in
  emitter_state w' = emitter_state w
  ∧ pairingId w' = pairingId w ∧ credentials w' = credentials w ∧ heap w' = heap w
  ∧ match load_answer env (trace w ++ [definition]) with
    | Rejected e =>
        r = Rejected e ∧ since w w' = [definition] ∧ sends (since w w') = []
    | Resolved _ =>
        r = send_answer env (trace w ++ [definition; message])
        ∧ since w w' = [definition; message]
        ∧ sends (since w w') = [message]
    end.
Proof.
  cbv zeta. rewrite sendMessage_run. cbv zeta.
  destruct (load_answer _ _); cbn [fst snd]; (split_and!; [done..| |]);
    by since_is.
Qed.

(** X2: [requestPlaybackQueue(options)] sends one request, waiting for
    its answer, once the definition has loaded, and ends as the connection
    answers; if the definition fails to load, nothing is sent.  The request
    carries a fresh [requestID] in place of any the caller gave; an
    [artworkSize] is replaced by [artworkWidth] and [artworkHeight], which
    override fields of these names; every other field of [options] goes out
    as the caller gave it. *)
Theorem playback_queue_options_pass_through env options w :
  let r := (requestPlaybackQueue env options w).1 in
  let w' := (requestPlaybackQueue env options w).2 in
  match load_answer env (trace w ++ [Uuid; queue_load]) with
  | Rejected e => r = Rejected e ∧ sends (since w w') = []
  | Resolved _ =>
      ∃ body,
        since w w' =
          [Uuid; queue_load;
           ConnSend "PlaybackQueueRequestMessage" body true 0 (credentials w)
             (credentials w ≫= (heap w !!.))]
        ∧ r = send_answer env (trace w')
        ∧ body !! "requestID" = Some (VStr (uuid_answer env (trace w ++ [Uuid])))
        ∧ (∀ k, k ∉ ["requestID"; "artworkSize"; "artworkWidth"; "artworkHeight"] →
             body !! k = options !! k)
        ∧ match options !! "artworkSize" with
          | Some (VSize size) =>
              body !! "artworkSize" = None
              ∧ body !! "artworkWidth" = Some (VNum (width size))
              ∧ body !! "artworkHeight" = Some (VNum (height size))
          | None =>
              body !! "artworkSize" = None
              ∧ body !! "artworkWidth" = options !! "artworkWidth"
              ∧ body !! "artworkHeight" = options !! "artworkHeight"
          | Some _ => True
          end
  end.
Proof.
  cbv zeta. unfold requestPlaybackQueue, requestPlaybackQueueWithWait.
  unfold uuid, mbind, Async_bind. cbn [record trace credentials heap].
  rewrite sendMessage_run. cbv zeta. cbn [record trace credentials heap].
  rewrite <- !app_assoc. cbn [app].
  change ("/protos/" +:+ "PlaybackQueueRequestMessage" +:+ ".proto")
    with "/protos/PlaybackQueueRequestMessage.proto".
  fold queue_load.
  destruct (load_answer _ _); cbn [fst snd]; [|split; [done|by since_is]].
  eexists. split; [by since_is|]. split; [cbn [record trace]; by rewrite <- !app_assoc|].
  assert (Hk : ∀ k : string,
            k ∉ ["requestID"; "artworkSize"; "artworkWidth"; "artworkHeight"] →
            k ≠ "requestID" ∧ k ≠ "artworkSize" ∧ k ≠ "artworkWidth"
            ∧ k ≠ "artworkHeight").
  { intros k Hk. rewrite !not_elem_of_cons in Hk. tauto. }
  destruct (options !! "artworkSize") as [[| | | |size|]|] eqn:Hsize.
  all: try (split; [by rewrite lookup_insert_eq|]; split; [|done];
            intros k (? & ? & ? & ?)%Hk; by rewrite lookup_insert_ne).
  - split; [by rewrite lookup_delete_ne, 2!lookup_insert_ne, lookup_insert_eq|].
    split.
    + intros k (? & ? & ? & ?)%Hk.
      by rewrite lookup_delete_ne, !lookup_insert_ne by done.
    + split_and!.
      * by rewrite lookup_delete_eq.
      * by rewrite lookup_delete_ne, lookup_insert_ne, lookup_insert_eq.
      * by rewrite lookup_delete_ne, lookup_insert_eq.
  - split; [by rewrite lookup_insert_eq|]. split.
    + intros k (? & ? & ? & ?)%Hk. by rewrite lookup_insert_ne.
    + by rewrite !lookup_insert_ne.
Qed.

(** X3: [AppleTV.key] reaches every key, and no key has two names. *)
Theorem key_names_one_to_one :
  (∀ k, ∃ name, key name = Some k)
  ∧ (∀ name name' k, key name = Some k → key name' = Some k → name = name').
Proof.
  split.
  - intros []; [by exists "up"|by exists "down"|by exists "left"|by exists "right"
                |by exists "menu"|by exists "play"|by exists "pause"|by exists "next"
                |by exists "previous"|by exists "suspend"|by exists "select"].
  - intros name name' k. unfold key.
    repeat case_bool_decide; intros; simplify_eq; done.
Qed.

(** ** Key events on the wire *)

Lemma hidEventData_inj env usePage usage down usePage' usage' down' :
  (∀ z, length (UInt16toBufferBE env z) = 2%nat) →
  hidEventData env usePage usage down = hidEventData env usePage' usage' down' →
  UInt16toBufferBE env usePage = UInt16toBufferBE env usePage'
  ∧ UInt16toBufferBE env usage = UInt16toBufferBE env usage'
  ∧ UInt16toBufferBE env (if down then 1 else 0)
    = UInt16toBufferBE env (if down' then 1 else 0).
Proof.
  intros Hlen. unfold hidEventData. cbv zeta.
  intros H. apply app_inv_head in H. apply app_inv_head in H.
  rewrite !app_assoc in H. apply app_inv_tail in H.
  apply app_inj_1 in H as [H H3]; [|by rewrite !length_app, !Hlen].
  apply app_inj_1 in H as [H1 H2]; [|by rewrite !Hlen].
  split_and!; [done|done|]. by destruct down, down'.
Qed.

Lemma sendKeyPressAndRelease_sends env usePage usage w :
  sends (since w (sendKeyPressAndRelease env usePage usage w).2) `prefix_of`
    [ConnSend "SendHIDEventMessage"
       (obj [("hidEventData", VBuf (hidEventData env usePage usage true))])
       false 0 (credentials w) (credentials w ≫= (heap w !!.));
     ConnSend "SendHIDEventMessage"
       (obj [("hidEventData", VBuf (hidEventData env usePage usage false))])
       false 0 (credentials w) (credentials w ≫= (heap w !!.))].
Proof.
  unfold sendKeyPressAndRelease. unfold mbind, Async_bind.
  rewrite sendKeyPress_run. cbv zeta.
  next_answer; [|since_is; by eexists].
  next_answer; [|since_is; by eexists].
  rewrite sendKeyPress_run. cbv zeta. cbn [record trace credentials heap].
  rewrite <- !app_assoc. cbn [app].
  next_answer; [|since_is; by eexists].
  next_answer; since_is; by eexists [].
Qed.

Lemma field_hidEventData ty data wt pr c s :
  field "hidEventData" (ConnSend ty (obj [("hidEventData", VBuf data)]) wt pr c s)
  = Some (VBuf data).
Proof. done. Qed.

(** X4: when [UInt16toBufferBE] writes two bytes and is one-to-one on
    16-bit values, the event data of a key command tells the key and the
    direction: two commands whose presses (or releases) carry the same
    data are for the same key, and a press is never the release of any
    key. *)
Theorem keys_send_distinct_events env k k' w w' press release press' release' :
  (∀ z, length (UInt16toBufferBE env z) = 2%nat) →
  (∀ a b, (0 ≤ a < 65536)%Z → (0 ≤ b < 65536)%Z →
     UInt16toBufferBE env a = UInt16toBufferBE env b → a = b) →
  sends (since w (sendKeyCommand env k w).2) = [press; release] →
  sends (since w' (sendKeyCommand env k' w').2) = [press'; release'] →
  (field "hidEventData" press = field "hidEventData" press' → k = k')
  ∧ (field "hidEventData" release = field "hidEventData" release' → k = k')
  ∧ field "hidEventData" press ≠ field "hidEventData" release'
  ∧ field "hidEventData" release ≠ field "hidEventData" press'.
Proof.
  intros Hlen Hinj Hs Hs'.
  destruct (sendKeyCommand_table env k) as (p & u & Hk & Ht).
  destruct (sendKeyCommand_table env k') as (p' & u' & Hk' & Ht').
  pose proof (sendKeyPressAndRelease_sends env p u w) as Hp.
  pose proof (sendKeyPressAndRelease_sends env p' u' w') as Hp'.
  rewrite <- Hk, Hs in Hp. rewrite <- Hk', Hs' in Hp'.
  apply prefix_length_eq in Hp; [|done]. apply prefix_length_eq in Hp'; [|done].
  injection Hp as -> ->. injection Hp' as -> ->.
  rewrite !field_hidEventData. clear Hs Hs' Hk Hk'.
  assert (Hpair : ∀ d d', Some (VBuf (hidEventData env p u d))
                            = Some (VBuf (hidEventData env p' u' d')) →
                          (0 ≤ p < 65536)%Z → (0 ≤ u < 65536)%Z →
                          (0 ≤ p' < 65536)%Z → (0 ≤ u' < 65536)%Z →
                          p = p' ∧ u = u' ∧ d = d').
  { intros d d' H.
    assert (hidEventData env p u d = hidEventData env p' u' d')
      as (H1 & H2 & H3)%hidEventData_inj by congruence; [|done]. intros.
    apply Hinj in H1; [|done..]. apply Hinj in H2; [|done..].
    apply Hinj in H3; [|by destruct d|by destruct d']. by destruct d, d'. }
  assert (Hrange : (0 ≤ p < 65536)%Z ∧ (0 ≤ u < 65536)%Z).
  { destruct k;
      repeat match goal with H : _ ∧ _ |- _ => destruct H end;
      repeat match goal with H : ?x = ?x → _ |- _ => specialize (H eq_refl) end;
      match goal with H : (p, u) = _ |- _ => injection H as -> -> end; lia. }
  assert (Hrange' : (0 ≤ p' < 65536)%Z ∧ (0 ≤ u' < 65536)%Z).
  { destruct k';
      repeat match goal with H : _ ∧ _ |- _ => destruct H end;
      repeat match goal with H : ?x = ?x → _ |- _ => specialize (H eq_refl) end;
      match goal with H : (p', u') = _ |- _ => injection H as -> -> end; lia. }
  destruct Hrange, Hrange'.
  assert (Hkey : p = p' → u = u' → k = k').
  { intros <- <-. destruct k, k'; try done; exfalso;
      repeat match goal with H : _ ∧ _ |- _ => destruct H end;
      repeat match goal with H : ?x = ?x → _ |- _ => specialize (H eq_refl) end;
      congruence. }
  split_and!.
  - intros (? & ? & _)%Hpair; auto.
  - intros (? & ? & _)%Hpair; auto.
  - intros (_ & _ & ?)%Hpair; done.
  - intros (_ & _ & ?)%Hpair; done.
Qed.

(** The sample encoder is such an encoder. *)
Lemma uint16_be_bytes z :
  ∃ hi lo, uint16_be z = [hi; lo]
           ∧ Byte.to_N hi = Z.to_N (z / 256 mod 256)
           ∧ Byte.to_N lo = Z.to_N (z mod 256).
Proof.
  unfold uint16_be.
  destruct (Byte.of_N (Z.to_N (z / 256 mod 256))) as [hi|] eqn:Hhi.
  - destruct (Byte.of_N (Z.to_N (z mod 256))) as [lo|] eqn:Hlo.
    + exists hi, lo. by apply Byte.to_of_N in Hhi, Hlo.
    + apply Byte.of_N_None_iff in Hlo.
      pose proof (Z.mod_pos_bound z 256). lia.
  - apply Byte.of_N_None_iff in Hhi.
    pose proof (Z.mod_pos_bound (z / 256) 256). lia.
Qed.

Lemma uint16_be_length z : length (uint16_be z) = 2%nat.
Proof. by destruct (uint16_be_bytes z) as (hi & lo & -> & _). Qed.

Lemma uint16_be_inj a b :
  (0 ≤ a < 65536)%Z → (0 ≤ b < 65536)%Z → uint16_be a = uint16_be b → a = b.
Proof.
  intros Ha Hb.
  destruct (uint16_be_bytes a) as (hi & lo & -> & Hhi & Hlo).
  destruct (uint16_be_bytes b) as (hi' & lo' & -> & Hhi' & Hlo').
  intros [= <- <-]. rewrite Hhi in Hhi'. rewrite Hlo in Hlo'.
  pose proof (Z.mod_pos_bound a 256). pose proof (Z.mod_pos_bound b 256).
  pose proof (Z.mod_pos_bound (a / 256) 256).
  pose proof (Z.mod_pos_bound (b / 256) 256).
  rewrite (Z.div_mod a 256), (Z.div_mod b 256) by lia.
  rewrite <- (Z.mod_small (a / 256) 256), <- (Z.mod_small (b / 256) 256)
    by (split; [apply Z.div_pos; lia|apply Z.div_lt_upper_bound; lia]).
  lia.
Qed.

Lemma keys_send_distinct_events_witness :
  let w := sample_tv env_ok in
  let send usePage usage down :=
    ConnSend "SendHIDEventMessage"
      (obj [("hidEventData", VBuf (hidEventData env_ok usePage usage down))])
      false 0 None None in
  (∀ z, length (UInt16toBufferBE env_ok z) = 2%nat)
  ∧ (∀ a b, (0 ≤ a < 65536)%Z → (0 ≤ b < 65536)%Z →
       UInt16toBufferBE env_ok a = UInt16toBufferBE env_ok b → a = b)
  ∧ sends (since w (sendKeyCommand env_ok Up w).2)
    = [send 1%Z 0x8C%Z true; send 1%Z 0x8C%Z false]
  ∧ sends (since w (sendKeyCommand env_ok Play w).2)
    = [send 12%Z 0xB0%Z true; send 12%Z 0xB0%Z false]
  ∧ (field "hidEventData" (send 1%Z 0x8C%Z true)
     = field "hidEventData" (send 12%Z 0xB0%Z true) → Up = Play)
  ∧ (field "hidEventData" (send 1%Z 0x8C%Z false)
     = field "hidEventData" (send 12%Z 0xB0%Z false) → Up = Play)
  ∧ field "hidEventData" (send 1%Z 0x8C%Z true)
    ≠ field "hidEventData" (send 12%Z 0xB0%Z false)
  ∧ field "hidEventData" (send 1%Z 0x8C%Z false)
    ≠ field "hidEventData" (send 12%Z 0xB0%Z true).
Proof.
  cbv zeta.
  assert (H1 : ∀ z, length (UInt16toBufferBE env_ok z) = 2%nat)
    by apply uint16_be_length.
  assert (H2 : ∀ a b, (0 ≤ a < 65536)%Z → (0 ≤ b < 65536)%Z →
                 UInt16toBufferBE env_ok a = UInt16toBufferBE env_ok b → a = b)
    by apply uint16_be_inj.
  assert (H3 : sends (since (sample_tv env_ok)
                         (sendKeyCommand env_ok Up (sample_tv env_ok)).2)
          = [ConnSend "SendHIDEventMessage"
               (obj [("hidEventData", VBuf (hidEventData env_ok 1%Z 0x8C%Z true))])
               false 0 None None;
             ConnSend "SendHIDEventMessage"
               (obj [("hidEventData", VBuf (hidEventData env_ok 1%Z 0x8C%Z false))])
               false 0 None None])
    by (vm_compute; reflexivity).
  assert (H4 : sends (since (sample_tv env_ok)
                         (sendKeyCommand env_ok Play (sample_tv env_ok)).2)
          = [ConnSend "SendHIDEventMessage"
               (obj [("hidEventData", VBuf (hidEventData env_ok 12%Z 0xB0%Z true))])
               false 0 None None;
             ConnSend "SendHIDEventMessage"
               (obj [("hidEventData", VBuf (hidEventData env_ok 12%Z 0xB0%Z false))])
               false 0 None None])
    by (vm_compute; reflexivity).
  split; [exact H1|]. split; [exact H2|]. split; [exact H3|]. split; [exact H4|].
  exact (keys_send_distinct_events env_ok Up Play _ _ _ _ _ _ H1 H2 H3 H4).
Defined.

(** ** What [openConnection] writes *)

(** The trace of the call up to the answer of the verifier. *)
Ltac up_to_verify :=
  simpl; rewrite <- ?app_assoc; simpl; rewrite take_app_add; simpl.

Ltac verified Hv :=
  up_to_verify; rewrite <- Hv; f_equal; by rewrite <- ?app_assoc.

(** X5: what [openConnection] leaves behind, however it ends.  The pairing
    id is the one of the credentials given, or the old one without
    credentials; no Credentials object other than the one given is
    touched, and no pairing id of an object changes.  The object given
    holds the keys the verifier resolved to in this call, its fourth call
    out, and is then already what the engine holds as its credentials; if
    the verifier was not reached or rejected, the object is as before. *)
Theorem open_writes_only_its_credentials env creds w :
  let w' := (openConnection env creds w).2 in
  pairingId w' = match creds ≫= (heap w !!.) with
                 | Some cr => cred_pairingId cr
                 | None => pairingId w
                 end
  ∧ (∀ c, Some c ≠ creds → heap w' !! c = heap w !! c)
  ∧ (∀ c, cred_pairingId <$> heap w' !! c = cred_pairingId <$> heap w !! c)
  ∧ (∀ c cr, creds = Some c → heap w !! c = Some cr →
       let verified keys :=
         since w w' !! 3%nat = Some VerifierVerify
         ∧ verify_answer env (take (length (trace w) + 4) (trace w')) = Resolved keys in
       (heap w' !! c = Some cr ∧ ∀ keys, ¬ verified keys)
       ∨ ∃ keys, verified keys
                 ∧ heap w' !! c = Some (with_keys cr keys)
                 ∧ credentials w' = Some c).
Proof.
  cbv zeta. unfold openConnection. async_unfold. destruct creds as [c|]; simpl.
  - destruct (heap w !! c) as [cr|] eqn:Hc; simpl.
    + repeat answer; (split; [done|]);
        (split; [intros c' Hc'; simpl; rewrite ?lookup_alter_ne by congruence; done|]);
        (split; [intros c'; simpl;
                 destruct (decide (c' = c)) as [->|];
                 [rewrite ?lookup_alter_eq, ?Hc|rewrite ?lookup_alter_ne by done]; done|]);
        intros c' cr' [= <-] Hcr; rewrite Hc in Hcr; injection Hcr as <-;
        first
          [ match goal with
            | Hv : verify_answer env _ = Resolved ?k |- _ =>
                right; exists k; split_and!;
                [by since_is|verified Hv
                 |simpl; by rewrite ?lookup_alter_eq, ?Hc|done]
            end
          | left; split; [done|]; intros keys [Hs Hv]; revert Hs Hv;
            first
              [ since_is; discriminate
              | match goal with
                | Hr : verify_answer env _ = Rejected _ |- _ =>
                    intros _; up_to_verify; intros Hv;
                    rewrite <- ?app_assoc in Hr; simpl in Hr; congruence
                end ] ].
    + repeat answer; (split; [done|]);
        (split; [intros c' Hc'; simpl; rewrite ?lookup_alter_ne by congruence; done|]);
        (split; [intros c'; simpl;
                 destruct (decide (c' = c)) as [->|];
                 [rewrite ?lookup_alter_eq, ?Hc|rewrite ?lookup_alter_ne by done]; done|]);
        intros c' cr' [= <-]; simpl; congruence.
  - repeat answer; split_and!; done.
Qed.

(** ** Keys in the debug line *)

Lemma from_hex_pair x s :
  from_hex (String (hex_char (Byte.to_N x / 16))
              (String (hex_char (Byte.to_N x mod 16)) s))
  = x :: from_hex s.
Proof. destruct x; reflexivity. Qed.

(** Reading back what [toString('hex')] wrote gives the buffer. *)
Lemma from_hex_to_hex b : from_hex (to_hex b) = b.
Proof.
  induction b as [|x b IH]; [done|].
  cbn [to_hex]. cbv zeta. by rewrite from_hex_pair, IH.
Qed.

Lemma hex_char_not_comma x : hex_char (Byte.to_N x / 16) ≠ ","%char.
Proof. destruct x; discriminate. Qed.

Lemma to_hex_split b b' s s' :
  to_hex b +:+ String "," s = to_hex b' +:+ String "," s' → b = b' ∧ s = s'.
Proof.
  revert b'. induction b as [|x b IH]; intros [|y b']; cbn [to_hex]; cbv zeta.
  - by intros [= ->].
  - intros [= H _]. by apply eq_sym, hex_char_not_comma in H.
  - intros [= H _]. by apply hex_char_not_comma in H.
  - intros [= H1 H2 H3]. apply IH in H3 as [-> ->]. split; [|done]. f_equal.
    pose proof (from_hex_pair x EmptyString) as Hx.
    rewrite H1, H2, from_hex_pair in Hx. by injection Hx.
Qed.

Lemma debug_keys_inj keys keys' : debug_keys keys = debug_keys keys' → keys = keys'.
Proof.
  destruct keys as [r wr], keys' as [r' wr']. unfold debug_keys. simpl.
  intros [= H]. apply to_hex_split in H as [-> H]. f_equal.
  injection H as H. apply (f_equal from_hex) in H. by rewrite !from_hex_to_hex in H.
Qed.

(** X6: the 'debug' event of a successful [openConnection(credentials)]
    gives the session keys away: the line it carries is the line of one
    pair of keys only, the pair now stored in the caller's Credentials
    object, and reading its hex digits back gives these keys. *)
Theorem debug_line_reveals_keys env c cr w w' line keys :
  heap w !! c = Some cr →
  openConnection env (Some c) w = (Resolved tt, w') →
  Emit "debug" (ArgDebug line) ∈ since w w' →
  debug_keys keys = line →
  heap w' !! c = Some (with_keys cr keys)
  ∧ from_hex (to_hex (keys_readKey keys)) = keys_readKey keys
  ∧ from_hex (to_hex (keys_writeKey keys)) = keys_writeKey keys.
Proof.
  intros Hc Hopen Hin Hline.
  destruct (open_with_credentials_trace _ _ _ _ _ Hc Hopen)
    as (keys' & config & Ht & _ & Hheap & _).
  apply since_app in Ht. rewrite Ht in Hin.
  repeat (apply elem_of_cons in Hin as [Hin|Hin]; [try discriminate|]);
    [|by apply elem_of_nil in Hin].
  injection Hin as Hl. rewrite Hl in Hline. apply debug_keys_inj in Hline as ->.
  by rewrite !from_hex_to_hex.
Qed.

Lemma debug_line_reveals_keys_witness :
  let w := sample_tv env_ok in
  let w' := (openConnection env_ok (Some 7%nat) w).2 in
  let line := "DEBUG: Keys Read=0a0b, Write=ff01" in
  heap w !! 7%nat = Some sample_credentials
  ∧ openConnection env_ok (Some 7%nat) w = (Resolved tt, w')
  ∧ Emit "debug" (ArgDebug line) ∈ since w w'
  ∧ debug_keys sample_keys = line
  ∧ heap w' !! 7%nat = Some (with_keys sample_credentials sample_keys)
  ∧ from_hex (to_hex (keys_readKey sample_keys)) = keys_readKey sample_keys
  ∧ from_hex (to_hex (keys_writeKey sample_keys)) = keys_writeKey sample_keys.
Proof.
  cbv zeta.
  assert (H1 : heap (sample_tv env_ok) !! 7%nat = Some sample_credentials)
    by reflexivity.
  assert (H2 : openConnection env_ok (Some 7%nat) (sample_tv env_ok)
               = (Resolved tt, (openConnection env_ok (Some 7%nat) (sample_tv env_ok)).2))
    by reflexivity.
  assert (H3 : Emit "debug" (ArgDebug "DEBUG: Keys Read=0a0b, Write=ff01")
               ∈ since (sample_tv env_ok)
                   (openConnection env_ok (Some 7%nat) (sample_tv env_ok)).2)
    by (vm_compute; do 4 right; left).
  assert (H4 : debug_keys sample_keys = "DEBUG: Keys Read=0a0b, Write=ff01")
    by (vm_compute; reflexivity).
  split; [exact H1|]. split; [exact H2|]. split; [exact H3|]. split; [exact H4|].
  exact (debug_line_reveals_keys env_ok _ _ _ _ _ _ H1 H2 H3 H4).
Defined.

(** ** The session state between two opens *)

Lemma session_state_eq w w' :
  session_state w' = session_state w →
  pairingId w' = pairingId w ∧ credentials w' = credentials w ∧ heap w' = heap w.
Proof. unfold session_state. by intros [= -> -> ->]. Qed.

Lemma adds_refl P w : adds P w w.
Proof. exists []. by rewrite app_nil_r. Qed.

Lemma adds_trans P w1 w2 w3 : adds P w1 w2 → adds P w2 w3 → adds P w1 w3.
Proof.
  intros (l1 & H1 & F1) (l2 & H2 & F2). exists (l1 ++ l2).
  split; [by rewrite H2, H1, app_assoc|by apply Forall_app].
Qed.

Lemma adds_same P w w' : trace w' = trace w → adds P w w'.
Proof. intros H. exists []. by rewrite app_nil_r. Qed.

Lemma adds_record P e w : P e → adds P w (record e w).
Proof. intros He. exists [e]. split; [done|by apply Forall_singleton]. Qed.

Lemma adds_since P w w' : adds P w w' → Forall P (since w w').
Proof. intros (l & H & F). by rewrite (since_app _ _ _ H). Qed.

Lemma steady_refl w : steady w w.
Proof. split; [done|apply adds_refl]. Qed.

Lemma steady_trans w1 w2 w3 : steady w1 w2 → steady w2 w3 → steady w1 w3.
Proof.
  intros [S1 A1] [S2 A2]. split; [congruence|].
  destruct (session_state_eq _ _ S1) as (_ & Hc & Hh). rewrite Hc, Hh in A2.
  by eapply adds_trans.
Qed.

Lemma steady_same w w' :
  session_state w' = session_state w → trace w' = trace w → steady w w'.
Proof. intros H1 H2. split; [done|by apply adds_same]. Qed.

Lemma steady_record e w :
  sent_with (credentials w) (credentials w ≫= (heap w !!.)) e → steady w (record e w).
Proof. intros He. split; [done|by apply adds_record]. Qed.

(** *** The emitter and the timers keep the session state *)

Lemma onNewListener_session ev w :
  session_state (onNewListener ev w) = session_state w
  ∧ trace (onNewListener ev w) = trace w.
Proof. by destruct (onNewListener_cases ev w) as [(_ & _ & ->) | (_ & ->)]. Qed.

Lemma on_session ev l w :
  session_state (on ev l w) = session_state w ∧ trace (on ev l w) = trace w.
Proof.
  unfold on. case_bool_decide; [|done].
  destruct (onNewListener_session ev w) as [H1 H2].
  revert H1 H2. unfold session_state. simpl. by intros [= -> -> ->] ->.
Qed.

Lemma onRemoveListener_session ev w :
  session_state (onRemoveListener ev w) = session_state w.
Proof.
  by destruct (onRemoveListener_cases ev w) as [(h & _ & _ & _ & ->) | (_ & ->)].
Qed.

Lemma removeListener_session ev l w :
  session_state (removeListener ev l w) = session_state w.
Proof.
  unfold removeListener. case_bool_decide; [|done].
  case_bool_decide; [|done]. by rewrite onRemoveListener_session.
Qed.

Lemma settle_session p s w : session_state (settle p s w) = session_state w.
Proof. by destruct (settle_cases p s w) as [[_ ->] | [_ ->]]. Qed.

Lemma invoke_session l a w : session_state (invoke l a w) = session_state w.
Proof.
  destruct l, a; simpl; try done. case_bool_decide; [|done].
  by rewrite removeListener_session, settle_session.
Qed.

Lemma emit_session ev a w : session_state (emit ev a w) = session_state w.
Proof.
  unfold emit.
  apply (foldl_invoke_ind (λ w', session_state w' = session_state w)); [done|].
  intros l w' _ <-. apply invoke_session.
Qed.

Lemma steady_emit ev a w : steady w (emit ev a w).
Proof.
  split; [apply emit_session|]. exists [Emit ev a].
  split; [apply emit_trace|by apply Forall_singleton].
Qed.

(** [onReceiveMessage] is a sequence of calls to [emit]. *)
Lemma onReceiveMessage_emits (R : World → World → Prop) env m w :
  (∀ w1 w2 w3, R w1 w2 → R w2 w3 → R w1 w3) →
  (∀ ev a w', R w' (emit ev a w')) →
  R w (onReceiveMessage env m w).
Proof.
  intros Htrans Hemit. unfold onReceiveMessage.
  pose proof (Hemit "message" (ArgMessage m) w) as H1.
  case_bool_decide; [|done].
  destruct (payload m) as [p|]; [|by eapply Htrans].
  revert H1. generalize (emit "message" (ArgMessage m) w). intros w1 H1.
  assert (H2 : R w
            match nowPlayingInfo p with
            | Some _ => emit "nowPlaying" (ArgNowPlaying (Some {| npi_of := p |})) w1
            | None => w1
            end)
    by (destruct (nowPlayingInfo p); [by eapply Htrans|done]).
  revert H2. generalize (match nowPlayingInfo p with
            | Some _ => emit "nowPlaying" (ArgNowPlaying (Some {| npi_of := p |})) w1
            | None => w1
            end). intros w2 H2.
  destruct (supportedCommands p), (playbackQueue p);
    repeat (eapply Htrans; [|apply Hemit]); done.
Qed.

Lemma steady_onReceiveMessage env m w : steady w (onReceiveMessage env m w).
Proof. apply onReceiveMessage_emits; [apply steady_trans|apply steady_emit]. Qed.

Lemma steady_messageOfType type timeout w : steady w (messageOfType type timeout w).2.
Proof.
  rewrite messageOfType_eq. cbn [snd].
  match goal with |- steady _ (on ?ev ?l ?w1) =>
    destruct (on_session ev l w1) as [H1 H2] end.
  apply steady_same; [by rewrite H1|by rewrite H2].
Qed.

(** *** Methods *)

Lemma calm_bind {A B} (m : Async A) (k : A → Async B) :
  calm m → (∀ a, calm (k a)) → calm (m ≫= k).
Proof.
  intros Hm Hk w. unfold mbind, Async_bind. specialize (Hm w).
  destruct (m w) as [[a|e] w1]; simpl in *; [|done].
  eapply steady_trans; [done|apply Hk].
Qed.

Lemma calm_resolve {A} (a : A) : calm (resolve a).
Proof. intros w. apply steady_refl. Qed.

Lemma calm_reject {A} e : calm (@reject A e).
Proof. intros w. apply steady_refl. Qed.

Lemma calm_uuid env : calm (uuid env).
Proof. intros w. by apply steady_record. Qed.

Lemma calm_load env file : calm (load env file).
Proof. intros w. by apply steady_record. Qed.

Lemma calm_connection_send env t b wt p : calm (connection_send env t b wt p).
Proof. intros w. by apply steady_record. Qed.

Lemma calm_sendMessage env f t b wt p : calm (sendMessage env f t b wt p).
Proof.
  apply calm_bind; [apply calm_load|]. intros _. apply calm_connection_send.
Qed.

Lemma calm_requestPlaybackQueueWithWait env options wt :
  calm (requestPlaybackQueueWithWait env options wt).
Proof. apply calm_bind; [apply calm_uuid|intros u]. apply calm_sendMessage. Qed.

Lemma calm_requestArtwork env width height : calm (requestArtwork env width height).
Proof.
  apply calm_bind; [apply calm_requestPlaybackQueueWithWait|intros r].
  destruct (artwork_of r); [apply calm_resolve|apply calm_reject].
Qed.

Lemma calm_sendKeyPress env p u d : calm (sendKeyPress env p u d).
Proof. apply calm_bind; [apply calm_sendMessage|intros _; apply calm_resolve]. Qed.

Lemma calm_sendKeyCommand env k : calm (sendKeyCommand env k).
Proof.
  destruct k; (apply calm_bind; [apply calm_sendKeyPress|intros _; apply calm_sendKeyPress]).
Qed.

Lemma steady_pollQueue env w : steady w (pollQueue env w).
Proof.
  unfold pollQueue. destruct (isOpen env (trace w)); [|apply steady_refl].
  apply calm_requestPlaybackQueueWithWait.
Qed.

Lemma steady_fire env h w : steady w (fire env h w).
Proof.
  unfold fire. destruct (timers w !! h) as [t|]; [|apply steady_refl].
  set (w1 := if repeats t then w else set_timers (delete h (timers w)) w).
  assert (H1 : steady w w1)
    by (unfold w1; destruct (repeats t); [apply steady_refl|by apply steady_same]).
  eapply steady_trans; [done|].
  destruct (callback t) as [|p ty]; simpl; [apply steady_pollQueue|].
  apply steady_same.
  - by rewrite removeListener_session, settle_session.
  - by rewrite removeListener_trace, settle_trace.
Qed.

Lemma steady_step env w op : is_open op = false → steady w (step env w op).
Proof.
  intros Hop. destruct op; try done; cbn [step].
  - destruct (on_session ev (External id) w). by apply steady_same.
  - apply steady_same; [apply removeListener_session|apply removeListener_trace].
  - apply steady_messageOfType.
  - apply steady_onReceiveMessage.
  - apply steady_fire.
  - by apply steady_record.
  - apply calm_requestPlaybackQueueWithWait.
  - apply calm_requestArtwork.
  - apply calm_sendKeyCommand.
Qed.

(** X7: between two calls of [openConnection], whatever else happens
    (listeners, waits, inbound messages, timers, requests, key commands,
    closing), the pairing id, the stored credentials reference and every
    Credentials object stay as they are, and every message handed to the
    connection goes with the stored credentials, as they were at the
    start. *)
Theorem sends_carry_stored_credentials env ops w :
  Forall (λ op, is_open op = false) ops →
  let w' := run env ops w in
  pairingId w' = pairingId w ∧ credentials w' = credentials w ∧ heap w' = heap w
  ∧ Forall (sent_with (credentials w) (credentials w ≫= (heap w !!.))) (since w w').
Proof.
  intros Hops. cbv zeta.
  assert (H : steady w (run env ops w)).
  { revert w. induction Hops as [|op ops Hop _ IH]; intros w; simpl;
      [apply steady_refl|].
    eapply steady_trans; [by apply steady_step|apply IH]. }
  destruct H as [Hs Ha]. apply session_state_eq in Hs as (? & ? & ?).
  split_and!; [done..|by apply adds_since].
Qed.

Lemma sends_carry_stored_credentials_witness :
  let w := (openConnection env_ok (Some 7%nat) (sample_tv env_ok)).2 in
  let ops := [On "nowPlaying" 1; Fire 0; SendKeyCommand Up; RequestArtwork None None;
              CloseConnection] in
  let w' := run env_ok ops w in
  Forall (λ op, is_open op = false) ops
  ∧ pairingId w' = pairingId w ∧ credentials w' = credentials w ∧ heap w' = heap w
  ∧ Forall (sent_with (credentials w) (credentials w ≫= (heap w !!.))) (since w w').
Proof.
  cbv zeta.
  assert (H : Forall (λ op, is_open op = false)
                [On "nowPlaying" 1; Fire 0; SendKeyCommand Up; RequestArtwork None None;
                 CloseConnection])
    by (repeat constructor).
  split; [exact H|].
  exact (sends_carry_stored_credentials env_ok _
           (openConnection env_ok (Some 7%nat) (sample_tv env_ok)).2 H).
Defined.

(** ** What the engine asks of its collaborators *)

Lemma typed_bind {A B} (m : Async A) (k : A → Async B) :
  typed m → (∀ a, typed (k a)) → typed (m ≫= k).
Proof.
  intros Hm Hk w. unfold mbind, Async_bind. specialize (Hm w).
  destruct (m w) as [[a|e] w1]; simpl in *; [|done].
  eapply adds_trans; [done|apply Hk].
Qed.

Lemma typed_resolve {A} (a : A) : typed (resolve a).
Proof. intros w. apply adds_refl. Qed.

Lemma typed_reject {A} e : typed (@reject A e).
Proof. intros w. apply adds_refl. Qed.

Lemma typed_uuid env : typed (uuid env).
Proof. intros w. by apply adds_record. Qed.

Lemma typed_load env file : typed (load env file).
Proof. intros w. by apply adds_record. Qed.

Lemma typed_connection_send env t b wt :
  (t, wt) ∈ [("DeviceInfoMessage", true);
             ("SetConnectionStateMessage", false);
             ("ClientUpdatesConfigMessage", false);
             ("PlaybackQueueRequestMessage", true);
             ("PlaybackQueueRequestMessage", false);
             ("SendHIDEventMessage", false)] →
  typed (connection_send env t b wt 0).
Proof. intros Hin w. by apply adds_record. Qed.

Lemma typed_sendMessage env f t b wt :
  (t, wt) ∈ [("DeviceInfoMessage", true);
             ("SetConnectionStateMessage", false);
             ("ClientUpdatesConfigMessage", false);
             ("PlaybackQueueRequestMessage", true);
             ("PlaybackQueueRequestMessage", false);
             ("SendHIDEventMessage", false)] →
  typed (sendMessage env f t b wt 0).
Proof.
  intros Hin. apply typed_bind; [apply typed_load|]. intros _.
  by apply typed_connection_send.
Qed.

Lemma typed_requestPlaybackQueueWithWait env options wt :
  typed (requestPlaybackQueueWithWait env options wt).
Proof.
  apply typed_bind; [apply typed_uuid|intros u]. apply typed_sendMessage.
  destruct wt; set_solver.
Qed.

Lemma typed_requestArtwork env width height : typed (requestArtwork env width height).
Proof.
  apply typed_bind; [apply typed_requestPlaybackQueueWithWait|intros r].
  destruct (artwork_of r); [apply typed_resolve|apply typed_reject].
Qed.

Lemma typed_sendKeyPress env p u d : typed (sendKeyPress env p u d).
Proof.
  apply typed_bind; [apply typed_sendMessage; set_solver|intros _; apply typed_resolve].
Qed.

Lemma typed_sendKeyCommand env k : typed (sendKeyCommand env k).
Proof.
  destruct k; (apply typed_bind; [apply typed_sendKeyPress|intros _; apply typed_sendKeyPress]).
Qed.

Lemma adds_emit ev a w : adds plain w (emit ev a w).
Proof. exists [Emit ev a]. split; [apply emit_trace|by apply Forall_singleton]. Qed.

Lemma adds_onReceiveMessage env m w : adds plain w (onReceiveMessage env m w).
Proof. apply onReceiveMessage_emits; [apply adds_trans|apply adds_emit]. Qed.

Lemma adds_pollQueue env w : adds plain w (pollQueue env w).
Proof.
  unfold pollQueue. destruct (isOpen env (trace w)); [|apply adds_refl].
  apply typed_requestPlaybackQueueWithWait.
Qed.

Lemma adds_fire env h w : adds plain w (fire env h w).
Proof.
  unfold fire. destruct (timers w !! h) as [t|]; [|apply adds_refl].
  set (w1 := if repeats t then w else set_timers (delete h (timers w)) w).
  assert (H1 : adds plain w w1)
    by (unfold w1; destruct (repeats t); [apply adds_refl|by apply adds_same]).
  eapply adds_trans; [done|].
  destruct (callback t) as [|p ty]; simpl; [apply adds_pollQueue|].
  apply adds_same. by rewrite removeListener_trace, settle_trace.
Qed.

Ltac trace_is :=
  simpl; rewrite <- ?app_assoc; simpl; reflexivity.

Ltac accounted :=
  eexists; split; [trace_is|];
  split; [repeat constructor; set_solver|];
  split; [reflexivity|]; split; [reflexivity|]; simpl; lia.

(** Once per call [openConnection] opens the connection; it never closes
    it, and it calls the verifier at most once, only with credentials. *)
Lemma openConnection_adds env creds w :
  ∃ l, trace (openConnection env creds w).2 = trace w ++ ConnOpen :: l
       ∧ Forall engine_send l
       ∧ filter (λ e, is_ConnOpen e) l = []
       ∧ filter (λ e, is_ConnClose e) l = []
       ∧ length (filter (λ e, is_VerifierVerify e) l)
         ≤ (if creds is Some _ then 1 else 0).
Proof.
  unfold openConnection. async_unfold. destruct creds as [c|]; simpl.
  - destruct (heap w !! c) eqn:Hc; simpl; repeat answer; accounted.
  - repeat answer; accounted.
Qed.

Lemma plain_filters l :
  Forall plain l →
  Forall engine_send l
  ∧ filter (λ e, is_ConnOpen e) l = []
  ∧ filter (λ e, is_ConnClose e) l = []
  ∧ filter (λ e, is_VerifierVerify e) l = [].
Proof.
  induction 1 as [|e l (He & Ho & Hc & Hv) _ (IH1 & IH2 & IH3 & IH4)]; [done|].
  split; [by constructor|].
  rewrite !filter_cons, IH2, IH3, IH4, Ho, Hc, Hv. done.
Qed.

Lemma step_accounted env w op :
  ∃ l, trace (step env w op) = trace w ++ l
       ∧ Forall engine_send l
       ∧ length (filter (λ e, is_ConnOpen e) l) = (if is_open op then 1 else 0)
       ∧ length (filter (λ e, is_ConnClose e) l) = (if is_close op then 1 else 0)
       ∧ length (filter (λ e, is_VerifierVerify e) l)
         ≤ (if is_keyed_open op then 1 else 0).
Proof.
  assert (Hplain : adds plain w (step env w op) →
                   is_open op = false → is_close op = false →
                   ∃ l, trace (step env w op) = trace w ++ l
                        ∧ Forall engine_send l
                        ∧ length (filter (λ e, is_ConnOpen e) l)
                          = (if is_open op then 1 else 0)
                        ∧ length (filter (λ e, is_ConnClose e) l)
                          = (if is_close op then 1 else 0)
                        ∧ length (filter (λ e, is_VerifierVerify e) l)
                          ≤ (if is_keyed_open op then 1 else 0)).
  { intros (l & Hl & (H1 & H2 & H3 & H4)%plain_filters) Ho Hc. exists l.
    rewrite H2, H3, H4, Ho, Hc. split_and!; [done..|simpl; lia]. }
  destruct op as [ev id|ev id|type timeout|m|h|creds| |options|width height|k];
    try (apply Hplain; [|done..]); cbn [step].
  - apply adds_same. by destruct (on_session ev (External id) w).
  - apply adds_same, removeListener_trace.
  - apply adds_same. rewrite messageOfType_eq. cbn [snd].
    match goal with |- trace (on ?ev ?l ?w1) = _ =>
      by destruct (on_session ev l w1) as [_ ->] end.
  - apply adds_onReceiveMessage.
  - apply adds_fire.
  - destruct (openConnection_adds env creds w) as (l & Hl & H1 & H2 & H3 & H4).
    exists (ConnOpen :: l). rewrite !filter_cons, H2, H3. simpl.
    split_and!; [done|by constructor|done|done|].
    destruct creds; simpl in *; lia.
  - exists [ConnClose]. split_and!; [done|by repeat constructor|done..|simpl; lia].
  - apply typed_requestPlaybackQueueWithWait.
  - apply typed_requestArtwork.
  - apply typed_sendKeyCommand.
Qed.

Lemma run_accounted env ops w :
  ∃ l, trace (run env ops w) = trace w ++ l
       ∧ Forall engine_send l
       ∧ length (filter (λ e, is_ConnOpen e) l)
         = length (filter (λ op, is_open op) ops)
       ∧ length (filter (λ e, is_ConnClose e) l)
         = length (filter (λ op, is_close op) ops)
       ∧ length (filter (λ e, is_VerifierVerify e) l)
         ≤ length (filter (λ op, is_keyed_open op) ops).
Proof.
  revert w. induction ops as [|op ops IH]; intros w; simpl.
  - exists []. by rewrite app_nil_r.
  - destruct (step_accounted env w op) as (l1 & Hl1 & F1 & O1 & C1 & V1).
    destruct (IH (step env w op)) as (l2 & Hl2 & F2 & O2 & C2 & V2).
    exists (l1 ++ l2). rewrite Hl2, Hl1, <- app_assoc.
    rewrite !filter_app, !length_app, !filter_cons, O1, O2, C1, C2.
    split_and!; [done|by apply Forall_app| | |].
    + by destruct (is_open op).
    + by destruct (is_close op).
    + destruct (is_keyed_open op); simpl in *; lia.
Qed.

Lemma new_AppleTV_trace env objects : trace (new_AppleTV env objects) = [Uuid].
Proof.
  unfold new_AppleTV, setupListeners.
  match goal with |- trace (on ?ev ?l ?w1) = _ =>
    destruct (on_session ev l w1) as [_ ->] end.
  match goal with |- trace (on ?ev ?l ?w1) = _ =>
    by destruct (on_session ev l w1) as [_ ->] end.
Qed.

(** X8: whatever sequence of [Op] runs on an instance, every message it
    hands to the connection has priority 0 and is one of five types: the introduction
    (waited for), the connection state, the client-updates config, a key
    event (none of them waited for) and the playback-queue request.  No
    'WakeDeviceMessage' is ever sent. *)
Theorem engine_sends_are_typed env objects ops :
  let t := trace (run env ops (new_AppleTV env objects)) in
  Forall engine_send t
  ∧ sent_types t ⊆
      ["DeviceInfoMessage"; "SetConnectionStateMessage"; "ClientUpdatesConfigMessage";
       "PlaybackQueueRequestMessage"; "SendHIDEventMessage"]
  ∧ "WakeDeviceMessage" ∉ sent_types t.
Proof.
  cbv zeta.
  destruct (run_accounted env ops (new_AppleTV env objects)) as (l & Hl & F & _).
  rewrite new_AppleTV_trace in Hl. rewrite Hl.
  assert (Hall : Forall engine_send ([Uuid] ++ l))
    by (apply Forall_app; split; [by repeat constructor|done]).
  assert (Hsub : sent_types ([Uuid] ++ l) ⊆
            ["DeviceInfoMessage"; "SetConnectionStateMessage";
             "ClientUpdatesConfigMessage"; "PlaybackQueueRequestMessage";
             "SendHIDEventMessage"]).
  { intros ty. unfold sent_types. rewrite list_elem_of_omap.
    intros (e & He & Hty). rewrite Forall_forall in Hall. apply Hall in He.
    destruct e; try done. simpl in Hty. injection Hty as ->.
    destruct He as [_ He]. rewrite !elem_of_cons, elem_of_nil in He.
    rewrite !elem_of_cons.
    destruct He as [He|[He|[He|[He|[He|[He|[]]]]]]]; injection He as -> _; tauto. }
  split_and!; [done|done|]. intros Hin%Hsub. revert Hin. not_among.
Qed.

(** X9: over any sequence of [Op], the connection is opened once per call
    of [openConnection] and closed once per call of [closeConnection],
    never otherwise: not by an open that fails, not by a timer; the
    verifier runs at most once per call of [openConnection] with
    credentials. *)
Theorem connection_calls_accounted env objects ops :
  let t := trace (run env ops (new_AppleTV env objects)) in
  length (filter (λ e, is_ConnOpen e) t) = length (filter (λ op, is_open op) ops)
  ∧ length (filter (λ e, is_ConnClose e) t) = length (filter (λ op, is_close op) ops)
  ∧ length (filter (λ e, is_VerifierVerify e) t)
    ≤ length (filter (λ op, is_keyed_open op) ops).
Proof.
  cbv zeta.
  destruct (run_accounted env ops (new_AppleTV env objects))
    as (l & Hl & _ & H1 & H2 & H3).
  rewrite new_AppleTV_trace in Hl. rewrite Hl.
  by rewrite !filter_app, !length_app.
Qed.

(** ** All waits of an instance *)

(** *** Listeners are only ever dropped by the engine *)

Lemma remove_last_subset l x ls : x ∈ remove_last l ls → x ∈ ls.
Proof.
  destruct (decide (x = l)) as [->|Hne]; [|by rewrite remove_last_elem_of_ne].
  destruct (decide (l ∈ ls)); [done|]. by rewrite remove_last_notin.
Qed.

Lemma removeListener_subset ev ev' l x w :
  x ∈ listeners ev' (removeListener ev l w) → x ∈ listeners ev' w.
Proof.
  rewrite removeListener_listeners. case_decide; [subst|done]. apply remove_last_subset.
Qed.

Lemma invoke_subset ev l a x w :
  x ∈ listeners ev (invoke l a w) → x ∈ listeners ev w.
Proof.
  destruct l, a; simpl; try done. case_bool_decide; [|done].
  intros Hx%removeListener_subset. by rewrite (listeners_events ev w) in Hx
    by apply settle_events.
Qed.

Lemma emit_subset ev ev' a x w :
  x ∈ listeners ev' (emit ev a w) → x ∈ listeners ev' w.
Proof.
  unfold emit.
  apply (foldl_invoke_ind (λ w', x ∈ listeners ev' w' → x ∈ listeners ev' w)); [done|].
  intros l w' _ IH Hx. by apply IH, (invoke_subset _ l a).
Qed.

Lemma onReceiveMessage_listeners env m ev w :
  listeners ev (onReceiveMessage env m w)
  = listeners ev (emit "message" (ArgMessage m) w).
Proof.
  apply listeners_events.
  by destruct (emitter_state_eq _ _ (onReceiveMessage_after env m w)) as (_ & -> & _).
Qed.

Lemma fire_subset env h ev x w :
  x ∈ listeners ev (fire env h w) → x ∈ listeners ev w.
Proof.
  unfold fire. destruct (timers w !! h) as [t|]; [|done].
  set (w1 := if repeats t then w else set_timers (delete h (timers w)) w).
  assert (H1 : events w1 = events w) by (unfold w1; by destruct (repeats t)).
  destruct (callback t) as [|p ty]; simpl.
  - destruct (emitter_state_eq _ _ (pollQueue_emitter_state env w1)) as (_ & He & _).
    by rewrite (listeners_events ev w) by congruence.
  - intros Hx%removeListener_subset.
    rewrite (listeners_events ev w) in Hx; [done|]. by rewrite settle_events.
Qed.

(** *** A promise never becomes pending again *)

Lemma settle_pending p p' s w :
  promises (settle p s w) !! p' = Some Pending → promises w !! p' = Some Pending.
Proof.
  destruct (settle_cases p s w) as [[Hp ->] | [_ ->]]; [|done].
  simpl. rewrite lookup_insert. case_decide; [by subst|done].
Qed.

Lemma invoke_pending l a p w :
  promises (invoke l a w) !! p = Some Pending → promises w !! p = Some Pending.
Proof.
  destruct l, a; simpl; try done. case_bool_decide; [|done].
  rewrite removeListener_promises. apply settle_pending.
Qed.

Lemma emit_pending ev a p w :
  promises (emit ev a w) !! p = Some Pending → promises w !! p = Some Pending.
Proof.
  unfold emit.
  apply (foldl_invoke_ind
           (λ w', promises w' !! p = Some Pending → promises w !! p = Some Pending));
    [done|].
  intros l w' _ IH Hp. by apply IH, (invoke_pending l a).
Qed.

Lemma onReceiveMessage_promises env m w :
  promises (onReceiveMessage env m w) = promises (emit "message" (ArgMessage m) w).
Proof.
  by destruct (emitter_state_eq _ _ (onReceiveMessage_after env m w))
    as (_ & _ & _ & -> & _).
Qed.

(** *** What a message does to the waits *)

Lemma invoke_timers l a w :
  timers (invoke l a w) = timers w ∧ queuePollTimer (invoke l a w) = queuePollTimer w.
Proof.
  destruct l, a; simpl; try done. case_bool_decide; [|done].
  match goal with |- context [removeListener ?ev ?l ?w1] =>
    destruct (removeListener_unwatched ev l w1 eq_refl) as [-> ->] end.
  by destruct (settle_rest promise (Fulfilled m) w) as (_ & -> & _ & ->).
Qed.

Lemma emit_timers ev a w :
  timers (emit ev a w) = timers w ∧ queuePollTimer (emit ev a w) = queuePollTimer w.
Proof.
  unfold emit.
  apply (foldl_invoke_ind
           (λ w', timers w' = timers w ∧ queuePollTimer w' = queuePollTimer w));
    [done|].
  intros l w' _ [<- <-]. apply invoke_timers.
Qed.

Lemma onReceiveMessage_timers env m w :
  timers (onReceiveMessage env m w) = timers w
  ∧ queuePollTimer (onReceiveMessage env m w) = queuePollTimer w.
Proof.
  destruct (emitter_state_eq _ _ (onReceiveMessage_after env m w))
    as (-> & _ & -> & _). apply emit_timers.
Qed.

Lemma invoke_count l a x w :
  count_occ Listener_eq_dec (listeners "message" (invoke l a w)) x
  ≤ count_occ Listener_eq_dec (listeners "message" w) x.
Proof.
  destruct l as [|p ty| |], a; simpl; try done. case_bool_decide; [|done].
  rewrite removeListener_listeners, decide_True by done.
  rewrite (listeners_events _ w) by apply settle_events.
  destruct (decide (x = TypeWaiter p ty)) as [->|];
    [rewrite remove_last_count_eq; lia|by rewrite remove_last_count_ne].
Qed.

Lemma foldl_invoke_count a x ls w :
  count_occ Listener_eq_dec
    (listeners "message" (foldl (λ w' l, invoke l a w') w ls)) x
  ≤ count_occ Listener_eq_dec (listeners "message" w) x.
Proof.
  apply (foldl_invoke_ind
           (λ w', count_occ Listener_eq_dec (listeners "message" w') x
                  ≤ count_occ Listener_eq_dec (listeners "message" w) x)); [done|].
  intros l w' _ IH. etrans; [apply invoke_count|done].
Qed.

(** A wait whose type the message has loses one registration. *)
Lemma foldl_invoke_served p ty m ls w :
  msg_type m = ty → TypeWaiter p ty ∈ ls →
  count_occ Listener_eq_dec
    (listeners "message" (foldl (λ w' l, invoke l (ArgMessage m) w') w ls))
    (TypeWaiter p ty)
  ≤ pred (count_occ Listener_eq_dec (listeners "message" w) (TypeWaiter p ty)).
Proof.
  intros Hm. revert w. induction ls as [|l ls IH]; intros w Hin;
    [by apply elem_of_nil in Hin|].
  simpl. destruct (decide (l = TypeWaiter p ty)) as [->|Hne].
  - etrans; [apply foldl_invoke_count|].
    simpl. rewrite bool_decide_eq_true_2 by done.
    rewrite removeListener_listeners, decide_True by done.
    rewrite (listeners_events _ w) by apply settle_events.
    by rewrite remove_last_count_eq.
  - apply elem_of_cons in Hin as [|Hin]; [congruence|].
    etrans; [by apply IH|]. pose proof (invoke_count l (ArgMessage m) (TypeWaiter p ty) w).
    lia.
Qed.

Lemma receive_unregisters env p ty h t m w :
  msg_type m = ty → waiting p ty h t w →
  TypeWaiter p ty ∉ listeners "message" (onReceiveMessage env m w).
Proof.
  intros Hm Hw. rewrite onReceiveMessage_listeners.
  rewrite list_elem_of_In, (count_occ_not_In Listener_eq_dec).
  pose proof (waiting_once _ _ _ _ _ Hw) as Hc.
  assert (Hin : TypeWaiter p ty ∈ listeners "message" w).
  { rewrite list_elem_of_In, (count_occ_In Listener_eq_dec). lia. }
  pose proof (foldl_invoke_served p ty m (listeners "message" w)
                (record (Emit "message" (ArgMessage m)) w) Hm Hin) as Hle.
  unfold emit.
  change (listeners "message" (record (Emit "message" (ArgMessage m)) w))
    with (listeners "message" w) in Hle.
  lia.
Qed.

(** *** The waits of an instance *)

Lemma waits_ok_ext w w' :
  emitter_state w = emitter_state w' → waits_ok w → waits_ok w'.
Proof.
  intros He [H1 H2 H3 H4].
  destruct (emitter_state_eq _ _ He) as (_ & Hev & Ht & Hp & _).
  split.
  - by eapply wf_ext.
  - intros h t p ty. rewrite <- Ht. apply H2.
  - intros ev p ty. rewrite (listeners_events ev w), <- Hp by done. apply H3.
  - intros p. rewrite <- Hp. intros (ty & h & t & Hw)%H4.
    exists ty, h, t. by eapply waiting_ext.
Qed.

Lemma waits_ok_on ev id w : waits_ok w → waits_ok (on ev (External id) w).
Proof.
  intros [H1 H2 H3 H4].
  destruct (on_cases ev (External id) w (wf_new_hook _ H1))
    as [(_ & _ & _ & Ht & _ & Hp & _) | (_ & _ & Ht & _ & Hp & _)].
  - split.
    + by apply wf_on.
    + intros h t p ty. rewrite Ht, lookup_insert. case_decide; [by intros [= <-]|].
      apply H2.
    + intros ev' p ty. rewrite on_listeners, Hp. case_decide; [subst|apply H3].
      rewrite elem_of_app, list_elem_of_singleton. intros [Hin|]; [by apply (H3 _ _ ty)|done].
    + intros p. rewrite Hp. intros (ty & h & t & Hw)%H4.
      exists ty, h, t. by apply waiting_on.
  - split.
    + by apply wf_on.
    + intros h t p ty. rewrite Ht. apply H2.
    + intros ev' p ty. rewrite on_listeners, Hp. case_decide; [subst|apply H3].
      rewrite elem_of_app, list_elem_of_singleton. intros [Hin|]; [by apply (H3 _ _ ty)|done].
    + intros p. rewrite Hp. intros (ty & h & t & Hw)%H4.
      exists ty, h, t. by apply waiting_on.
Qed.

Lemma waits_ok_removeListener ev id w :
  waits_ok w → waits_ok (removeListener ev (External id) w).
Proof.
  intros [H1 H2 H3 H4].
  destruct (decide (External id ∈ listeners ev w)) as [Hin|Hin];
    [|by rewrite removeListener_notin].
  destruct (removeListener_cases ev (External id) w) as (Hp & _ & _ & Hcases);
    [done|apply (wf_remove_hook _ H1)|done|].
  split.
  - by apply wf_removeListener.
  - intros h t p ty.
    destruct Hcases as [(hq & _ & _ & _ & _ & ->) | (_ & _ & ->)]; [|apply H2].
    rewrite lookup_delete. case_decide; [done|]. apply H2.
  - intros ev' p ty Hx%removeListener_subset. rewrite Hp. by apply (H3 _ _ ty).
  - intros p. rewrite Hp. intros (ty & h & t & Hw)%H4.
    exists ty, h, t. by apply waiting_removeListener.
Qed.

Lemma messageOfType_promises type timeout w :
  wf w →
  promises (messageOfType type timeout w).2 = <[next_id w := Pending]> (promises w)
  ∧ timers (messageOfType type timeout w).2
    = <[S (next_id w) := {| callback := WaitExpired (next_id w) type;
                            delay := default 5%Z timeout * 1000;
                            repeats := false |}]> (timers w).
Proof.
  intros Hwf. rewrite messageOfType_eq. cbn [snd].
  match goal with |- context [on ?ev ?l ?w2] =>
    destruct (on_cases ev l w2)
      as [(_ & [=] & _) | (_ & _ & -> & _ & -> & _)] end; [|done].
  rewrite listeners_lookup. simpl. apply (wf_new_hook _ Hwf).
Qed.

Lemma waits_ok_messageOfType type timeout w :
  waits_ok w → waits_ok (messageOfType type timeout w).2.
Proof.
  intros [H1 H2 H3 H4].
  destruct (messageOfType_registers type timeout w H1) as (_ & Hnew & Hl & Hw).
  destruct (messageOfType_promises type timeout w H1) as [Hp Ht].
  cbv zeta in Hl, Hw.
  assert (Hls : ∀ ev, listeners ev (messageOfType type timeout w).2
                = if decide ("message" = ev)
                  then listeners ev w ++ [TypeWaiter (next_id w) type]
                  else listeners ev w).
  { intros ev. rewrite messageOfType_eq. cbn [snd]. rewrite on_listeners.
    by case_decide; subst. }
  split.
  - by apply wf_messageOfType.
  - intros h t p ty. rewrite Ht, lookup_insert. case_decide; [by intros [= <-]|].
    apply H2.
  - intros ev p ty. rewrite Hls, Hp. case_decide as Hev.
    + subst. rewrite elem_of_app, list_elem_of_singleton.
      intros [Hin | [= -> ->]]; [|by rewrite lookup_insert_eq].
      destruct (H3 _ _ _ Hin) as [_ Hpend]. split; [done|].
      rewrite lookup_insert_ne; [done|].
      apply (wf_waiters_fresh _ H1) in Hin. lia.
    + intros Hin. destruct (H3 _ _ _ Hin) as [-> _]. done.
  - intros p. rewrite Hp, lookup_insert. case_decide as Hpp.
    + subst. intros _. eauto.
    + intros (ty & h & t & Hw')%H4. exists ty, h, t. by apply waiting_messageOfType.
Qed.

Lemma waits_ok_onReceiveMessage env m w :
  waits_ok w → waits_ok (onReceiveMessage env m w).
Proof.
  intros [H1 H2 H3 H4].
  assert (Hpend : ∀ p, promises (onReceiveMessage env m w) !! p = Some Pending →
                       ∃ ty h t, waiting p ty h t w ∧ msg_type m ≠ ty).
  { intros p Hp. pose proof Hp as Hp'.
    rewrite onReceiveMessage_promises in Hp'. apply emit_pending in Hp'.
    destruct (H4 _ Hp') as (ty & h & t & Hw). exists ty, h, t. split; [done|].
    intros Hm. rewrite (receive_fulfils env p ty h t m w Hm Hw) in Hp. done. }
  split.
  - by apply wf_onReceiveMessage.
  - intros h t p ty. destruct (onReceiveMessage_timers env m w) as [-> _]. apply H2.
  - intros ev p ty Hin. pose proof Hin as Hin'.
    rewrite onReceiveMessage_listeners in Hin'. apply emit_subset in Hin'.
    destruct (H3 _ _ _ Hin') as [-> Hp]. split; [done|].
    destruct (H4 _ Hp) as (ty' & h & t & Hw).
    assert (ty = ty') as ->
      by apply (tracked_type _ _ _ (waiting_tracked _ _ _ _ _ Hw) _ _ Hin').
    destruct (decide (msg_type m = ty')) as [Hm|Hm].
    + by apply (receive_unregisters env p ty' h t m w Hm Hw) in Hin.
    + apply (waiting_pending p ty' h t). by apply waiting_onReceiveMessage.
  - intros p (ty & h & t & Hw & Hm)%Hpend. exists ty, h, t.
    by apply waiting_onReceiveMessage.
Qed.

Lemma waits_ok_fire env h w : waits_ok w → waits_ok (fire env h w).
Proof.
  intros [H1 H2 H3 H4].
  assert (Hother : ∀ p ty h' t, waiting p ty h' t w → h' = h →
                     promises (fire env h w) !! p = Some (Failed (timeout_error ty))
                     ∧ TypeWaiter p ty ∉ listeners "message" (fire env h w)).
  { intros p ty h' t Hw ->.
    assert (Hr : repeats t = false).
    { eapply H2; [apply (waiting_timer _ _ _ _ _ Hw)|apply (waiting_callback _ _ _ _ _ Hw)]. }
    destruct (fire_rejects env p ty h t w Hr Hw) as (? & ? & _). done. }
  split.
  - by apply wf_fire.
  - intros h' t p ty. unfold fire. destruct (timers w !! h) as [t0|] eqn:Ht0; [|apply H2].
    set (w1 := if repeats t0 then w else set_timers (delete h (timers w)) w).
    assert (Hsub : ∀ t', timers w1 !! h' = Some t' → timers w !! h' = Some t').
    { intros t'. unfold w1. destruct (repeats t0); [done|]. simpl.
      rewrite lookup_delete. by case_decide. }
    destruct (callback t0) as [|p0 ty0]; simpl.
    + destruct (emitter_state_eq _ _ (pollQueue_emitter_state env w1))
        as (_ & _ & -> & _). intros Ht'%Hsub. by apply (H2 h').
    + match goal with |- context [removeListener ?ev ?l ?w2] =>
        destruct (removeListener_unwatched ev l w2 eq_refl) as [-> _] end.
      destruct (settle_rest p0 (Failed (timeout_error ty0)) w1) as (_ & -> & _).
      intros Ht'%Hsub. by apply (H2 h').
  - intros ev p ty Hin. pose proof (fire_subset _ _ _ _ _ Hin) as Hin'.
    destruct (H3 _ _ _ Hin') as [-> Hp]. split; [done|].
    destruct (H4 _ Hp) as (ty' & h' & t & Hw).
    assert (ty = ty') as ->
      by apply (tracked_type _ _ _ (waiting_tracked _ _ _ _ _ Hw) _ _ Hin').
    destruct (decide (h' = h)) as [Hh|Hh].
    + by destruct (Hother _ _ _ _ Hw Hh) as [_ []].
    + apply (waiting_pending p ty' h' t). by apply waiting_fire.
  - intros p Hp.
    assert (Hp' : promises w !! p = Some Pending).
    { destruct (promise_fire env p h w) as [<- | [e He]]; [done|congruence]. }
    destruct (H4 _ Hp') as (ty & h' & t & Hw). exists ty, h', t.
    destruct (decide (h' = h)) as [Hh|Hh].
    + destruct (Hother _ _ _ _ Hw Hh) as [He _]. congruence.
    + by apply waiting_fire.
Qed.

Lemma waits_ok_new_AppleTV env objects : waits_ok (new_AppleTV env objects).
Proof.
  destruct (new_AppleTV_rest env objects) as (Hq & Ht & Hp & Hn).
  split.
  - apply wf_new_AppleTV.
  - intros h t p ty. by rewrite Ht, lookup_empty.
  - intros ev p ty. rewrite new_AppleTV_listeners.
    repeat case_decide; rewrite ?list_elem_of_singleton, ?elem_of_nil; done.
  - intros p. by rewrite Hp, lookup_empty.
Qed.

Lemma waits_ok_step env w op : waits_ok w → waits_ok (step env w op).
Proof.
  intros Hok. destruct op; cbn [step].
  - by apply waits_ok_on.
  - by apply waits_ok_removeListener.
  - by apply waits_ok_messageOfType.
  - by apply waits_ok_onReceiveMessage.
  - by apply waits_ok_fire.
  - eapply waits_ok_ext; [symmetry; apply quiet_openConnection|done].
  - by apply (waits_ok_ext w).
  - eapply waits_ok_ext; [symmetry; apply quiet_requestPlaybackQueueWithWait|done].
  - eapply waits_ok_ext; [symmetry; apply quiet_requestArtwork|done].
  - eapply waits_ok_ext; [symmetry; apply quiet_sendKeyCommand|done].
Qed.

Lemma waits_ok_run env ops w : waits_ok w → waits_ok (run env ops w).
Proof.
  revert w. induction ops as [|op ops IH]; intros w Hok; simpl; [done|].
  by apply IH, waits_ok_step.
Qed.

(** X11: on every instance, after any sequence of [Op], a promise of
    [messageOfType] is pending exactly while its listener is registered
    on 'message'; and a pending promise has its listener registered once
    and its timeout armed: firing that timer rejects it with the timeout
    error, and a message of its type fulfils it.  No wait is left without
    a way to settle, and no settled wait leaves a listener behind. *)
Theorem pending_waits_are_armed env objects ops p :
  let w := run env ops (new_AppleTV env objects) in
  (promises w !! p = Some Pending ↔ ∃ ty, TypeWaiter p ty ∈ listeners "message" w)
  ∧ (promises w !! p = Some Pending →
     ∃ ty h t,
       timers w !! h = Some t ∧ callback t = WaitExpired p ty ∧ repeats t = false
       ∧ count_occ Listener_eq_dec (listeners "message" w) (TypeWaiter p ty) = 1
       ∧ promises (fire env h w) !! p = Some (Failed (timeout_error ty))
       ∧ ∀ m, msg_type m = ty →
              promises (onReceiveMessage env m w) !! p = Some (Fulfilled m)).
Proof.
  cbv zeta.
  assert (Hok : waits_ok (run env ops (new_AppleTV env objects)))
    by apply waits_ok_run, waits_ok_new_AppleTV.
  revert Hok. generalize (run env ops (new_AppleTV env objects)). intros w Hok.
  assert (Harmed : promises w !! p = Some Pending →
     ∃ ty h t,
       timers w !! h = Some t ∧ callback t = WaitExpired p ty ∧ repeats t = false
       ∧ count_occ Listener_eq_dec (listeners "message" w) (TypeWaiter p ty) = 1
       ∧ promises (fire env h w) !! p = Some (Failed (timeout_error ty))
       ∧ ∀ m, msg_type m = ty →
              promises (onReceiveMessage env m w) !! p = Some (Fulfilled m)).
  { intros (ty & h & t & Hw)%(waits_pending _ Hok). exists ty, h, t.
    pose proof (waiting_timer _ _ _ _ _ Hw) as Ht.
    pose proof (waiting_callback _ _ _ _ _ Hw) as Hc.
    pose proof (waits_one_shot _ Hok _ _ _ _ Ht Hc) as Hr.
    split_and!; [done|done|done|apply (waiting_once _ _ _ _ _ Hw)| |].
    - by destruct (fire_rejects env p ty h t w Hr Hw) as [? _].
    - intros m Hm. by apply (receive_fulfils env p ty h t). }
  split; [|done]. split.
  - intros (ty & h & t & _ & _ & _ & Hc & _)%Harmed. exists ty.
    rewrite list_elem_of_In, (count_occ_In Listener_eq_dec). lia.
  - intros [ty Hin]. by destruct (waits_registered _ Hok _ _ _ Hin).
Qed.

(** X12: an inbound message serves every wait for its type and no other:
    a registered wait for the type of the message is fulfilled with it
    and its listener removed; a registered wait for another type stays
    pending and registered. *)
Theorem message_serves_waits_of_its_type env objects ops m p ty :
  let w := run env ops (new_AppleTV env objects) in
  let w' := onReceiveMessage env m w in
  TypeWaiter p ty ∈ listeners "message" w →
  if decide (msg_type m = ty)
  then promises w' !! p = Some (Fulfilled m)
       ∧ TypeWaiter p ty ∉ listeners "message" w'
  else promises w' !! p = Some Pending
       ∧ TypeWaiter p ty ∈ listeners "message" w'.
Proof.
  cbv zeta.
  assert (Hok : waits_ok (run env ops (new_AppleTV env objects)))
    by apply waits_ok_run, waits_ok_new_AppleTV.
  revert Hok. generalize (run env ops (new_AppleTV env objects)). intros w Hok Hin.
  destruct (waits_registered _ Hok _ _ _ Hin) as [_ Hp].
  destruct (waits_pending _ Hok _ Hp) as (ty' & h & t & Hw).
  assert (ty = ty') as ->
    by apply (tracked_type _ _ _ (waiting_tracked _ _ _ _ _ Hw) _ _ Hin).
  case_decide as Hm.
  - split; [by apply (receive_fulfils env p ty' h t)|].
    by apply (receive_unregisters env p ty' h t).
  - pose proof (waiting_onReceiveMessage env p ty' h t m w Hm Hw) as Hw'.
    split; [apply (waiting_pending _ _ _ _ _ Hw')|].
    rewrite list_elem_of_In, (count_occ_In Listener_eq_dec).
    rewrite (waiting_once _ _ _ _ _ Hw'). lia.
Qed.

Lemma message_serves_waits_of_its_type_witness :
  let ops := [MessageOfType 4 None; MessageOfType 15 (Some 2%Z);
              MessageOfType 4 (Some 1%Z)] in
  let w := run env_ok ops (new_AppleTV env_ok {[ 7%nat := sample_credentials ]}) in
  let w' := onReceiveMessage env_ok state_message w in
  TypeWaiter 4 4 ∈ listeners "message" w
  ∧ if decide (msg_type state_message = 4%Z)
    then promises w' !! 4%nat = Some (Fulfilled state_message)
         ∧ TypeWaiter 4 4 ∉ listeners "message" w'
    else promises w' !! 4%nat = Some Pending
         ∧ TypeWaiter 4 4 ∈ listeners "message" w'.
Proof.
  cbv zeta.
  assert (H : TypeWaiter 4 4 ∈
                listeners "message"
                  (run env_ok [MessageOfType 4 None; MessageOfType 15 (Some 2%Z);
                               MessageOfType 4 (Some 1%Z)]
                     (new_AppleTV env_ok {[ 7%nat := sample_credentials ]})))
    by (vm_compute; do 2 right; left).
  split; [exact H|].
  exact (message_serves_waits_of_its_type env_ok _ _ state_message 4 4%Z H).
Defined.

(** X13: [messageOfType] never clears its timer.  An inbound message
    leaves every timer armed, the one of a wait it fulfils included; when
    the timer of a wait that is no longer pending fires, the timer is
    spent and nothing else changes. *)
Theorem late_timeout_only_spends_its_timer env objects ops m h t p ty :
  let w := run env ops (new_AppleTV env objects) in
  let w' := onReceiveMessage env m w in
  timers w !! h = Some t →
  callback t = WaitExpired p ty →
  promises w' !! p ≠ Some Pending →
  timers w' = timers w
  ∧ fire env h w' = set_timers (delete h (timers w')) w'.
Proof.
  cbv zeta.
  assert (Hok : waits_ok (run env ops (new_AppleTV env objects)))
    by apply waits_ok_run, waits_ok_new_AppleTV.
  revert Hok. generalize (run env ops (new_AppleTV env objects)). intros w Hok Ht Hc Hp.
  destruct (onReceiveMessage_timers env m w) as [Ht' _].
  split; [done|].
  pose proof (waits_ok_onReceiveMessage env m w Hok) as Hok'.
  revert Hok' Hp. rewrite <- Ht' in Ht. revert Ht. clear Ht'.
  generalize (onReceiveMessage env m w). intros w' Ht Hok' Hp.
  unfold fire. rewrite Ht, Hc, (waits_one_shot _ Hok' _ _ _ _ Ht Hc).
  cbn [run_callback].
  destruct (settle_cases p (Failed (timeout_error ty))
              (set_timers (delete h (timers w')) w')) as [[Hp' _] | [_ ->]]; [done|].
  apply removeListener_notin. intros Hin.
  change (TypeWaiter p ty ∈ listeners "message" w') in Hin.
  by destruct (waits_registered _ Hok' _ _ _ Hin).
Qed.

Lemma late_timeout_only_spends_its_timer_witness :
  let ops := [MessageOfType 4 None; MessageOfType 15 (Some 2%Z)] in
  let w := run env_ok ops (new_AppleTV env_ok {[ 7%nat := sample_credentials ]}) in
  let w' := onReceiveMessage env_ok state_message w in
  let t := {| callback := WaitExpired 0 4; delay := 5000; repeats := false |} in
  timers w !! 1%nat = Some t
  ∧ callback t = WaitExpired 0 4
  ∧ promises w' !! 0%nat ≠ Some Pending
  ∧ timers w' = timers w
  ∧ fire env_ok 1 w' = set_timers (delete 1%nat (timers w')) w'.
Proof.
  cbv zeta.
  assert (H1 : timers (run env_ok [MessageOfType 4 None; MessageOfType 15 (Some 2%Z)]
                         (new_AppleTV env_ok {[ 7%nat := sample_credentials ]}))
               !! 1%nat
               = Some {| callback := WaitExpired 0 4; delay := 5000; repeats := false |})
    by (vm_compute; reflexivity).
  assert (H2 : callback {| callback := WaitExpired 0 4; delay := 5000; repeats := false |}
               = WaitExpired 0 4) by reflexivity.
  assert (H3 : promises
                 (onReceiveMessage env_ok state_message
                    (run env_ok [MessageOfType 4 None; MessageOfType 15 (Some 2%Z)]
                       (new_AppleTV env_ok {[ 7%nat := sample_credentials ]})))
               !! 0%nat ≠ Some Pending)
    by (vm_compute; discriminate).
  split; [exact H1|]. split; [exact H2|]. split; [exact H3|].
  exact (late_timeout_only_spends_its_timer env_ok _ _ state_message 1 _ 0 4%Z H1 H2 H3).
Defined.

(** X14: the timers of an instance are the polling interval, if a watched
    listener is registered, and the timeouts of [messageOfType]: a timer
    is either the one the engine holds as its polling task, every 5000 ms
    and repeating, or fires once, for a wait. *)
Theorem timers_of_an_instance env objects ops h t :
  let w := run env ops (new_AppleTV env objects) in
  timers w !! h = Some t →
  (t = poll_timer ∧ queuePollTimer w = Some h ∧ 0 < watching w)
  ∨ (∃ p ty, callback t = WaitExpired p ty ∧ repeats t = false
             ∧ queuePollTimer w ≠ Some h ∧ p < next_id w).
Proof.
  cbv zeta.
  assert (Hok : waits_ok (run env ops (new_AppleTV env objects)))
    by apply waits_ok_run, waits_ok_new_AppleTV.
  revert Hok. generalize (run env ops (new_AppleTV env objects)). intros w Hok Ht.
  pose proof (waits_wf _ Hok) as Hwf. pose proof (wf_poll _ Hwf) as Hpoll.
  destruct (callback t) as [|p ty] eqn:Hc.
  - left. pose proof (wf_unique _ Hwf _ _ Ht Hc) as Hq. rewrite Hq in Hpoll.
    destruct Hpoll as [Hpoll ?]. rewrite Ht in Hpoll. by injection Hpoll as ->.
  - right. exists p, ty. split_and!; [done| | |].
    + by apply (waits_one_shot _ Hok h t p ty).
    + intros Hq. rewrite Hq in Hpoll. destruct Hpoll as [Hpoll _].
      rewrite Ht in Hpoll. injection Hpoll as ->. done.
    + by apply (wf_timeouts_fresh _ Hwf h t p ty).
Qed.

Lemma timers_of_an_instance_witness :
  let ops := [On "nowPlaying" 1; MessageOfType 15 (Some 2%Z)] in
  let w := run env_ok ops (new_AppleTV env_ok {[ 7%nat := sample_credentials ]}) in
  timers w !! 0%nat = Some poll_timer
  ∧ ((poll_timer = poll_timer ∧ queuePollTimer w = Some 0%nat ∧ 0 < watching w)
     ∨ (∃ p ty, callback poll_timer = WaitExpired p ty ∧ repeats poll_timer = false
                ∧ queuePollTimer w ≠ Some 0%nat ∧ p < next_id w)).
Proof.
  cbv zeta.
  assert (H : timers (run env_ok [On "nowPlaying" 1; MessageOfType 15 (Some 2%Z)]
                        (new_AppleTV env_ok {[ 7%nat := sample_credentials ]}))
              !! 0%nat = Some poll_timer)
    by (vm_compute; reflexivity).
  split; [exact H|].
  exact (timers_of_an_instance env_ok _ _ 0 _ H).
Defined.

(** ** The address of the device *)

Lemma starts_with_spec search s :
  starts_with search s = true ↔ ∃ post, s = search +:+ post.
Proof.
  revert s. induction search as [|a search IH]; intros s; simpl.
  - split; [eauto|done].
  - destruct s as [|b s]; [split; [done|by intros [? [=]]]|].
    rewrite andb_true_iff, bool_decide_eq_true, IH. split.
    + intros [-> [post ->]]. eauto.
    + intros [post [= -> ->]]. eauto.
Qed.

Lemma includes_spec search s :
  includes search s = true ↔ ∃ pre post, s = pre +:+ search +:+ post.
Proof.
  induction s as [|c s IH]; simpl; rewrite orb_true_iff, starts_with_spec.
  - split.
    + intros [[post ->] | [=]]. by exists EmptyString, post.
    + intros (pre & post & H). left. destruct pre; [by exists post|done].
  - rewrite IH. split.
    + intros [[post ->] | (pre & post & ->)]; [by exists EmptyString, post|].
      by exists (String c pre), post.
    + intros ([|c' pre] & post & H); [left; by exists post|].
      injection H as <- ->. right. eauto.
Qed.

Lemma head_filter_spec {A} (P : A → Prop) `{∀ x, Decision (P x)} (l : list A) :
  match head (filter P l) with
  | Some a => ∃ before after, l = before ++ a :: after ∧ P a ∧ Forall (λ x, ¬ P x) before
  | None => Forall (λ x, ¬ P x) l
  end.
Proof.
  induction l as [|x l IH]; simpl; [done|].
  rewrite filter_cons. case_decide as Hx; simpl.
  - exists [], l. by repeat split.
  - destruct (head (filter P l)) as [a|].
    + destruct IH as (before & after & -> & Ha & Hb).
      exists (x :: before), after. repeat split; [done|by constructor].
    + by constructor.
Qed.

(** X15: the constructor takes as [address] the first advertised address
    that contains a dot, skipping those without one; when no address
    contains a dot, [address] is undefined. *)
Theorem address_is_first_dotted service :
  let dotted x := ∃ pre post, x = pre +:+ "." +:+ post in
  match address (device service) with
  | Some a =>
      ∃ before after,
        addresses service = before ++ a :: after
        ∧ dotted a ∧ Forall (λ x, ¬ dotted x) before
  | None => Forall (λ x, ¬ dotted x) (addresses service)
  end.
Proof.
  cbv zeta. unfold device. cbn [address].
  pose proof (head_filter_spec (λ x, includes "." x) (addresses service)) as H.
  destruct (head (filter _ (addresses service))) as [a|].
  - destruct H as (before & after & Hl & Ha & Hb). exists before, after.
    split; [done|]. split.
    + by apply includes_spec, Is_true_true.
    + eapply Forall_impl; [done|]. intros x Hx Hd. apply Hx.
      by apply Is_true_true, includes_spec.
  - eapply Forall_impl; [done|]. intros x Hx Hd. apply Hx.
    by apply Is_true_true, includes_spec.
Qed.

(** ** Two runs

    The scenarios of the specification's testable properties, on the
    sample instance. *)

(** A first listener starts the polling task, a second one of the other
    kind starts none, removing one of the two keeps it, removing the last
    one clears it. *)
Example polling_scenario :
  let w0 := sample_tv env_ok in
  let w1 := run env_ok [On "nowPlaying" 1] w0 in
  let w2 := run env_ok [On "supportedCommands" 2] w1 in
  let w3 := run env_ok [RemoveListener "nowPlaying" 1] w2 in
  let w4 := run env_ok [RemoveListener "supportedCommands" 2] w3 in
  (queuePollTimer w0, dom (timers w0)) = (None, ∅)
  ∧ (queuePollTimer w1, timers w1) = (Some 0, {[ 0 := poll_timer ]})
  ∧ (queuePollTimer w2, timers w2) = (Some 0, {[ 0 := poll_timer ]})
  ∧ (queuePollTimer w3, timers w3) = (Some 0, {[ 0 := poll_timer ]})
  ∧ (queuePollTimer w4, dom (timers w4)) = (None, ∅).
Proof. split_and!; vm_compute; reflexivity. Qed.

(** A wait for type 15 while a wait for type 4 is pending: a message of
    type 4 fulfils the second wait only; the timer of the first wait then
    rejects it and leaves the second as it is. *)
Example wait_scenario :
  let m := {| msg_type := 4; payload := None |} in
  let w := run env_ok [MessageOfType 15 None; MessageOfType 4 (Some 2%Z);
                       Receive m; Fire 1] (sample_tv env_ok) in
  promises w !! 0 = Some (Failed (JsError "Timed out waiting for message type 15"))
  ∧ promises w !! 2 = Some (Fulfilled m)
  ∧ listeners "message" w = []
  ∧ delay <$> timers w !! 3 = Some 2000%Z.
Proof. split_and!; vm_compute; reflexivity. Qed.

(** An open without credentials after an open with credentials: the
    introduction still carries the stored reference, and the field ends
    undefined. *)
Example second_open_scenario :
  let w := (openConnection env_ok (Some 7%nat) (sample_tv env_ok)).2 in
  let w' := (openConnection env_ok None w).2 in
  credentials w = Some 7%nat
  ∧ omap (λ e, match e with
               | ConnSend "DeviceInfoMessage" _ _ _ c _ => Some c
               | _ => None
               end) (since w w') = [Some 7%nat]
  ∧ credentials w' = None.
Proof. split_and!; vm_compute; reflexivity. Qed.
